(** * momepy [elements.py]: derived spatial elements

    A shallow embedding of [src/momepy/elements.py] (tessellation,
    street-network snapping, nearest-street search) together with the
    properties of the natural-language specification that concern them.

    Modelling choices.

    - Python floats are idealised as real numbers ([R]) wherever the source
      itself applies [math.sqrt], [math.cos], [math.sin] or [math.atan];
      rounding, NaN and overflow are out of that model.  Lengths and areas
      that the source only adds and compares (they are produced by shapely)
      are rationals ([Q]), so that those parts evaluate.
    - Where a property turns on rounding (whether a divisor is zero), the
      function is modelled a second time on binary64 floats, which is what
      a Python float is (module [Float64]).
    - A Python exception is a value [Raise e] of the error monad [result].
    - shapely, geopandas, rtree and osmnx are libraries outside the
      repository: their operations (intersection of two geometries,
      bounding-box queries of an R-tree, the predicate of the spatial
      join) are the fields of a record [Env], over which the functions
      calling them and the properties are stated.
    - Every model comes with a small instance on which it is run. *)

From Stdlib Require Import Reals Lra Lia List Bool ZArith QArith String.
From Stdlib Require Floats.
Import ListNotations.

(** ** Exceptions *)

Inductive exn : Type :=
| ZeroDivisionError
| ValueError
| IndexError
| KeyError
| TypeError
| RTreeError
| OverflowError.

Inductive result (A : Type) : Type :=
| Ok (a : A)
| Raise (e : exn).
Arguments Ok {A} a.
Arguments Raise {A} e.

Definition bind {A B : Type} (c : result A) (k : A -> result B) : result B :=
  match c with
  | Ok a => k a
  | Raise e => Raise e
  end.

Declare Scope result_scope.
Delimit Scope result_scope with result.
Notation "x <- c ;; k" := (bind c (fun x => k))
  (at level 61, c at next level, right associativity) : result_scope.
Notation "' pat <- c ;; k" := (bind c (fun x => match x with pat => k end))
  (at level 61, pat pattern, c at next level, right associativity) : result_scope.

(** ** Planar points and float primitives *)

Module Plane.
Local Open Scope R_scope.

Definition Point : Type := (R * R)%type.
Definition LineString : Type := list Point.

Definition Rleb (x y : R) : bool := if Rle_dec x y then true else false.
Definition Rltb (x y : R) : bool := if Rlt_dec x y then true else false.
Definition Rgeb (x y : R) : bool := if Rge_dec x y then true else false.
Definition Reqb (x y : R) : bool := if Req_dec_T x y then true else false.

Definition Point_eqb (p q : Point) : bool :=
  Reqb (fst p) (fst q) && Reqb (snd p) (snd q).

(** Python's [x / y] on floats raises [ZeroDivisionError] when [y == 0]. *)
Definition fdiv (x y : R) : result R :=
  if Reqb y 0 then Raise ZeroDivisionError else Ok (x / y).

(** [distance(a, b)] of [street_edges], also what shapely's
    [Point.distance] computes between two points. *)
Definition distance (a b : Point) : R :=
  sqrt ((fst a - fst b) ^ 2 + (snd a - snd b) ^ 2).

(** [LineString.length]: the sum of the lengths of the consecutive pieces. *)
Fixpoint length (l : LineString) : R :=
  match l with
  | a :: ((b :: _) as tl) => distance a b + length tl
  | _ => 0
  end.

End Plane.

(** ** [street_edges]: nearest street of a centroid *)

Module StreetEdges.
Import Plane.
Local Open Scope R_scope.
Local Open Scope result_scope.

Definition INFTY : R := 1000000000000.

Definition Segment : Type := (Point * Point)%type.

(** [get_distance(apoint, segment)].  The three guards are those of the
    source; when none holds the Python function falls off its end and
    returns [None], which its caller cannot unpack. *)
Definition get_distance (apoint : Point) (segment : Segment) : result (Point * R) :=
  let a := apoint in
  let '(b, c) := segment in
  let t := (fst a - fst b) * (fst c - fst b) + (snd a - snd b) * (snd c - snd b) in
  t <- fdiv t ((fst c - fst b) ^ 2 + (snd c - snd b) ^ 2) ;;
  if Rltb 0 t && Rltb t 1 then
    let pcoords := (t * (fst c - fst b) + fst b, t * (snd c - snd b) + snd b) in
    let dmin := distance a pcoords in
    Ok (pcoords, dmin)
  else if Rleb t 0 then Ok (b, distance a b)
  else if Rleb 1 t then Ok (c, distance a c)
  else Raise TypeError.

(** The bounding boxes handed to the R-tree: (left, bottom, right, top). *)
Definition Box : Type := (R * R * R * R)%type.

Definition box_intersects (b1 b2 : Box) : bool :=
  let '(l1, b1', r1, t1) := b1 in
  let '(l2, b2', r2, t2) := b2 in
  Rleb l1 r2 && Rleb l2 r1 && Rleb b1' t2 && Rleb b2' t1.

(** The object stored with every sub-segment: [(lid, segment, nid)]. *)
Record obj : Type := mkObj { lid : string; seg : Segment; nid : Z }.

Definition item : Type := (nat * Box * obj)%type.

(** The inner loop of [generate_items]: the consecutive 2-point pieces of
    one street, numbered from [sindx]. *)
Fixpoint pieces (lid : string) (nid : Z) (l : LineString) (sindx : nat) : list item :=
  match l with
  | (a, b) :: (((c, d) :: _) as tl) =>
      let segment := ((a, b), (c, d)) in
      let box := (Rmin a c, Rmin b d, Rmax a c, Rmax b d) in
      (sindx, box, mkObj lid segment nid) :: pieces lid nid tl (S sindx)
  | _ => []
  end.

Definition street : Type := (string * Z * LineString)%type.

Fixpoint generate_items (lines : list street) (sindx : nat) : list item :=
  match lines with
  | [] => []
  | (lid, nid, l) :: rest =>
      let its := pieces lid nid l sindx in
      its ++ generate_items rest (sindx + List.length its)
  end.

(** [get_rtree(lines)]: the index is represented by its items, in the
    order in which [generate_items] yields them.  (rtree itself refuses
    to build an index from a stream without items.) *)
Definition get_rtree (lines : list street) : list item := generate_items lines 0.

(** [idx.intersection(pbox, objects='raw')]: the stored objects of the
    items whose box meets [pbox] (closed boxes).  rtree refuses a query
    box whose minimum exceeds its maximum.  The hits are listed here in
    the order of the items; rtree lists them in the order of its tree,
    which is why what depends on the order of the hits is stated on
    [scan], for any list of hits. *)
Definition intersection (idx : list item) (pbox : Box) : result (list obj) :=
  let '(l, b, r, t) := pbox in
  if Rltb r l || Rltb t b then Raise RTreeError
  else Ok (map snd (filter (fun it => box_intersects (snd (fst it)) pbox) idx)).

(** The [for h in hits] loop of [get_solution], on the pair [(d, s)]. *)
Fixpoint scan (p : Point) (hits : list obj) (d : R) (s : option obj)
  : result (R * option obj) :=
  match hits with
  | [] => Ok (d, s)
  | h :: rest =>
      '(nearest_p, new_d) <- get_distance p (seg h) ;;
      if Rgeb d new_d then scan p rest new_d (Some h) else scan p rest d s
  end.

(** The values of the dictionary returned by [get_solution]: the triple
    [(h[0], h[1], h[-1])], or the pair [(0, 0)] when [s is None]. *)
Inductive solution : Type :=
| Assigned (lid : string) (seg : Segment) (nid : Z)
| Unassigned.

Definition pbox_of (min_size : R) (p : Point) : Box :=
  (fst p - min_size, snd p - min_size, fst p + min_size, snd p + min_size).

(** One iteration of the [for p in points] loop: the value stored under [p]. *)
Definition solve (min_size : R) (idx : list item) (p : Point) : result solution :=
  let pbox := pbox_of min_size p in
  hits <- intersection idx pbox ;;
  '(d, s) <- scan p hits INFTY None ;;
  match s with
  | Some h => Ok (Assigned (lid h) (seg h) (nid h))
  | None => Ok Unassigned
  end.

(** [result[p] = v] on a dictionary kept as an association list in
    insertion order. *)
Fixpoint dict_set (d : list (Point * solution)) (p : Point) (v : solution)
  : list (Point * solution) :=
  match d with
  | [] => [(p, v)]
  | (q, w) :: rest => if Point_eqb q p then (q, v) :: rest else (q, w) :: dict_set rest p v
  end.


Fixpoint get_solution_loop (min_size : R) (idx : list item) (points : list Point)
  (res : list (Point * solution)) : result (list (Point * solution)) :=
  match points with
  | [] => Ok res
  | p :: rest =>
      v <- solve min_size idx p ;;
      get_solution_loop min_size idx rest (dict_set res p v)
  end.

(** [get_solution(idx, points)], with the constant [MIN_SIZE] of the
    enclosing function as a parameter. *)
Definition get_solution (min_size : R) (idx : list item) (points : list Point)
  : result (list (Point * solution)) :=
  get_solution_loop min_size idx points [].

(** *** Notions used to state the properties *)

(** The parameter [t] of the projection of [a] on the line through [b], [c]. *)
Definition parameter (a b c : Point) : R :=
  ((fst a - fst b) * (fst c - fst b) + (snd a - snd b) * (snd c - snd b))
  / ((fst c - fst b) ^ 2 + (snd c - snd b) ^ 2).

(** [p] lies on the segment from [b] to [c]. *)
Definition on_segment (p b c : Point) : Prop :=
  exists s, 0 <= s <= 1 /\
    fst p = fst b + s * (fst c - fst b) /\ snd p = snd b + s * (snd c - snd b).

(** The distance of [p] to the sub-segment stored in [h]. *)
Definition dist_to (p : Point) (h : obj) : R :=
  match get_distance p (seg h) with
  | Ok (_, d) => d
  | Raise _ => 0
  end.

(** The sub-segment stored in [h] has two distinct end points. *)
Definition proper (h : obj) : Prop := fst (seg h) <> snd (seg h).


(** A street "A" with network identifier 1 running from (0, 0) to
    (10, 0), and a centroid at (5, 3). *)
Definition example_streets : list street := [("A"%string, 1%Z, [(0, 0); (10, 0)])].
Definition example_points : list Point := [(5, 3)].

End StreetEdges.

(** ** [snap_street_network_edge]: closing dangling street ends *)

Module Snap.
Import Plane.
Local Open Scope R_scope.
Local Open Scope result_scope.

(** The offset [0.000001] added to both coordinate differences. *)
Definition offset : R := 1 / 1000000.

(** The angle [math.atan(math.fabs(p1[1] - p2[1] + 0.000001) /
    math.fabs(p1[0] - p2[0] + 0.000001))], which every branch of
    [getExtrapoledLine] evaluates first. *)
Definition angle (p1 p2 : Point) : result R :=
  q <- fdiv (Rabs (snd p1 - snd p2 + offset)) (Rabs (fst p1 - fst p2 + offset)) ;;
  Ok (atan q).

(** [getExtrapoledLine(p1, p2, tolerance)]. *)
Definition getExtrapoledLine (p1 p2 : Point) (tolerance : R) : result LineString :=
  let EXTRAPOL_RATIO := tolerance in
  let a := p2 in
  b <- (if Rgeb (fst p1) (fst p2) && Rgeb (snd p1) (snd p2) then
          t <- angle p1 p2 ;;
          Ok (fst p2 - EXTRAPOL_RATIO * cos t, snd p2 - EXTRAPOL_RATIO * sin t)
        else if Rleb (fst p1) (fst p2) && Rgeb (snd p1) (snd p2) then
          t <- angle p1 p2 ;;
          Ok (fst p2 + EXTRAPOL_RATIO * cos t, snd p2 - EXTRAPOL_RATIO * sin t)
        else if Rleb (fst p1) (fst p2) && Rleb (snd p1) (snd p2) then
          t <- angle p1 p2 ;;
          Ok (fst p2 + EXTRAPOL_RATIO * cos t, snd p2 + EXTRAPOL_RATIO * sin t)
        else
          t <- angle p1 p2 ;;
          Ok (fst p2 - EXTRAPOL_RATIO * cos t, snd p2 + EXTRAPOL_RATIO * sin t)) ;;
  Ok [a; b].

(** The signs of the two coordinate steps chosen by the four branches. *)
Definition heading (p1 p2 : Point) : R * R :=
  if Rgeb (fst p1) (fst p2) && Rgeb (snd p1) (snd p2) then (-1, -1)
  else if Rleb (fst p1) (fst p2) && Rgeb (snd p1) (snd p2) then (1, -1)
  else if Rleb (fst p1) (fst p2) && Rleb (snd p1) (snd p2) then (1, 1)
  else (-1, 1).

(** What an intersection computed by shapely can be.  The empty
    intersection is the empty [GeometryCollection]. *)
Inductive geom : Type :=
| GPoint (p : Point)
| GMultiPoint (p0 p1 : Point) (more : list Point)
| GLineString (l : LineString)
| GMultiLineString (ls : list LineString)
| GeometryCollection (parts : list (Point + LineString)).

Definition is_empty (g : geom) : bool :=
  match g with
  | GeometryCollection [] => true
  | _ => false
  end.

Definition is_GeometryCollection (g : geom) : bool :=
  match g with
  | GeometryCollection _ => true
  | _ => false
  end.

Definition Box : Type := (R * R * R * R)%type.

(** [Point(p).bounds] and [LineString(l).bounds]. *)
Definition point_bounds (p : Point) : Box := (fst p, snd p, fst p, snd p).

Definition bounds (l : LineString) : Box :=
  match l with
  | [] => (0, 0, 0, 0)
  | p :: rest =>
      fold_left (fun '(x0, y0, x1, y1) q =>
                   (Rmin x0 (fst q), Rmin y0 (snd q), Rmax x1 (fst q), Rmax y1 (snd q)))
                rest (point_bounds p)
  end.

(** The operations of rtree, shapely and geopandas that the function
    calls, for a fixed set of buildings and a fixed tessellation.  The
    R-trees are built once, before the loop: what they answer does not
    follow the geometries rewritten later. *)
Record Env : Type := mkEnv {
  (** [list(sindex.intersection(box))]: positions of network rows *)
  sindex : Box -> list nat;
  (** [list(bindex.intersection(box))]: positions of building rows *)
  bindex : Box -> list nat;
  (** [line.intersection(extrapolation)] of two line strings *)
  line_intersection : LineString -> LineString -> geom;
  (** [line.intersects(point)] *)
  line_intersects : LineString -> Point -> bool;
  (** [geometry.intersection(extrapolation)], [geometry] being the boundary
      of the dissolved tessellation *)
  edge_intersection : LineString -> geom;
  (** whether [buildings.iloc[n].geometry.intersection(line)] is non-empty *)
  building_meets : nat -> LineString -> bool
}.

(** The network table: the geometry column, by row position, the index
    being the default one (labels are positions). *)
Definition Network : Type := list LineString.

(** [network.iloc[positions]] followed by [.drop(idx, axis=0)]: the rows
    kept, with [KeyError] when [idx] is not among them. *)
Fixpoint iloc (network : Network) (positions : list nat) : result (list (nat * LineString)) :=
  match positions with
  | [] => Ok []
  | n :: rest =>
      match nth_error network n with
      | None => Raise IndexError
      | Some g => rows <- iloc network rest ;; Ok ((n, g) :: rows)
      end
  end.

Definition drop (idx : nat) (rows : list (nat * LineString)) : result (list (nat * LineString)) :=
  if existsb (fun r => Nat.eqb (fst r) idx) rows
  then Ok (filter (fun r => negb (Nat.eqb (fst r) idx)) rows)
  else Raise KeyError.

(** [network.loc[idx, 'geometry'] = line]. *)
Fixpoint set_geometry (network : Network) (idx : nat) (line : LineString) : Network :=
  match network, idx with
  | [] , _ => []
  | _ :: rest, O => line :: rest
  | g :: rest, S n => g :: set_geometry rest n line
  end.

(** [l[-k]] for [k >= 1]. *)
Definition from_end (l : list Point) (k : nat) : result Point :=
  match nth_error (rev l) (k - 1) with
  | Some p => Ok p
  | None => Raise IndexError
  end.

(** The first lines of [extend_line] and [extend_line_edge]: the two points
    [extra] and the probe built from them.  [l_coords[-3:-1]] has a single
    element when the list has two, and the call then lacks an argument. *)
Definition extrapolation_of (l_coords : list Point) (tolerance : R) : result LineString :=
  p <- from_end l_coords 2 ;;
  q <- from_end l_coords 1 ;;
  if Rleb (distance p q) (1 / 1000) then
    match rev l_coords with
    | _ :: p2 :: p1 :: _ => getExtrapoledLine p1 p2 tolerance
    | _ => Raise TypeError
    end
  else getExtrapoledLine p q tolerance.

(** The points collected in [true_int] from one intersection. *)
Definition true_points (g : geom) : list Point :=
  match g with
  | GPoint p => [p]
  | GMultiPoint p0 p1 _ => [p0; p1]
  | _ => []
  end.

(** [min(distances.items(), key=operator.itemgetter(1))]: the first point
    at the least distance from [target]. *)
Fixpoint nearest_from (target best : Point) (rest : list Point) : Point :=
  match rest with
  | [] => best
  | p :: rest' =>
      if Rltb (distance p target) (distance best target)
      then nearest_from target p rest'
      else nearest_from target best rest'
  end.

(** The choice of [new_point_coords]. *)
Definition new_point (true_int : list Point) (l_coords : list Point) : result Point :=
  match true_int with
  | [] => Raise IndexError
  | [p] => Ok p
  | p :: rest => last <- from_end l_coords 1 ;; Ok (nearest_from last p rest)
  end.

Record State : Type := mkState { l_coords : list Point; network : Network }.

(** Whether the line goes through a building found by the index. *)
Definition through_buildings (E : Env) (line : LineString) : bool :=
  existsb (fun n => building_meets E n line) (bindex E (bounds line)).

(** The common end of both extension functions: append the new point,
    form the extended line, and store it unless it goes through a
    building. *)
Definition try_store (E : Env) (idx : nat) (new_point_coords : Point) (st : State) : State :=
  let l_coords' := l_coords st ++ [new_point_coords] in
  let new_extended_line := l_coords' in
  if through_buildings E new_extended_line
  then mkState l_coords' (network st)
  else mkState l_coords' (set_geometry (network st) idx new_extended_line).

(** What [extend_line] returns: [False], or nothing ([None]). *)
Inductive returned : Type := ReturnedFalse | ReturnedNone.

(** [extend_line(tolerance)] for the row [idx]. *)
Definition extend_line (E : Env) (idx : nat) (tolerance : R) (st : State)
  : result (returned * State) :=
  extrapolation <- extrapolation_of (l_coords st) tolerance ;;
  let possible_intersections_index := sindex E (bounds extrapolation) in
  possible_intersections_lines <- iloc (network st) possible_intersections_index ;;
  possible_intersections_clean <- drop idx possible_intersections_lines ;;
  let possible_intersections :=
    map (fun r => line_intersection E (snd r) extrapolation) possible_intersections_clean in
  if existsb (fun g => negb (is_empty g)) possible_intersections then
    let true_int := flat_map true_points possible_intersections in
    new_point_coords <- new_point true_int (l_coords st) ;;
    Ok (ReturnedNone, try_store E idx new_point_coords st)
  else Ok (ReturnedFalse, st).

(** [extend_line_edge(tolerance)] for the row [idx]. *)
Definition extend_line_edge (E : Env) (idx : nat) (tolerance : R) (st : State)
  : result State :=
  extrapolation <- extrapolation_of (l_coords st) tolerance ;;
  let possible_intersections := edge_intersection E extrapolation in
  if negb (is_GeometryCollection possible_intersections) then
    let true_int := true_points possible_intersections in
    new_point_coords <- new_point true_int (l_coords st) ;;
    Ok (try_store E idx new_point_coords st)
  else Ok st.

(** [if extend_line(tolerance_street) is False:
        extend_line_edge(tolerance_edge)]. *)
Definition extend_end (E : Env) (idx : nat) (tolerance_street tolerance_edge : R)
  (st : State) : result State :=
  '(r, st1) <- extend_line E idx tolerance_street st ;;
  match r with
  | ReturnedFalse => extend_line_edge E idx tolerance_edge st1
  | ReturnedNone => Ok st1
  end.

(** [l_coords.reverse()]. *)
Definition reverse (st : State) : State := mkState (rev (l_coords st)) (network st).

(** Whether an end point touches another row of the network. *)
Definition connected (E : Env) (idx : nat) (network : Network) (pt : Point) : result bool :=
  let possible_index := sindex E (point_bounds pt) in
  possible_matches <- iloc network possible_index ;;
  possible_matches_clean <- drop idx possible_matches ;;
  Ok (existsb (fun r => line_intersects E (snd r) pt) possible_matches_clean).

(** The body of the loop of [snap_street_network_edge] for one row. *)
Definition snap_row (E : Env) (tolerance_street tolerance_edge : R)
  (idx : nat) (line : LineString) (network : Network) : result Network :=
  let st := mkState line network in
  start <- match line with p :: _ => Ok p | [] => Raise IndexError end ;;
  end_ <- from_end line 1 ;;
  first <- connected E idx network start ;;
  second <- connected E idx network end_ ;;
  match first, second with
  | true, true => Ok network
  | true, false =>
      st1 <- extend_end E idx tolerance_street tolerance_edge st ;;
      Ok (Snap.network st1)
  | false, true =>
      st1 <- extend_end E idx tolerance_street tolerance_edge (reverse st) ;;
      Ok (Snap.network st1)
  | false, false =>
      st1 <- extend_end E idx tolerance_street tolerance_edge st ;;
      st2 <- extend_end E idx tolerance_street tolerance_edge (reverse st1) ;;
      Ok (Snap.network st2)
  end.

(** The loop over [network.iterrows()]: the rows are those of the table
    as it was when the loop started. *)
Fixpoint snap_rows (E : Env) (tolerance_street tolerance_edge : R)
  (rows : list (nat * LineString)) (network : Network) : result Network :=
  match rows with
  | [] => Ok network
  | (idx, line) :: rest =>
      network' <- snap_row E tolerance_street tolerance_edge idx line network ;;
      snap_rows E tolerance_street tolerance_edge rest network'
  end.

Definition snap_street_network_edge (E : Env) (network : Network)
  (tolerance_street tolerance_edge : R) : result Network :=
  snap_rows E tolerance_street tolerance_edge
    (combine (seq 0 (List.length network)) network) network.

(** The order of the specification for a row with two free ends: the
    start (on the reversed list) first, the end second. *)
Definition snap_row_start_first (E : Env) (tolerance_street tolerance_edge : R)
  (idx : nat) (line : LineString) (network : Network) : result Network :=
  let st := mkState line network in
  st1 <- extend_end E idx tolerance_street tolerance_edge (reverse st) ;;
  st2 <- extend_end E idx tolerance_street tolerance_edge (reverse st1) ;;
  Ok (Snap.network st2).

(** *** Notions used to state the properties *)

(** [b] lies on the line through [p1] and [p2]. *)
Definition collinear (p1 p2 b : Point) : Prop :=
  (fst b - fst p2) * (snd p2 - snd p1) = (snd b - snd p2) * (fst p2 - fst p1).

(** The line meets the footprint of some building. *)
Definition crosses_building (E : Env) (line : LineString) : Prop :=
  exists n, building_meets E n line = true.

(** The R-tree of the buildings misses no building that a line meets: two
    geometries that meet have bounding boxes that meet. *)
Definition bindex_sound (E : Env) : Prop :=
  forall n line, building_meets E n line = true -> In n (bindex E (bounds line)).

(** The state after a candidate point [q] was found: the point is appended
    to the coordinate list, and the stored geometry of the row is the
    extended line exactly when that line meets no building; otherwise the
    table is as before. *)
Definition extended (E : Env) (idx : nat) (st st' : State) : Prop :=
  exists q,
    l_coords st' = l_coords st ++ [q] /\
    (crosses_building E (l_coords st') -> network st' = network st) /\
    (~ crosses_building E (l_coords st') ->
     network st' = set_geometry (network st) idx (l_coords st')).

(** The same, row by row: when the extended line meets no building, the
    row [idx] of the table holds it and the table has the rows it had
    everywhere else. *)
Definition stored_unless_building (E : Env) (idx : nat) (st st' : State) : Prop :=
  exists q,
    l_coords st' = l_coords st ++ [q] /\
    (crosses_building E (l_coords st') -> network st' = network st) /\
    (~ crosses_building E (l_coords st') ->
     nth_error (network st') idx = Some (l_coords st') /\
     List.length (network st') = List.length (network st) /\
     forall j, j <> idx -> nth_error (network st') j = nth_error (network st) j).

(** Closed boxes that meet, as rtree decides it. *)
Definition box_meets (b1 b2 : Box) : bool :=
  let '(l1, b1', r1, t1) := b1 in
  let '(l2, b2', r2, t2) := b2 in
  Rleb l1 r2 && Rleb l2 r1 && Rleb b1' t2 && Rleb b2' t1.

(** A network of one street from (0, 0) to (1, 0), with no other street
    to meet: every query made for that row finds the row itself and
    nothing else.  The boundary of the tessellation answers a probe that
    leaves [a] with the point [(3 * fst a - 1, 0)]: (2, 0) beyond the end,
    (-1, 0) beyond the start.  One building has the square footprint
    between (3/2, -1/2) and (5/2, 1/2); the lines of the example lie on
    the horizontal axis, where meeting the square is meeting its box. *)
Definition example_line : LineString := [(0, 0); (1, 0)].
Definition example_network : Network := [example_line].
Definition example_building : Box := (3 / 2, - (1 / 2), 5 / 2, 1 / 2).

Definition example_env : Env :=
  mkEnv (fun _ => [0%nat])
        (fun box => if box_meets box example_building then [0%nat] else [])
        (fun _ _ => GeometryCollection [])
        (fun _ _ => false)
        (fun extrapolation =>
           match extrapolation with
           | a :: _ => GPoint (3 * fst a - 1, 0)
           | [] => GeometryCollection []
           end)
        (fun n line => Nat.eqb n 0 && box_meets (bounds line) example_building).

End Snap.

(** ** [tessellation]: from the spatial join to the clipped cells *)

Module Tessellation.
Local Open Scope Q_scope.
Local Open Scope result_scope.

(** The result of [row.geometry.intersection(built_up)]: a [MultiPolygon]
    with its parts, or a geometry of any other type. *)
Inductive clipped (Geom : Type) : Type :=
| MultiPolygon (parts : list Geom)
| Single (g : Geom).
Arguments MultiPolygon {Geom} parts.
Arguments Single {Geom} g.

(** The operations of geopandas, shapely, rtree and osmnx used from the
    spatial join on, over an abstract type of geometries. *)
Record Env (Geom : Type) : Type := mkEnv {
  (** the predicate of [gpd.sjoin] (default [op='intersects']) *)
  intersects : Geom -> Geom -> bool;
  (** [list(frame.sindex.intersection(g.bounds))] for a frame with the
      given geometry column: positions of rows, in the order of the tree *)
  sindex_query : list Geom -> Geom -> list nat;
  (** [a.intersection(b).length] *)
  intersection_length : Geom -> Geom -> Q;
  (** [g.buffer(0)] *)
  buffer0 : Geom -> Geom;
  (** the union of the geometries of one group in [dissolve] *)
  unary_union : list Geom -> Geom;
  (** [ox.quadrat_cut_geometry(built_up.boundary, quadrat_width=100)] *)
  geometry_cut : list Geom;
  (** [g.intersection(built_up['geometry'].iloc[0])] *)
  intersection_built_up : Geom -> clipped Geom;
  (** [g.area] *)
  area : Geom -> Q
}.
Arguments intersects {Geom} e.
Arguments sindex_query {Geom} e.
Arguments intersection_length {Geom} e.
Arguments buffer0 {Geom} e.
Arguments unary_union {Geom} e.
Arguments geometry_cut {Geom} e.
Arguments intersection_built_up {Geom} e.
Arguments area {Geom} e.

(** Strictly increasing lists. *)
Fixpoint increasing (l : list Z) : Prop :=
  match l with
  | [] => True
  | k :: rest => (forall x, In x rest -> (k < x)%Z) /\ increasing rest
  end.

Section Model.
Context {Geom : Type} (E : Env Geom).

(** A row of [objects] as it reaches the spatial join: the building
    identifier ([None] for NaN) and the MultiPoint made of the vertices of
    the prepared footprint.  Up to there the function rewrites the
    geometry column only (buffer, simplify, densify, [pointize]) and
    repeats the row of a multi-part footprint for each part: the
    identifiers of [objects] are those of the input buildings. *)
Definition object : Type := (option Z * Geom)%type.

(** A row of [voronoi_with_id]: the index label inherited from
    [voronoi_polygons], the cell, and the joined identifier (NaN is
    [None]). *)
Record row : Type := mkRow { label : nat; geometry : Geom; uID : option Z }.

(** [objects.dropna()]. *)
Definition dropna (objects : list object) : list (Z * Geom) :=
  flat_map (fun o => match fst o with Some u => [(u, snd o)] | None => [] end) objects.

(** [gpd.sjoin(voronoi_polygons, objects, how='left')]: one row per
    matching pair, and one row without identifier for a cell that matches
    nothing. *)
Definition sjoin_left (voronoi_polygons : list (nat * Geom)) (objects : list (Z * Geom))
  : list row :=
  flat_map (fun c =>
              match filter (fun o => intersects E (snd c) (snd o)) objects with
              | [] => [mkRow (fst c) (snd c) None]
              | matches => map (fun o => mkRow (fst c) (snd c) (Some (fst o))) matches
              end) voronoi_polygons.

(** [voronoi_with_id[voronoi_with_id[unique_id].isnull()]]. *)
Definition unjoined_of (voronoi_with_id : list row) : list row :=
  filter (fun r => match uID r with None => true | Some _ => false end) voronoi_with_id.

(** [voronoi_with_id.iloc[n][unique_id]] for every neighbour, NaN removed. *)
Fixpoint neighbors_ids (voronoi_with_id : list row) (neighbors : list nat) : result (list Z) :=
  match neighbors with
  | [] => Ok []
  | n :: rest =>
      match nth_error voronoi_with_id n with
      | None => Raise IndexError
      | Some r =>
          ids <- neighbors_ids voronoi_with_id rest ;;
          match uID r with
          | Some u => Ok (u :: ids)
          | None => Ok ids
          end
      end
  end.

(** The inner loop [for s in subset: l = l + ...] over the cells that carry
    the identifier [i]. *)
Definition shared_length (voronoi_with_id : list row) (g : Geom) (i : Z) : Q :=
  let subset :=
    filter (fun r => match uID r with Some u => Z.eqb u i | None => false end)
           voronoi_with_id in
  fold_left (fun l s => l + intersection_length E g (geometry s)) subset 0.

(** [boundaries[i] = l] on a dictionary in insertion order. *)
Fixpoint dict_set {V : Type} (d : list (Z * V)) (k : Z) (v : V) : list (Z * V) :=
  match d with
  | [] => [(k, v)]
  | (k', v') :: rest =>
      if Z.eqb k' k then (k', v) :: rest else (k', v') :: dict_set rest k v
  end.

Definition boundaries_of (voronoi_with_id : list row) (g : Geom) (ids : list Z)
  : list (Z * Q) :=
  fold_left (fun boundaries i => dict_set boundaries i (shared_length voronoi_with_id g i))
            ids [].

(** [max(items, key=operator.itemgetter(1))]: the first item whose value
    no other item exceeds. *)
Fixpoint max_from {K : Type} (best : K * Q) (rest : list (K * Q)) : K * Q :=
  match rest with
  | [] => best
  | it :: rest' =>
      if Qlt_le_dec (snd best) (snd it) then max_from it rest' else max_from best rest'
  end.

Definition max_item {K : Type} (items : list (K * Q)) : result (K * Q) :=
  match items with
  | [] => Raise ValueError
  | it :: rest => Ok (max_from it rest)
  end.

(** [voronoi_with_id.loc[idx, unique_id] = u]. *)
Definition set_uID (voronoi_with_id : list row) (idx : nat) (u : Z) : list row :=
  map (fun r => if Nat.eqb (label r) idx then mkRow (label r) (geometry r) (Some u) else r)
      voronoi_with_id.

(** The body of the loop over the unjoined cells: the identifier chosen
    for the cell [r]. *)
Definition resolve_one (voronoi_with_id : list row) (r : row) : result Z :=
  let neighbors := sindex_query E (map geometry voronoi_with_id) (geometry r) in
  ids <- neighbors_ids voronoi_with_id neighbors ;;
  let boundaries := boundaries_of voronoi_with_id (geometry r) ids in
  best <- max_item boundaries ;;
  Ok (fst best).

Fixpoint resolve (unjoined : list row) (voronoi_with_id : list row) : result (list row) :=
  match unjoined with
  | [] => Ok voronoi_with_id
  | r :: rest =>
      u <- resolve_one voronoi_with_id r ;;
      resolve rest (set_uID voronoi_with_id (label r) u)
  end.

(** The sorted group keys of [dissolve(by=unique_id)]; rows without key
    belong to no group. *)
Fixpoint insert_key (u : Z) (keys : list Z) : list Z :=
  match keys with
  | [] => [u]
  | k :: rest =>
      if Z.ltb u k then u :: keys
      else if Z.eqb u k then keys
      else k :: insert_key u rest
  end.

Definition group_keys (voronoi_with_id : list row) : list Z :=
  fold_right (fun r keys => match uID r with Some u => insert_key u keys | None => keys end)
             [] voronoi_with_id.

(** A row of [voronoi_plots]. *)
Record cell : Type := mkCell { cell_uID : Z; cell_geometry : Geom }.

(** [voronoi_with_id.buffer(0)] then [dissolve(by=unique_id)]. *)
Definition dissolve (voronoi_with_id : list row) : list cell :=
  map (fun u =>
         mkCell u (unary_union E
           (map (fun r => buffer0 E (geometry r))
                (filter (fun r => match uID r with Some v => Z.eqb v u | None => false end)
                        voronoi_with_id))))
      (group_keys voronoi_with_id).

(** Lines 246 to 284: the cells of [voronoi_plots] before clipping. *)
Definition voronoi_plots_of (voronoi_polygons : list (nat * Geom)) (objects : list object)
  : result (list cell) :=
  let objects := dropna objects in
  let voronoi_with_id := sjoin_left voronoi_polygons objects in
  let unjoined := unjoined_of voronoi_with_id in
  voronoi_with_id <- resolve unjoined voronoi_with_id ;;
  Ok (dissolve voronoi_with_id).

(** The rows collected in [to_cut] for one quadrat. *)
Fixpoint precise_matches (voronoi_plots : list cell) (possible : list nat) (poly : Geom)
  : result (list cell) :=
  match possible with
  | [] => Ok []
  | n :: rest =>
      match nth_error voronoi_plots n with
      | None => Raise IndexError
      | Some c =>
          more <- precise_matches voronoi_plots rest poly ;;
          if intersects E (cell_geometry c) poly then Ok (c :: more) else Ok more
      end
  end.

Fixpoint to_cut_of (voronoi_plots : list cell) (quadrats : list Geom) : result (list cell) :=
  match quadrats with
  | [] => Ok []
  | poly :: rest =>
      let possible_matches_index :=
        sindex_query E (map cell_geometry voronoi_plots) poly in
      here <- precise_matches voronoi_plots possible_matches_index poly ;;
      more <- to_cut_of voronoi_plots rest ;;
      Ok (here ++ more)
  end.

(** [drop_duplicates(subset=[unique_id])]: the first row of each
    identifier is kept. *)
Fixpoint drop_duplicates (seen : list Z) (rows : list cell) : list cell :=
  match rows with
  | [] => []
  | c :: rest =>
      if existsb (Z.eqb (cell_uID c)) seen then drop_duplicates seen rest
      else c :: drop_duplicates (cell_uID c :: seen) rest
  end.

(** The geometry stored for one cell of the subselection. *)
Definition cut (g : Geom) : result Geom :=
  match intersection_built_up E g with
  | MultiPolygon parts =>
      let areas := combine (seq 0 (List.length parts)) (map (area E) parts) in
      best <- max_item areas ;;
      let maximal := fst best in
      match nth_error parts maximal with
      | Some part => Ok part
      | None => Raise IndexError
      end
  | Single g' => Ok g'
  end.

(** [voronoi_plots.loc[idx, 'geometry'] = g]. *)
Definition set_cell_geometry (voronoi_plots : list cell) (idx : Z) (g : Geom) : list cell :=
  map (fun c => if Z.eqb (cell_uID c) idx then mkCell (cell_uID c) g else c) voronoi_plots.

Fixpoint cutting (selected : list cell) (voronoi_plots : list cell) : result (list cell) :=
  match selected with
  | [] => Ok voronoi_plots
  | c :: rest =>
      g <- cut (cell_geometry c) ;;
      cutting rest (set_cell_geometry voronoi_plots (cell_uID c) g)
  end.

(** Lines 298 to 324: the clipping of the cells that meet a quadrat of the
    boundary.  [voronoi_plots.loc[subselection]] is taken before the loop. *)
Definition clip (voronoi_plots : list cell) : result (list cell) :=
  to_cut <- to_cut_of voronoi_plots (geometry_cut E) ;;
  let to_cut := drop_duplicates [] to_cut in
  let subselection := map cell_uID to_cut in
  let selected :=
    flat_map (fun u => filter (fun c => Z.eqb (cell_uID c) u) voronoi_plots) subselection in
  cutting selected voronoi_plots.

(** [tessellation] from the spatial join to the cells that are saved. *)
Definition tessellation (voronoi_polygons : list (nat * Geom)) (objects : list object)
  : result (list cell) :=
  voronoi_plots <- voronoi_plots_of voronoi_polygons objects ;;
  clip voronoi_plots.

(** *** Notions used to state the properties *)

(** The identifier [u] is carried by some row of the table. *)
Definition carried (t : list row) (u : Z) : Prop :=
  exists r, In r t /\ uID r = Some u.

(** The identifiers of the neighbours of a cell, in the order of the
    answer of the index. *)
Definition neighbors_ids_of (t : list row) (r : row) : result (list Z) :=
  neighbors_ids t (sindex_query E (map geometry t) (geometry r)).

(** The index over a frame misses no row whose geometry meets the query:
    two geometries that meet have bounding boxes that meet. *)
Definition sindex_sound : Prop :=
  forall geoms poly n g,
    nth_error geoms n = Some g -> intersects E g poly = true ->
    In n (sindex_query E geoms poly).

(** One step of the loop that fills [boundaries], for a length function
    [f]. *)
Definition ins (f : Z -> Q) (d : list (Z * Q)) (i : Z) : list (Z * Q) := dict_set d i (f i).

(** Every value is the one computed for its key. *)
Definition valued (f : Z -> Q) (d : list (Z * Q)) : Prop :=
  forall kv, In kv d -> snd kv = f (fst kv).

End Model.

(** *** An instance: axis-parallel rectangles with integer corners

    A geometry is a closed rectangle [(x0, y0, x1, y1)].  The index
    answers in the order of the rows.  The intersection of two rectangles
    that share a piece of boundary is a segment, whose length is that of
    the piece; otherwise it is a rectangle, whose length is its perimeter. *)
Definition rect : Type := (Z * Z * Z * Z)%type.

Definition rect_meets (a b : rect) : bool :=
  let '(ax0, ay0, ax1, ay1) := a in
  let '(bx0, by0, bx1, by1) := b in
  (ax0 <=? bx1)%Z && (bx0 <=? ax1)%Z && (ay0 <=? by1)%Z && (by0 <=? ay1)%Z.

Definition rect_intersection_length (a b : rect) : Q :=
  let '(ax0, ay0, ax1, ay1) := a in
  let '(bx0, by0, bx1, by1) := b in
  let w := (Z.min ax1 bx1 - Z.max ax0 bx0)%Z in
  let h := (Z.min ay1 by1 - Z.max ay0 by0)%Z in
  if (w <? 0)%Z || (h <? 0)%Z then 0
  else if (w =? 0)%Z then inject_Z h
  else if (h =? 0)%Z then inject_Z w
  else inject_Z (2 * (w + h)).

Definition rect_area (a : rect) : Q :=
  let '(x0, y0, x1, y1) := a in inject_Z ((x1 - x0) * (y1 - y0)).

(** The part of [a] inside [b], when it has an interior. *)
Definition rect_inside (a b : rect) : list rect :=
  let '(ax0, ay0, ax1, ay1) := a in
  let '(bx0, by0, bx1, by1) := b in
  let x0 := Z.max ax0 bx0 in
  let x1 := Z.min ax1 bx1 in
  let y0 := Z.max ay0 by0 in
  let y1 := Z.min ay1 by1 in
  if (x0 <? x1)%Z && (y0 <? y1)%Z then [(x0, y0, x1, y1)] else [].

(** The smallest rectangle around the rectangles of a group. *)
Definition rect_hull (gs : list rect) : rect :=
  match gs with
  | [] => (0, 0, 0, 0)%Z
  | g :: rest =>
      fold_left (fun '(x0, y0, x1, y1) '(a0, b0, a1, b1) =>
                   (Z.min x0 a0, Z.min y0 b0, Z.max x1 a1, Z.max y1 b1))
                rest g
  end.

Fixpoint positions_meeting (k : nat) (geoms : list rect) (g : rect) : list nat :=
  match geoms with
  | [] => []
  | g' :: rest =>
      if rect_meets g' g then k :: positions_meeting (S k) rest g
      else positions_meeting (S k) rest g
  end.

(** The built-up area is given by disjoint rectangles, its boundary by
    the pieces [quadrats]. *)
Definition rect_env (built_up quadrats : list rect) : Env rect :=
  mkEnv rect rect_meets
        (positions_meeting 0)
        rect_intersection_length
        (fun g => g)
        rect_hull
        quadrats
        (fun g =>
           match flat_map (rect_inside g) built_up with
           | [] => Single (0, 0, 0, 0)%Z
           | [part] => Single part
           | parts => MultiPolygon parts
           end)
        rect_area.

(** Three squares of side 10 in a row.  The left one holds the building
    2, the right one the building 1, the middle one holds none and shares
    a side with each of its neighbours. *)
Definition example_polygons : list (nat * rect) :=
  [(0%nat, (0, 0, 10, 10)%Z); (1%nat, (20, 0, 30, 10)%Z); (2%nat, (10, 0, 20, 10)%Z)].

Definition example_objects : list (option Z * rect) :=
  [(Some 2%Z, (4, 4, 6, 6)%Z); (Some 1%Z, (24, 4, 26, 6)%Z)].

(** The built-up area: two strips that leave a gap through the middle of
    every square; its boundary is cut in one quadrat. *)
Definition example_env : Env rect :=
  rect_env [(0, 0, 30, 4)%Z; (0, 5, 30, 10)%Z] [(0, 0, 30, 10)%Z].

End Tessellation.

(** ** Further inputs for the nearest-street search *)

Module StreetEdgesNotions.
Import Plane StreetEdges.
Local Open Scope R_scope.

(** The sub-segment of the street "A" of the example, and one of a
    street "B" from (0, 6) to (10, 6): the centroid (5, 3) is at
    distance 3 of both. *)
Definition street_A : obj := mkObj "A" ((0, 0), (10, 0)) 1.
Definition street_B : obj := mkObj "B" ((0, 6), (10, 6)) 2.

Definition wide : R := 2000000000000.

(** A centroid at the distance [INFTY] from the street "A". *)
Definition limit_point : Point := (5, 1000000000000).

End StreetEdgesNotions.

(** ** Notions used to state further properties of the snapping *)

Module SnapNotions.
Import Plane Snap.

(** [line'] keeps every coordinate of [line], in the same or in the
    reverse order, with one point appended and at most one point put in
    front. *)
Definition extension (line line' : LineString) : Prop :=
  exists pre q,
    (List.length pre <= 1)%nat /\
    (line' = line ++ [q] \/ line' = pre ++ rev line ++ [q]).

(** A building met by a line is met by the same line reversed and
    continued by one point. *)
Definition meets_persists (E : Env) : Prop :=
  forall n l q, building_meets E n l = true -> building_meets E n (rev l ++ [q]) = true.

(** The street of the example run from (1, 0) to (0, 0). *)
Definition reversed_line : LineString := [(1, 0); (0, 0)]%R.

(** A street of two coordinates less than a millimetre apart, alone in
    its network. *)
Definition short_line : LineString := [(0, 0); (1 / 2000, 0)]%R.

End SnapNotions.

(** ** [unique_id], [multi2single] and [blocks] *)

Module Frames.
Local Open Scope result_scope.

(** A row of a frame to be numbered is its index label, its content, and
    the identifier column ([None] before it is set).

    [objects.loc[idx, id_name] = id]: every row labelled [idx]. *)
Definition set_id {A : Type} (objects : list (nat * A * option Z)) (idx : nat) (id : Z)
  : list (nat * A * option Z) :=
  map (fun r => if Nat.eqb (fst (fst r)) idx then (fst r, Some id) else r) objects.

(** The loop [for idx, row in objects.iterrows()] with its counter. *)
Fixpoint unique_id_loop {A : Type} (labels : list nat) (id : Z) (objects : list (nat * A * option Z))
  : list (nat * A * option Z) :=
  match labels with
  | [] => objects
  | idx :: rest => unique_id_loop rest (id + 1) (set_id objects idx id)
  end.

(** [unique_id(objects, clear, keep, id_name)], as its caller sees it: the
    frame with the identifier column filled.  The selection of columns
    that follows works on a local name and is lost, but it raises when
    [keep] is no column, or when there are fewer than two columns to
    select from.  [columns] are the column names once the identifier
    column is there. *)
Definition unique_id {A : Type} (columns : list string) (objects : list (nat * A))
  (clear : bool) (keep : option string) : result (list (nat * A * option Z)) :=
  let objects := map (fun r => (r, @None Z)) objects in
  let objects := unique_id_loop (map (fun r => fst (fst r)) objects) 1 objects in
  if clear then
    match keep with
    | None => if (List.length columns <? 2)%nat then Raise IndexError else Ok objects
    | Some k =>
        if existsb (String.eqb k) columns
        then if (List.length columns <? 2)%nat then Raise IndexError else Ok objects
        else Raise KeyError
    end
  else Ok objects.

(** The same loop on a frame whose index was reset just before (labels
    0, 1, 2, ...), as in [blocks] and [street_edges]: the rows get the
    identifiers [id], [id + 1], ... in their order. *)
Fixpoint number_rows {A : Type} (id : Z) (rows : list A) : list (Z * A) :=
  match rows with
  | [] => []
  | r :: rest => (id, r) :: number_rows (id + 1) rest
  end.

(** The type of a geometry, as [geometry.type] tells it. *)
Inductive shape (Geom : Type) : Type :=
| Polygon (g : Geom)
| MultiPolygon (parts : list Geom)
| OtherShape (g : Geom).
Arguments Polygon {Geom} g.
Arguments MultiPolygon {Geom} parts.
Arguments OtherShape {Geom} g.

(** The rows appended for the multi-part rows, in their order.
    [pd.concat] of an empty list raises [ValueError]. *)
Fixpoint multi_rows {A Geom : Type} (gpdf : list (A * shape Geom)) : result (list (A * Geom)) :=
  match gpdf with
  | [] => Ok []
  | (a, MultiPolygon parts) :: rest =>
      match parts with
      | [] => Raise ValueError
      | _ => more <- multi_rows rest ;; Ok (map (fun g => (a, g)) parts ++ more)
      end
  | _ :: rest => multi_rows rest
  end.

(** [multi2single(gpdf)]: the single polygons first, then the parts of the
    multi-part rows, each with the other columns of its row. *)
Definition multi2single {A Geom : Type} (gpdf : list (A * shape Geom))
  : result (list (A * Geom)) :=
  let gpdf_singlepoly :=
    flat_map (fun r => match snd r with Polygon g => [(fst r, g)] | _ => [] end) gpdf in
  more <- multi_rows gpdf ;;
  Ok (gpdf_singlepoly ++ more).

(** Three rows, the second of which repeats the label of the first. *)
Definition example_frame : list (nat * string) :=
  [(0%nat, "a"%string); (1%nat, "b"%string); (2%nat, "c"%string)].
Definition example_frame_repeated : list (nat * string) :=
  [(0%nat, "a"%string); (0%nat, "b"%string); (2%nat, "c"%string)].

End Frames.

Module Blocks.
Import Frames.
Local Open Scope result_scope.

(** The operations of geopandas and shapely used by [blocks]. *)
Record Env (Geom : Type) : Type := mkEnv {
  (** the union of the geometries of a group in [dissolve] *)
  union : list Geom -> Geom;
  (** [streets.buffer(0.1)] *)
  buffer_street : Geom -> Geom;
  (** [built_up.difference(street_cut)], with its type *)
  difference : Geom -> Geom -> shape Geom;
  (** the type of a geometry *)
  shape_of : Geom -> shape Geom;
  (** [g.centroid] *)
  centroid : Geom -> Geom;
  (** the predicate [op='intersects'] of [gpd.sjoin] *)
  intersects : Geom -> Geom -> bool;
  (** [Polygon(g.exterior)] *)
  exterior_polygon : Geom -> Geom;
  (** [g.buffer(0.000000001)] *)
  buffer_block : Geom -> Geom
}.
Arguments union {Geom} e.
Arguments buffer_street {Geom} e.
Arguments difference {Geom} e.
Arguments shape_of {Geom} e.
Arguments centroid {Geom} e.
Arguments intersects {Geom} e.
Arguments exterior_polygon {Geom} e.
Arguments buffer_block {Geom} e.

Section Model.
Context {Geom : Type} (E : Env Geom).

(** A building or a cell: its [unique_id] and its geometry. *)
Definition feature : Type := (Z * Geom)%type.

(** [gpd.sjoin(buildings_c, blocks, how='inner', op='intersects')] reduced
    to the two columns kept: the identifier of the building and that of
    the block. *)
Definition sjoin_ids (buildings_c : list feature) (blocks : list (Z * Geom)) : list (Z * Z) :=
  flat_map (fun b =>
              flat_map (fun blk => if intersects E (snd b) (snd blk)
                                   then [(fst b, fst blk)] else [])
                       blocks)
           buildings_c.

(** [frame.merge(ids, on=unique_id)]: one row for every pair with the
    identifier of the row. *)
Definition merge (frame : list feature) (ids : list (Z * Z)) : list (feature * Z) :=
  flat_map (fun f =>
              flat_map (fun p => if Z.eqb (fst p) (fst f) then [(f, snd p)] else []) ids)
           frame.

(** The sorted keys of [dissolve(by=id_name)]. *)
Definition block_keys (cells : list (feature * Z)) : list Z :=
  fold_right (fun c keys => Tessellation.insert_key (snd c) keys) [] cells.

(** [cells.dissolve(by=id_name)]: one geometry per key, with its type. *)
Definition dissolve (cells : list (feature * Z)) : list (unit * shape Geom) :=
  map (fun k =>
         (tt, shape_of E
                (union E (map (fun c => snd (fst c))
                              (filter (fun c => Z.eqb (snd c) k) cells)))))
      (block_keys cells).

(** What [blocks] saves: the buildings and the cells with their block
    identifier, and the blocks. *)
Record saved : Type := mkSaved {
  saved_buildings : list (feature * Z);
  saved_cells : list (feature * Z);
  saved_blocks : list (Z * Geom)
}.

(** The first part of [blocks]: the built-up area less the buffered
    streets, in single parts numbered from 1. *)
Definition street_blocks (cells : list feature) (streets : list Geom)
  : result (list (Z * Geom)) :=
  let built_up := union E (map snd cells) in
  let street_buff := map (buffer_street E) streets in
  let street_cut := union E street_buff in
  let street_blocks := difference E built_up street_cut in
  blocks_single <- multi2single [(tt, street_blocks)] ;;
  Ok (number_rows 1 (map snd blocks_single)).

(** [blocks(cells, streets, buildings, ...)].  The second [multi2single]
    resets the index, which drops the column of the block identifiers;
    the loop that numbers the blocks creates it again, unless there is no
    block, and [blocks[[id_name, 'geometry']]] then raises [KeyError]. *)
Definition blocks (cells : list feature) (streets : list Geom) (buildings : list feature)
  : result saved :=
  blocks_single <- street_blocks cells streets ;;
  let buildings_c := map (fun b => (fst b, centroid E (snd b))) buildings in
  let tempID_to_uID := sjoin_ids buildings_c blocks_single in
  let cells_temp := merge cells tempID_to_uID in
  let blocks_diss := dissolve cells_temp in
  let cells := map fst cells_temp in
  blocks_parts <- multi2single blocks_diss ;;
  match blocks_parts with
  | [] => Raise KeyError
  | _ :: _ =>
      let blocks_numbered :=
        number_rows 1 (map (fun b => exterior_polygon E (snd b)) blocks_parts) in
      let blocks_save := map (fun b => (fst b, buffer_block E (snd b))) blocks_numbered in
      let bl_ID_to_uID := sjoin_ids buildings_c blocks_save in
      let buildings := merge buildings bl_ID_to_uID in
      let cells := merge cells bl_ID_to_uID in
      Ok (mkSaved buildings cells blocks_save)
  end.

End Model.

(** An instance on rectangles: the union is the smallest rectangle
    around, buffers change nothing, and the streets, when their union
    stands strictly between the left and the right side of the built-up
    area, cut it in a left and a right part. *)
Definition split_env : Env Tessellation.rect :=
  mkEnv Tessellation.rect
        Tessellation.rect_hull
        (fun g => g)
        (fun built_up street_cut =>
           let '(x0, y0, x1, y1) := built_up in
           let '(sx0, _, sx1, _) := street_cut in
           if ((x0 <? sx0) && (sx1 <? x1))%Z
           then MultiPolygon [(x0, y0, sx0, y1); (sx1, y0, x1, y1)]
           else Polygon built_up)
        (fun g => Polygon g)
        (fun g => let '(x0, y0, x1, y1) := g in
                  (((x0 + x1) / 2)%Z, ((y0 + y1) / 2)%Z, ((x0 + x1) / 2)%Z, ((y0 + y1) / 2)%Z))
        Tessellation.rect_meets
        (fun g => g)
        (fun g => g).

(** Two cells side by side with their buildings, a street between them,
    and a third building far away, without cell. *)
Definition example_cells : list (Z * Tessellation.rect) :=
  [(1%Z, (0, 0, 10, 10)%Z); (2%Z, (10, 0, 20, 10)%Z)].
Definition example_streets : list Tessellation.rect := [(10, 0, 10, 10)%Z].
Definition example_buildings : list (Z * Tessellation.rect) :=
  [(1%Z, (4, 4, 6, 6)%Z); (2%Z, (14, 4, 16, 6)%Z); (3%Z, (50, 50, 52, 52)%Z)].

(** The far building alone: its centroid lies on no block. *)
Definition far_buildings : list (Z * Tessellation.rect) := [(3%Z, (50, 50, 52, 52)%Z)].

End Blocks.

(** ** A second instance for the tessellation *)

Module TessellationNotions.
Import Tessellation.

(** Two squares far apart; only the first holds a building. *)
Definition isolated_polygons : list (nat * rect) :=
  [(0%nat, (0, 0, 10, 10)%Z); (1%nat, (50, 0, 60, 10)%Z)].

Definition isolated_objects : list (option Z * rect) := [(Some 2%Z, (4, 4, 6, 6)%Z)].

(** The built-up area of the example with another cut of its boundary: a
    single piece at the left, which the right square does not meet. *)
Definition corner_env : Env rect :=
  rect_env [(0, 0, 30, 4)%Z; (0, 5, 30, 10)%Z] [(0, 0, 5, 10)%Z].

End TessellationNotions.

(** ** [get_distance] and [getExtrapoledLine] on binary64 floats *)

Module Float64.
Import PrimFloat.
Local Open Scope float_scope.
Local Open Scope result_scope.

(** A Python float is an IEEE 754 binary64 number, rounded to nearest,
    ties to even: the primitive [float] of Rocq. *)
Definition Point : Type := (float * float)%type.
Definition Segment : Type := (Point * Point)%type.

(** [x / y]: [ZeroDivisionError] when [y == 0.0] (of either sign), the
    IEEE quotient otherwise, which may be an infinity or a NaN. *)
Definition fdiv (x y : float) : result float :=
  if y =? 0 then Raise ZeroDivisionError else Ok (x / y).

(** [x ** 2]: the square; [OverflowError] when a finite [x] has a square
    out of range.  A square too small for a float is [0.0], without
    error. *)
Definition pow2 (x : float) : result float :=
  let y := x * x in
  if is_finite x && is_infinity y then Raise OverflowError else Ok y.

(** [math.sqrt(x)]: [ValueError] below zero. *)
Definition msqrt (x : float) : result float :=
  if x <? 0 then Raise ValueError else Ok (sqrt x).

(** [distance(a, b)] of [street_edges]. *)
Definition distance (a b : Point) : result float :=
  sx <- pow2 (fst a - fst b) ;;
  sy <- pow2 (snd a - snd b) ;;
  msqrt (sx + sy).

(** The divisor of [get_distance]:
    [(c[0] - b[0]) ** 2 + (c[1] - b[1]) ** 2]. *)
Definition squared_length (b c : Point) : result float :=
  sx <- pow2 (fst c - fst b) ;;
  sy <- pow2 (snd c - snd b) ;;
  Ok (sx + sy).

(** [get_distance(apoint, segment)].  With [t] a NaN none of the three
    guards holds: the function returns [None], which its caller cannot
    unpack. *)
Definition get_distance (apoint : Point) (segment : Segment) : result (Point * float) :=
  let a := apoint in
  let '(b, c) := segment in
  let t := (fst a - fst b) * (fst c - fst b) + (snd a - snd b) * (snd c - snd b) in
  l2 <- squared_length b c ;;
  t <- fdiv t l2 ;;
  if (0 <? t) && (t <? 1) then
    let pcoords := (t * (fst c - fst b) + fst b, t * (snd c - snd b) + snd b) in
    dmin <- distance a pcoords ;;
    Ok (pcoords, dmin)
  else if t <=? 0 then d <- distance a b ;; Ok (b, d)
  else if 1 <=? t then d <- distance a c ;; Ok (c, d)
  else Raise TypeError.

(** The functions of the C library behind [math.atan], [math.cos] and
    [math.sin]. *)
Record Math : Type := mkMath {
  atan : float -> float;
  cos : float -> float;
  sin : float -> float
}.

(** [math.cos(x)] and [math.sin(x)]: [ValueError] on an infinity. *)
Definition mcos (M : Math) (x : float) : result float :=
  if is_infinity x then Raise ValueError else Ok (cos M x).
Definition msin (M : Math) (x : float) : result float :=
  if is_infinity x then Raise ValueError else Ok (sin M x).

(** The literal [0.000001]: the float nearest to it. *)
Definition offset : float := 0x1.0c6f7a0b5ed8dp-20.

(** The divisor of [getExtrapoledLine]:
    [math.fabs(p1[0] - p2[0] + 0.000001)]. *)
Definition divisor (p1 p2 : Point) : float := abs (fst p1 - fst p2 + offset).

Definition angle (M : Math) (p1 p2 : Point) : result float :=
  q <- fdiv (abs (snd p1 - snd p2 + offset)) (divisor p1 p2) ;;
  Ok (atan M q).

(** [getExtrapoledLine(p1, p2, tolerance)]. *)
Definition getExtrapoledLine (M : Math) (p1 p2 : Point) (tolerance : float)
  : result (list Point) :=
  let EXTRAPOL_RATIO := tolerance in
  let a := p2 in
  b <- (if (fst p2 <=? fst p1) && (snd p2 <=? snd p1) then
          t <- angle M p1 p2 ;; c <- mcos M t ;; s <- msin M t ;;
          Ok (fst p2 - EXTRAPOL_RATIO * c, snd p2 - EXTRAPOL_RATIO * s)
        else if (fst p1 <=? fst p2) && (snd p2 <=? snd p1) then
          t <- angle M p1 p2 ;; c <- mcos M t ;; s <- msin M t ;;
          Ok (fst p2 + EXTRAPOL_RATIO * c, snd p2 - EXTRAPOL_RATIO * s)
        else if (fst p1 <=? fst p2) && (snd p1 <=? snd p2) then
          t <- angle M p1 p2 ;; c <- mcos M t ;; s <- msin M t ;;
          Ok (fst p2 + EXTRAPOL_RATIO * c, snd p2 + EXTRAPOL_RATIO * s)
        else
          t <- angle M p1 p2 ;; c <- mcos M t ;; s <- msin M t ;;
          Ok (fst p2 - EXTRAPOL_RATIO * c, snd p2 + EXTRAPOL_RATIO * s)) ;;
  Ok [a; b].

(** *** Notions and inputs used to state the properties *)

(** Both coordinates are numbers: neither an infinity nor a NaN. *)
Definition finite (p : Point) : Prop :=
  is_finite (fst p) = true /\ is_finite (snd p) = true.

(** The centroid (5, 3) and the street from (0, 0) to (10, 0). *)
Definition example_point : Point := (5, 3).
Definition example_segment : Segment := ((0, 0), (10, 0)).

(** A segment from the origin to [(2 ** -600, 0)], about 2.4e-181 long:
    its two ends differ, its squared length is below the least float. *)
Definition tiny_segment : Segment := ((0, 0), (0x1p-600, 0)).

(** A segment from the origin to [(2 ** 600, 0)], about 4.1e180 long. *)
Definition huge_segment : Segment := ((0, 0), (0x1p600, 0)).

(** The float nearest to [1.000001]. *)
Definition one_and_offset : float := 0x1.000010c6f7a0bp+0.

End Float64.

(** * Properties *)

(** ** The error monad and lists *)

Module ResultFacts.

Lemma bind_ok {A B : Type} (c : result A) (k : A -> result B) (b : B) :
  bind c k = Ok b -> exists a, c = Ok a /\ k a = Ok b.
Proof. destruct c as [a | e]; cbn; [eauto | discriminate]. Qed.

Lemma filter_none {A : Type} (f : A -> bool) (l : list A) :
  (forall x, In x l -> f x = false) -> filter f l = [].
Proof.
  induction l as [| x rest IH]; intros H; [reflexivity |].
  cbn. rewrite (H x (or_introl eq_refl)). apply IH.
  intros y Hy. apply H. right; exact Hy.
Qed.

End ResultFacts.

(** ** Deciding comparisons of reals *)

Module PlaneFacts.
Import Plane.
Local Open Scope R_scope.

Lemma Rleb_true x y : x <= y -> Rleb x y = true.
Proof. intros H; unfold Rleb; destruct (Rle_dec x y); [reflexivity | contradiction]. Qed.

Lemma Rleb_false x y : y < x -> Rleb x y = false.
Proof. intros H; unfold Rleb; destruct (Rle_dec x y); [lra | reflexivity]. Qed.

Lemma Rltb_true x y : x < y -> Rltb x y = true.
Proof. intros H; unfold Rltb; destruct (Rlt_dec x y); [reflexivity | contradiction]. Qed.

Lemma Rltb_false x y : y <= x -> Rltb x y = false.
Proof. intros H; unfold Rltb; destruct (Rlt_dec x y); [lra | reflexivity]. Qed.

Lemma Rgeb_true x y : y <= x -> Rgeb x y = true.
Proof. intros H; unfold Rgeb; destruct (Rge_dec x y); [reflexivity | lra]. Qed.

Lemma Rgeb_false x y : x < y -> Rgeb x y = false.
Proof. intros H; unfold Rgeb; destruct (Rge_dec x y); [lra | reflexivity]. Qed.

Lemma Reqb_true x y : x = y -> Reqb x y = true.
Proof. intros H; unfold Reqb; destruct (Req_dec_T x y); [reflexivity | contradiction]. Qed.

Lemma Reqb_false x y : x <> y -> Reqb x y = false.
Proof. intros H; unfold Reqb; destruct (Req_dec_T x y); [contradiction | reflexivity]. Qed.

Lemma Rleb_le x y : Rleb x y = true <-> x <= y.
Proof. unfold Rleb; destruct (Rle_dec x y); split; intros; try assumption; try reflexivity; try discriminate; contradiction. Qed.

Lemma Rltb_lt x y : Rltb x y = true <-> x < y.
Proof. unfold Rltb; destruct (Rlt_dec x y); split; intros; try assumption; try reflexivity; try discriminate; contradiction. Qed.

Lemma Rgeb_ge x y : Rgeb x y = true <-> y <= x.
Proof. unfold Rgeb; destruct (Rge_dec x y); split; intros; try lra; try reflexivity; try discriminate. Qed.

Lemma Reqb_eq x y : Reqb x y = true <-> x = y.
Proof. unfold Reqb; destruct (Req_dec_T x y); split; intros; try assumption; try reflexivity; try discriminate; contradiction. Qed.

Lemma Point_eqb_eq p q : Point_eqb p q = true <-> p = q.
Proof.
  destruct p as [px py], q as [qx qy]; unfold Point_eqb; simpl.
  rewrite andb_true_iff, !Reqb_eq. split.
  - intros [-> ->]; reflexivity.
  - intros H; inversion H; split; reflexivity.
Qed.



Lemma fdiv_ok x y : y <> 0 -> fdiv x y = Ok (x / y).
Proof. intros H; unfold fdiv; rewrite Reqb_false by assumption; reflexivity. Qed.

Lemma fdiv_zero x : fdiv x 0 = Raise ZeroDivisionError.
Proof. unfold fdiv; rewrite Reqb_true by reflexivity; reflexivity. Qed.


(** A distance is compared with a non-negative bound through squares. *)
Lemma distance_gt a b r :
  0 <= r -> r ^ 2 < (fst a - fst b) ^ 2 + (snd a - snd b) ^ 2 -> r < distance a b.
Proof.
  intros Hr H. unfold distance.
  rewrite <- (sqrt_pow2 r) at 1 by assumption.
  apply sqrt_lt_1; nra.
Qed.

End PlaneFacts.

(** ** Binary64 floats *)

Module Float64Facts.
Import ResultFacts Floats Float64.
Local Open Scope float_scope.
Local Open Scope result_scope.

(** A finite float minus itself is [+0.0]. *)
Lemma sub_diag (x : float) : is_finite x = true -> x - x = 0.
Proof.
  intros Hf. apply Prim2SF_inj. rewrite sub_spec.
  unfold is_finite, is_nan, is_infinity in Hf.
  rewrite !eqb_spec, abs_spec in Hf.
  destruct (Prim2SF x) as [s | s | | s m e] eqn:Ex.
  - destruct s; reflexivity.
  - destruct s; cbn in Hf; discriminate.
  - cbn in Hf. discriminate.
  - clear Hf. change (Prim2SF 0) with (S754_zero false).
    unfold SF64sub, SFsub. cbv zeta. rewrite Z.sub_diag. reflexivity.
Qed.

Lemma squared_length_same (b : Point) : finite b -> squared_length b b = Ok 0.
Proof.
  intros [Hx Hy]. unfold squared_length. rewrite (sub_diag _ Hx), (sub_diag _ Hy).
  reflexivity.
Qed.

Lemma fdiv_raises x y e : fdiv x y = Raise e -> e = ZeroDivisionError /\ is_zero y = true.
Proof.
  unfold fdiv, is_zero, zero. destruct (y =? 0); intros H; [| discriminate].
  inversion H. split; reflexivity.
Qed.

Lemma pow2_raises x e : pow2 x = Raise e -> e = OverflowError.
Proof.
  unfold pow2. destruct (is_finite x && is_infinity (x * x)); intros H; [| discriminate].
  inversion H. reflexivity.
Qed.

Lemma msqrt_raises x e : msqrt x = Raise e -> e = ValueError.
Proof.
  unfold msqrt. destruct (x <? 0); intros H; [| discriminate]. inversion H. reflexivity.
Qed.

Lemma squared_length_raises b c e : squared_length b c = Raise e -> e = OverflowError.
Proof.
  unfold squared_length. intros H.
  destruct (pow2 (fst c - fst b)) as [sx | e1] eqn:E1; [| inversion H; subst; apply (pow2_raises _ _ E1)].
  destruct (pow2 (snd c - snd b)) as [sy | e2] eqn:E2; [| inversion H; subst; apply (pow2_raises _ _ E2)].
  discriminate.
Qed.

Lemma distance_raises a b e : distance a b = Raise e -> e <> ZeroDivisionError.
Proof.
  unfold distance. intros H.
  destruct (pow2 (fst a - fst b)) as [sx | e1] eqn:E1;
    [| inversion H; subst; rewrite (pow2_raises _ _ E1); discriminate].
  destruct (pow2 (snd a - snd b)) as [sy | e2] eqn:E2;
    [| inversion H; subst; rewrite (pow2_raises _ _ E2); discriminate].
  cbn [bind] in H. rewrite (msqrt_raises _ _ H). discriminate.
Qed.

(** The only division of [get_distance] is the one by the squared
    length. *)
Lemma get_distance_zero_divisor (a b c : Point) :
  get_distance a (b, c) = Raise ZeroDivisionError <->
  exists l2, squared_length b c = Ok l2 /\ is_zero l2 = true.
Proof.
  unfold get_distance. split.
  - intros H. destruct (squared_length b c) as [l2 | e] eqn:El.
    + exists l2. split; [reflexivity |]. cbn [bind] in H.
      unfold fdiv, is_zero, zero in *. destruct (l2 =? 0); [reflexivity |]. cbn [bind] in H.
      exfalso. revert H.
      destruct (_ && _).
      * destruct (distance a _) as [d | e] eqn:Ed; cbn [bind]; [discriminate |].
        intros H; inversion H; subst. apply (distance_raises _ _ _ Ed). reflexivity.
      * destruct (_ <=? 0).
        -- destruct (distance a b) as [d | e] eqn:Ed; cbn [bind]; [discriminate |].
           intros H; inversion H; subst. apply (distance_raises _ _ _ Ed). reflexivity.
        -- destruct (1 <=? _); [| discriminate].
           destruct (distance a c) as [d | e] eqn:Ed; cbn [bind]; [discriminate |].
           intros H; inversion H; subst. apply (distance_raises _ _ _ Ed). reflexivity.
    + cbn [bind] in H. inversion H; subst. apply squared_length_raises in El. discriminate.
  - intros (l2 & -> & Hz). cbn [bind]. unfold fdiv. unfold is_zero, zero in Hz. rewrite Hz.
    reflexivity.
Qed.

Lemma get_distance_same (a b : Point) :
  finite b -> get_distance a (b, b) = Raise ZeroDivisionError.
Proof.
  intros Hb. apply get_distance_zero_divisor. exists 0.
  split; [apply squared_length_same, Hb | reflexivity].
Qed.

(** *** The examples *)

(** From (5, 3) the nearest point of the street is (5, 0), at distance 3. *)
Example example_get_distance_float :
  get_distance example_point example_segment = Ok ((5, 0), 3).
Proof. vm_compute. reflexivity. Qed.

(** The squared length of the tiny segment is [0.0]. *)
Example tiny_segment_raises :
  squared_length (fst tiny_segment) (snd tiny_segment) = Ok 0 /\
  get_distance example_point tiny_segment = Raise ZeroDivisionError.
Proof. split; vm_compute; reflexivity. Qed.

(** The squared length of the huge segment is out of range. *)
Example huge_segment_raises :
  get_distance example_point huge_segment = Raise OverflowError.
Proof. vm_compute. reflexivity. Qed.

Lemma tiny_segment_ends_differ : fst tiny_segment <> snd tiny_segment.
Proof.
  intros H. apply (f_equal (fun p : Point => is_zero (fst p))) in H.
  vm_compute in H. discriminate.
Qed.

End Float64Facts.

(** ** Nearest street *)

Module StreetEdgesFacts.
Import ResultFacts Plane PlaneFacts StreetEdges.
Local Open Scope R_scope.
Local Open Scope result_scope.

Lemma squared_length_zero (b c : Point) :
  (fst c - fst b) ^ 2 + (snd c - snd b) ^ 2 = 0 <-> b = c.
Proof.
  destruct b as [bx by_], c as [cx cy]; cbn [fst snd]. split.
  - intros H.
    assert (Hx : 0 <= (cx - bx) ^ 2) by apply pow2_ge_0.
    assert (Hy : 0 <= (cy - by_) ^ 2) by apply pow2_ge_0.
    assert (Hx0 : (cx - bx) ^ 2 = 0) by lra.
    assert (Hy0 : (cy - by_) ^ 2 = 0) by lra.
    rewrite <- Rsqr_pow2 in Hx0, Hy0.
    apply Rsqr_eq_0 in Hx0, Hy0. f_equal; lra.
  - intros H; inversion H; subst. ring.
Qed.

(** What [get_distance] returns on a segment of positive length. *)
Lemma get_distance_cases a b c :
  b <> c ->
  let t := parameter a b c in
  (0 < t < 1 /\
   get_distance a (b, c) =
     Ok ((t * (fst c - fst b) + fst b, t * (snd c - snd b) + snd b),
         distance a (t * (fst c - fst b) + fst b, t * (snd c - snd b) + snd b)))
  \/ (t <= 0 /\ get_distance a (b, c) = Ok (b, distance a b))
  \/ (1 <= t /\ get_distance a (b, c) = Ok (c, distance a c)).
Proof.
  intros Hbc t.
  assert (Hden : (fst c - fst b) ^ 2 + (snd c - snd b) ^ 2 <> 0).
  { intros H; apply Hbc, squared_length_zero, H. }
  unfold get_distance. rewrite fdiv_ok by assumption. cbn [bind].
  fold (parameter a b c). fold t.
  destruct (Rlt_dec 0 t) as [H0 | H0]; destruct (Rlt_dec t 1) as [H1 | H1].
  - left. rewrite !Rltb_true by assumption. cbn. split; [lra | reflexivity].
  - right; right. rewrite Rltb_true, Rltb_false by lra. cbn.
    rewrite Rleb_false, Rleb_true by lra. split; [lra | reflexivity].
  - right; left. rewrite Rltb_false by lra. cbn.
    rewrite Rleb_true by lra. split; [lra | reflexivity].
  - exfalso; lra.
Qed.

Lemma get_distance_ok a b c :
  b <> c -> exists q d, get_distance a (b, c) = Ok (q, d) /\ d = distance a q.
Proof.
  intros H. destruct (get_distance_cases a b c H) as [[_ E] | [[_ E] | [_ E]]];
    rewrite E; eauto.
Qed.

Lemma get_distance_dist_to p h :
  proper h -> exists q, get_distance p (seg h) = Ok (q, dist_to p h).
Proof.
  unfold proper, dist_to. destruct (seg h) as [b c]; cbn [fst snd]. intros H.
  destruct (get_distance_ok p b c H) as (q & d & E & _). rewrite E. eauto.
Qed.


Lemma intersection_ok min_size idx p :
  0 <= min_size ->
  intersection idx (pbox_of min_size p) =
    Ok (map snd (filter (fun it => box_intersects (snd (fst it)) (pbox_of min_size p)) idx)).
Proof.
  intros H. unfold intersection, pbox_of.
  rewrite !Rltb_false by lra. reflexivity.
Qed.










(** C10 (as the code has it).  [get_distance] divides by the squared
    length of the segment.  In real arithmetic: on a segment whose two
    ends coincide it raises [ZeroDivisionError]; when it returns, the two
    ends differ and the point returned is [b + t * (c - b)] for [t]
    strictly between 0 and 1, the end [b] for [t] at most 0 and the end
    [c] for [t] at least 1, a point of the segment, returned with its
    distance to [a].  On floats: it raises [ZeroDivisionError] on every
    segment whose two ends are the same finite point, and in general
    exactly when the squared length it computes is zero, which is a
    condition on the rounded value, not on the ends. *)
Theorem get_distance_defined_iff_proper :
  (forall a b c : Point,
     (b = c -> get_distance a (b, c) = Raise ZeroDivisionError) /\
     (forall q d,
        get_distance a (b, c) = Ok (q, d) ->
        b <> c /\
        d = distance a q /\
        on_segment q b c /\
        (0 < parameter a b c < 1 ->
         q = (parameter a b c * (fst c - fst b) + fst b,
              parameter a b c * (snd c - snd b) + snd b)) /\
        (parameter a b c <= 0 -> q = b) /\
        (1 <= parameter a b c -> q = c))) /\
  (forall a b c : Float64.Point,
     (Float64.finite b -> Float64.get_distance a (b, b) = Raise ZeroDivisionError) /\
     (Float64.get_distance a (b, c) = Raise ZeroDivisionError <->
      exists l2, Float64.squared_length b c = Ok l2 /\ PrimFloat.is_zero l2 = true)).
Proof.
  split.
  - intros a b c.
    assert (Hsame : b = c -> get_distance a (b, c) = Raise ZeroDivisionError).
    { intros <-. unfold get_distance.
      replace ((fst b - fst b) ^ 2 + (snd b - snd b) ^ 2) with 0 by ring.
      rewrite fdiv_zero. reflexivity. }
    split; [exact Hsame |].
    intros q d Hget.
    assert (Hbc : b <> c).
    { intros Heq. rewrite (Hsame Heq) in Hget. discriminate. }
    split; [exact Hbc |].
    destruct (get_distance_cases a b c Hbc) as [[Ht E] | [[Ht E] | [Ht E]]];
      rewrite E in Hget; inversion Hget; subst q d; clear Hget.
    + split; [reflexivity |]. split.
      * exists (parameter a b c). cbn [fst snd]. split; [lra |]. split; ring.
      * split; [reflexivity |]. split; intros; exfalso; lra.
    + split; [reflexivity |]. split.
      * exists 0. split; [lra |]. split; ring.
      * split; [intros; exfalso; lra |]. split; [reflexivity | intros; exfalso; lra].
    + split; [reflexivity |]. split.
      * exists 1. split; [lra |]. split; ring.
      * split; [intros; exfalso; lra |]. split; [intros; exfalso; lra | reflexivity].
  - intros a b c. split.
    + apply Float64Facts.get_distance_same.
    + apply Float64Facts.get_distance_zero_divisor.
Qed.





(** The centroid (5, 3) and the street from (0, 0) to (10, 0): the
    projection is (5, 0), at distance 3, and a half-width of 5 finds it. *)
Example example_get_distance :
  get_distance (5, 3) ((0, 0), (10, 0)) = Ok ((5, 0), 3).
Proof.
  destruct (get_distance_cases (5, 3) (0, 0) (10, 0)) as [[Ht E] | [[Ht E] | [Ht E]]];
    try (unfold parameter in Ht; cbn [fst snd] in Ht).
  - intros H; inversion H; lra.
  - refine (eq_trans E _). unfold parameter; cbn [fst snd].
    f_equal. f_equal; [f_equal; field |].
    unfold distance; cbn [fst snd].
    replace (_ + _) with (3 ^ 2) by field. apply sqrt_pow2; lra.
  - exfalso; lra.
  - exfalso; lra.
Qed.

Example example_solve :
  solve 5 (get_rtree example_streets) (5, 3)
  = Ok (Assigned "A" ((0, 0), (10, 0)) 1).
Proof.
  unfold solve. rewrite intersection_ok by lra. cbn [bind].
  cbn [get_rtree example_streets generate_items pieces app filter map fst snd].
  assert (Hb : box_intersects (Rmin 0 10, Rmin 0 0, Rmax 0 10, Rmax 0 0) (pbox_of 5 (5, 3)) = true).
  { unfold box_intersects, pbox_of; cbn [fst snd].
    rewrite (Rmin_left 0 10), (Rmin_left 0 0), (Rmax_right 0 10), (Rmax_left 0 0) by lra.
    rewrite !Rleb_true by lra. reflexivity. }
  rewrite Hb. cbn [map snd scan seg].
  change (get_distance (5, 3) (0, 0, (10, 0))) with (get_distance (5, 3) ((0, 0), (10, 0))).
  rewrite example_get_distance. cbn [bind].
  rewrite Rgeb_true by (unfold INFTY; lra). reflexivity.
Qed.


(** C10 (as stated) fails on floats: the two ends of the segment from
    (0, 0) to (2 ** -600, 0) differ, and [get_distance] divides by zero
    on it, the square of 2 ** -600 being rounded to zero. *)
Lemma get_distance_undefined_on_distinct_ends :
  fst Float64.tiny_segment <> snd Float64.tiny_segment /\
  Float64.squared_length (fst Float64.tiny_segment) (snd Float64.tiny_segment)
    = Ok PrimFloat.zero /\
  Float64.get_distance Float64.example_point Float64.tiny_segment
    = Raise ZeroDivisionError.
Proof.
  split; [exact Float64Facts.tiny_segment_ends_differ |].
  exact Float64Facts.tiny_segment_raises.
Qed.

Lemma get_distance_defined_iff_proper_witness :
  get_distance (5, 3) ((0, 0), (0, 0)) = Raise ZeroDivisionError /\
  ((0, 0) <> (10, 0) /\
   3 = distance (5, 3) (5, 0) /\
   on_segment (5, 0) (0, 0) (10, 0) /\
   (0 < parameter (5, 3) (0, 0) (10, 0) < 1 ->
    (5, 0) = (parameter (5, 3) (0, 0) (10, 0) * (fst (10, 0) - fst (0, 0)) + fst (0, 0),
              parameter (5, 3) (0, 0) (10, 0) * (snd (10, 0) - snd (0, 0)) + snd (0, 0))) /\
   (parameter (5, 3) (0, 0) (10, 0) <= 0 -> (5, 0) = (0, 0)) /\
   (1 <= parameter (5, 3) (0, 0) (10, 0) -> (5, 0) = (10, 0))) /\
  Float64.get_distance Float64.example_point (snd Float64.example_segment,
                                              snd Float64.example_segment)
    = Raise ZeroDivisionError.
Proof.
  destruct get_distance_defined_iff_proper as [HR HF].
  split; [| split].
  - apply (proj1 (HR (5, 3) (0, 0) (0, 0))). reflexivity.
  - apply (proj2 (HR (5, 3) (0, 0) (10, 0)) (5, 0) 3). exact example_get_distance.
  - apply (proj1 (HF Float64.example_point (snd Float64.example_segment)
                     (snd Float64.example_segment))).
    split; reflexivity.
Defined.

End StreetEdgesFacts.

(** ** Extrapolation *)

Module ExtrapolationFacts.
Import Plane PlaneFacts Snap.
Local Open Scope R_scope.
Local Open Scope result_scope.

Lemma offset_pos : 0 < offset.
Proof. unfold offset; lra. Qed.

(** The cosine and sine of the angle whose tangent is [A / B]. *)
Lemma cos_sin_atan_quotient A B :
  0 <= A -> 0 < B ->
  cos (atan (A / B)) = B / sqrt (A ^ 2 + B ^ 2) /\
  sin (atan (A / B)) = A / sqrt (A ^ 2 + B ^ 2).
Proof.
  intros HA HB.
  assert (Hs : 0 < A ^ 2 + B ^ 2) by nra.
  assert (Hr : 0 < sqrt (A ^ 2 + B ^ 2)) by (apply sqrt_lt_R0; exact Hs).
  assert (E : sqrt (1 + (A / B)²) = sqrt (A ^ 2 + B ^ 2) / B).
  { replace (1 + (A / B)²) with ((A ^ 2 + B ^ 2) / B ^ 2) by (unfold Rsqr; field; lra).
    rewrite sqrt_div by nra. rewrite (sqrt_pow2 B) by lra. reflexivity. }
  rewrite cos_atan, sin_atan, E. split; field; lra.
Qed.

Lemma angle_ok p1 p2 :
  fst p1 - fst p2 + offset <> 0 ->
  angle p1 p2 =
    Ok (atan (Rabs (snd p1 - snd p2 + offset) / Rabs (fst p1 - fst p2 + offset))).
Proof.
  intros H. unfold angle. rewrite fdiv_ok by (apply Rabs_no_R0; exact H). reflexivity.
Qed.

Lemma angle_raises p1 p2 :
  fst p1 - fst p2 + offset = 0 -> angle p1 p2 = Raise ZeroDivisionError.
Proof.
  intros H. unfold angle. rewrite H, Rabs_R0, fdiv_zero. reflexivity.
Qed.

(** The segment returned: it starts at [p2] and its other end is a step
    of length [tolerance] whose two coordinates carry the signs of
    [heading]. *)
Lemma getExtrapoledLine_ok p1 p2 tolerance :
  fst p1 - fst p2 + offset <> 0 ->
  let t := atan (Rabs (snd p1 - snd p2 + offset) / Rabs (fst p1 - fst p2 + offset)) in
  getExtrapoledLine p1 p2 tolerance =
    Ok [p2; (fst p2 + fst (heading p1 p2) * (tolerance * cos t),
             snd p2 + snd (heading p1 p2) * (tolerance * sin t))].
Proof.
  intros H t. unfold getExtrapoledLine, heading. rewrite (angle_ok p1 p2 H). fold t.
  destruct (Rgeb (fst p1) (fst p2) && Rgeb (snd p1) (snd p2));
    [| destruct (Rleb (fst p1) (fst p2) && Rgeb (snd p1) (snd p2));
       [| destruct (Rleb (fst p1) (fst p2) && Rleb (snd p1) (snd p2))]];
    cbn [bind fst snd];
    (apply f_equal; apply f_equal2; [reflexivity |];
     apply f_equal2; [| reflexivity]; apply f_equal2; ring).
Qed.

Lemma heading_sq p1 p2 :
  fst (heading p1 p2) ^ 2 = 1 /\ snd (heading p1 p2) ^ 2 = 1.
Proof.
  unfold heading.
  destruct (_ && _); [cbn; split; ring |].
  destruct (_ && _); [cbn; split; ring |].
  destruct (_ && _); cbn; split; ring.
Qed.

(** C3 (as the code has it).  On two equal points the quotient of the two
    offsets is 1, the angle is a quarter of a half turn, and a segment is
    returned: no exception is raised. *)
Theorem getExtrapoledLine_same_point (p : Point) (tolerance : R) :
  getExtrapoledLine p p tolerance =
    Ok [p; (fst p - tolerance * cos (PI / 4), snd p - tolerance * sin (PI / 4))].
Proof.
  unfold getExtrapoledLine.
  rewrite !Rgeb_true by lra. cbn [andb].
  rewrite angle_ok by (pose proof offset_pos; lra).
  replace (Rabs (snd p - snd p + offset) / Rabs (fst p - fst p + offset)) with 1.
  - rewrite atan_1. reflexivity.
  - replace (snd p - snd p + offset) with offset by ring.
    replace (fst p - fst p + offset) with offset by ring.
    pose proof offset_pos. rewrite Rabs_pos_eq by lra. field; lra.
Qed.

(** C3 (as stated) fails at the point (0, 0) with length 1: a segment is
    returned and nothing is raised. *)
Lemma getExtrapoledLine_same_point_returns :
  (exists b, getExtrapoledLine (0, 0) (0, 0) 1 = Ok [(0, 0); b]) /\
  ~ (exists e, getExtrapoledLine (0, 0) (0, 0) 1 = Raise e).
Proof.
  pose proof (getExtrapoledLine_ok (0, 0) (0, 0) 1) as H. cbn zeta in H.
  rewrite H by (cbn [fst snd]; pose proof offset_pos; lra).
  split; [eexists; reflexivity | intros [e He]; discriminate].
Qed.

(** C2 (as the code has it).  When the offset does not cancel the first
    coordinate difference, the segment returned starts at [p2], has length
    [L], and its step is a positive multiple of the two offset differences
    taken in absolute value and given the signs of the quadrant of
    [p2 - p1]. *)
Theorem getExtrapoledLine_length_and_heading (p1 p2 : Point) (L : R) :
  fst p1 - fst p2 + offset <> 0 ->
  0 < L ->
  let A := Rabs (snd p1 - snd p2 + offset) in
  let B := Rabs (fst p1 - fst p2 + offset) in
  exists b,
    getExtrapoledLine p1 p2 L = Ok [p2; b] /\
    length [p2; b] = L /\
    fst b - fst p2 = L / sqrt (A ^ 2 + B ^ 2) * (fst (heading p1 p2) * B) /\
    snd b - snd p2 = L / sqrt (A ^ 2 + B ^ 2) * (snd (heading p1 p2) * A).
Proof.
  intros Hden HL A B.
  assert (HA : 0 <= A) by apply Rabs_pos.
  assert (HB : 0 < B) by (apply Rabs_pos_lt; exact Hden).
  destruct (cos_sin_atan_quotient A B HA HB) as [Ec Es].
  assert (Hr : 0 < sqrt (A ^ 2 + B ^ 2)) by (apply sqrt_lt_R0; nra).
  pose proof (getExtrapoledLine_ok p1 p2 L Hden) as E. cbn zeta in E.
  fold A B in E. rewrite Ec, Es in E.
  eexists. split; [exact E |].
  destruct (heading_sq p1 p2) as [Hx Hy].
  cbn [length fst snd]. split; [| split; field; lra].
  unfold distance; cbn [fst snd]. rewrite Rplus_0_r.
  rewrite <- (sqrt_pow2 L) at 3 by lra. f_equal.
  set (sx := fst (heading p1 p2)) in *. set (sy := snd (heading p1 p2)) in *.
  set (r := sqrt (A ^ 2 + B ^ 2)) in *.
  assert (Hrr : r ^ 2 = A ^ 2 + B ^ 2) by (unfold r; apply pow2_sqrt; nra).
  transitivity (L ^ 2 * (sx ^ 2 * B ^ 2 + sy ^ 2 * A ^ 2) / r ^ 2); [field; lra |].
  rewrite Hx, Hy, Hrr. field. nra.
Qed.

Lemma getExtrapoledLine_length_and_heading_witness :
  let A := Rabs (snd (0, 0) - snd (3, 4) + offset) in
  let B := Rabs (fst (0, 0) - fst (3, 4) + offset) in
  exists b,
    getExtrapoledLine (0, 0) (3, 4) 2 = Ok [(3, 4); b] /\
    length [(3, 4); b] = 2 /\
    fst b - fst (3, 4) = 2 / sqrt (A ^ 2 + B ^ 2) * (fst (heading (0, 0) (3, 4)) * B) /\
    snd b - snd (3, 4) = 2 / sqrt (A ^ 2 + B ^ 2) * (snd (heading (0, 0) (3, 4)) * A).
Proof.
  apply (getExtrapoledLine_length_and_heading (0, 0) (3, 4) 2).
  - cbn [fst snd]. unfold offset. lra.
  - lra.
Defined.

(** C2 (as stated) fails for [p1 = (0.000001, 0)], [p2 = (0, 0)] and
    length 1: both points lie on the horizontal axis, but the two offset
    differences are in the ratio 1 to 2 and the segment returned goes
    from (0, 0) down to (-2/sqrt 5, -1/sqrt 5). *)
Lemma getExtrapoledLine_not_collinear :
  getExtrapoledLine (offset, 0) (0, 0) 1 = Ok [(0, 0); (- (2 / sqrt 5), - (1 / sqrt 5))] /\
  ~ collinear (offset, 0) (0, 0) (- (2 / sqrt 5), - (1 / sqrt 5)).
Proof.
  pose proof offset_pos as Ho.
  assert (Hr : 0 < sqrt 5) by (apply sqrt_lt_R0; lra).
  split.
  - assert (Hden : fst (offset, 0) - fst (0, 0) + offset <> 0) by (cbn [fst snd]; lra).
    pose proof (getExtrapoledLine_ok (offset, 0) (0, 0) 1 Hden) as E. cbn zeta in E.
    rewrite E. unfold heading. cbn [fst snd].
    rewrite !Rgeb_true by lra. cbn [andb fst snd].
    replace (Rabs (0 - 0 + offset) / Rabs (offset - 0 + offset)) with (1 / 2)
      by (rewrite !Rabs_pos_eq by lra; field; lra).
    destruct (cos_sin_atan_quotient 1 2) as [Ec Es]; [lra | lra |].
    replace (1 ^ 2 + 2 ^ 2) with 5 in Ec, Es by ring.
    rewrite Ec, Es. apply f_equal. apply f_equal2; [reflexivity |].
    apply f_equal2; [| reflexivity]. apply f_equal2; field; lra.
  - unfold collinear. cbn [fst snd]. intros H.
    assert (Hq : 0 < 1 / sqrt 5) by (apply Rdiv_lt_0_compat; lra).
    nra.
Qed.

(** When the offset cancels the first coordinate difference the quotient
    has a zero denominator in every branch. *)
Lemma getExtrapoledLine_raises p1 p2 tolerance :
  fst p1 - fst p2 + offset = 0 ->
  getExtrapoledLine p1 p2 tolerance = Raise ZeroDivisionError.
Proof.
  intros H. unfold getExtrapoledLine. rewrite (angle_raises p1 p2 H).
  destruct (_ && _); [reflexivity |].
  destruct (_ && _); [reflexivity |].
  destruct (_ && _); reflexivity.
Qed.

Example getExtrapoledLine_raises_example :
  getExtrapoledLine (0, 0) (offset, 5) 1 = Raise ZeroDivisionError.
Proof. apply getExtrapoledLine_raises. cbn [fst snd]. ring. Qed.

End ExtrapolationFacts.

(** ** Snapping of dangling ends *)

Module SnapFacts.
Import ResultFacts Plane PlaneFacts Snap ExtrapolationFacts.
Local Open Scope R_scope.
Local Open Scope result_scope.

Lemma through_buildings_iff E line :
  bindex_sound E -> through_buildings E line = true <-> crosses_building E line.
Proof.
  intros Hs. unfold through_buildings, crosses_building. rewrite existsb_exists. split.
  - intros (n & _ & H). exists n. exact H.
  - intros [n H]. exists n. split; [apply Hs |]; exact H.
Qed.

Lemma try_store_extended E idx q st :
  bindex_sound E -> extended E idx st (try_store E idx q st).
Proof.
  intros Hs. exists q. unfold try_store.
  destruct (through_buildings E (l_coords st ++ [q])) eqn:Ht; cbn [l_coords network].
  - split; [reflexivity |]. split; [reflexivity |].
    intros Hn. exfalso. apply Hn, through_buildings_iff; assumption.
  - split; [reflexivity |]. split; [| reflexivity].
    intros Hc. apply through_buildings_iff in Hc; [congruence | assumption].
Qed.

Lemma extend_line_cases E idx tolerance st r st' :
  extend_line E idx tolerance st = Ok (r, st') ->
  (r = ReturnedFalse /\ st' = st) \/
  (r = ReturnedNone /\ exists q, st' = try_store E idx q st).
Proof.
  unfold extend_line. intros H.
  apply bind_ok in H. destruct H as (extrapolation & _ & H).
  apply bind_ok in H. destruct H as (lines & _ & H).
  apply bind_ok in H. destruct H as (clean & _ & H).
  destruct (existsb _ _).
  - apply bind_ok in H. destruct H as (q & _ & H). inversion H; subst.
    right. split; [reflexivity | exists q; reflexivity].
  - inversion H; subst. left. split; reflexivity.
Qed.

Lemma extend_line_edge_cases E idx tolerance st st' :
  extend_line_edge E idx tolerance st = Ok st' ->
  st' = st \/ exists q, st' = try_store E idx q st.
Proof.
  unfold extend_line_edge. intros H.
  apply bind_ok in H. destruct H as (extrapolation & _ & H).
  destruct (negb _).
  - apply bind_ok in H. destruct H as (q & _ & H). inversion H; subst.
    right. exists q; reflexivity.
  - inversion H; subst. left; reflexivity.
Qed.

Lemma try_store_l_coords E idx q st : l_coords (try_store E idx q st) = l_coords st ++ [q].
Proof. unfold try_store. destruct (through_buildings _ _); reflexivity. Qed.

Lemma try_store_changes E idx q st : try_store E idx q st <> st.
Proof.
  intros H. apply (f_equal l_coords) in H. rewrite try_store_l_coords in H.
  apply (f_equal (@List.length Point)) in H. rewrite length_app in H. cbn in H. lia.
Qed.

Lemma set_geometry_length net : forall idx line,
  List.length (set_geometry net idx line) = List.length net.
Proof.
  induction net as [| g rest IH]; intros [| n] line; cbn; try reflexivity.
  f_equal. apply IH.
Qed.

Lemma set_geometry_other net : forall idx j line,
  j <> idx -> nth_error (set_geometry net idx line) j = nth_error net j.
Proof.
  induction net as [| g rest IH]; intros [| n] [| j] line Hne; cbn; try reflexivity.
  - contradiction.
  - apply IH. lia.
Qed.

Lemma set_geometry_same net : forall idx line,
  nth_error (set_geometry net idx line) idx = nth_error net idx \/
  nth_error (set_geometry net idx line) idx = Some line.
Proof.
  induction net as [| g rest IH]; intros [| n] line; cbn; auto.
Qed.

Lemma set_geometry_hit net : forall idx line,
  (idx < List.length net)%nat -> nth_error (set_geometry net idx line) idx = Some line.
Proof.
  induction net as [| g rest IH]; intros [| n] line Hlt; cbn in *; try lia.
  - reflexivity.
  - apply IH. lia.
Qed.

Lemma try_store_stored E idx q st :
  bindex_sound E ->
  (idx < List.length (network st))%nat ->
  stored_unless_building E idx st (try_store E idx q st).
Proof.
  intros Hs Hlt. exists q. unfold try_store.
  destruct (through_buildings E (l_coords st ++ [q])) eqn:Ht; cbn [l_coords network].
  - split; [reflexivity |]. split; [reflexivity |].
    intros Hn. exfalso. apply Hn, through_buildings_iff; assumption.
  - split; [reflexivity |]. split.
    + intros Hc. apply through_buildings_iff in Hc; [congruence | assumption].
    + intros _. split; [apply set_geometry_hit, Hlt |].
      split; [apply set_geometry_length |].
      intros j Hj. apply set_geometry_other, Hj.
Qed.

(** C5.  Whenever [extend_line] (street intersection) or
    [extend_line_edge] (boundary of the tessellation) finds a candidate
    point for the row [idx] of the table, the point is appended to the
    coordinate list and: if the extended line meets no building
    footprint, the row [idx] holds the extended line afterwards and every
    other row is as it was; if it meets one, the whole table is as it
    was.  [extend_line] finds a candidate exactly when it does not return
    [False]; [extend_line_edge] exactly when it changes the state. *)
Theorem extension_stored_iff_clear_of_buildings
  (E : Env) (idx : nat) (tolerance : R) (st : State) :
  bindex_sound E ->
  (idx < List.length (network st))%nat ->
  (forall r st', extend_line E idx tolerance st = Ok (r, st') ->
     match r with
     | ReturnedNone => stored_unless_building E idx st st'
     | ReturnedFalse => st' = st
     end) /\
  (forall st', extend_line_edge E idx tolerance st = Ok st' ->
     st' <> st -> stored_unless_building E idx st st').
Proof.
  intros Hs Hlt. split.
  - intros r st' H.
    destruct (extend_line_cases _ _ _ _ _ _ H) as [[-> ->] | [-> [q ->]]];
      [reflexivity | apply try_store_stored; assumption].
  - intros st' H Hne.
    destruct (extend_line_edge_cases _ _ _ _ _ H) as [-> | [q ->]];
      [contradiction | apply try_store_stored; assumption].
Qed.

(** One call of [extend_line], followed by [extend_line_edge] when it
    returned [False], appends at most one point, after the last
    coordinate. *)
Lemma extend_end_grows E idx ts te st st' :
  extend_end E idx ts te st = Ok st' ->
  l_coords st' = l_coords st \/ exists q, l_coords st' = l_coords st ++ [q].
Proof.
  unfold extend_end. intros H.
  apply bind_ok in H. destruct H as ([r st1] & H1 & H).
  destruct (extend_line_cases _ _ _ _ _ _ H1) as [[-> ->] | [-> [q ->]]].
  - destruct (extend_line_edge_cases _ _ _ _ _ H) as [-> | [q ->]].
    + left; reflexivity.
    + right. exists q. apply try_store_l_coords.
  - inversion H; subst. right. exists q. apply try_store_l_coords.
Qed.

Lemma from_end_last l p : from_end (l ++ [p]) 1 = Ok p.
Proof. unfold from_end. rewrite rev_app_distr. reflexivity. Qed.

Lemma from_end_rev_head p l : from_end (rev (p :: l)) 1 = Ok p.
Proof. unfold from_end. rewrite rev_involutive. reflexivity. Qed.

(** C4 (as the code has it).  For a row whose two ends are free, the first
    extension works on the coordinate list as it is, so that its point is
    appended after the end point; the list is then reversed and the second
    extension works on it, with the point of the first still in it, so
    that its point is appended after the start point. *)
Theorem unconnected_row_end_then_start
  (E : Env) (tolerance_street tolerance_edge : R) (idx : nat)
  (start : Point) (rest : list Point) (network0 : Network) (end_ : Point)
  (network' : Network) :
  let line := start :: rest in
  from_end line 1 = Ok end_ ->
  connected E idx network0 start = Ok false ->
  connected E idx network0 end_ = Ok false ->
  snap_row E tolerance_street tolerance_edge idx line network0 = Ok network' ->
  exists st1 st2,
    extend_end E idx tolerance_street tolerance_edge (mkState line network0) = Ok st1 /\
    (l_coords st1 = line \/ exists q, l_coords st1 = line ++ [q]) /\
    (exists l0, l_coords st1 = l0 ++ [end_] \/ exists q, l_coords st1 = l0 ++ [end_; q]) /\
    extend_end E idx tolerance_street tolerance_edge
      (mkState (rev (l_coords st1)) (network st1)) = Ok st2 /\
    (exists l1, rev (l_coords st1) = l1 ++ [start] /\
       (l_coords st2 = l1 ++ [start] \/ exists q, l_coords st2 = l1 ++ [start; q])) /\
    network' = network st2.
Proof.
  intros line. subst line. intros Hend Hfirst Hsecond Hrow.
  unfold snap_row in Hrow. cbn [bind] in Hrow.
  rewrite Hend in Hrow. cbn [bind] in Hrow.
  rewrite Hfirst, Hsecond in Hrow. cbn [bind] in Hrow.
  apply bind_ok in Hrow. destruct Hrow as (st1 & H1 & Hrow).
  apply bind_ok in Hrow. destruct Hrow as (st2 & H2 & Hrow).
  inversion Hrow; subst network'. clear Hrow.
  exists st1, st2. split; [exact H1 |].
  set (line := start :: rest) in *.
  pose proof (extend_end_grows _ _ _ _ _ _ H1) as G1. cbn [l_coords] in G1.
  pose proof (extend_end_grows _ _ _ _ _ _ H2) as G2. cbn [l_coords reverse] in G2.
  assert (Hline : exists l0, line = l0 ++ [end_]).
  { unfold from_end in Hend. cbn [Nat.sub] in Hend.
    destruct (rev line) as [| e l0'] eqn:Er; [discriminate |].
    cbn in Hend. inversion Hend; subst e.
    exists (rev l0'). rewrite <- (rev_involutive line), Er. reflexivity. }
  destruct Hline as [l0 Hl0].
  split; [exact G1 |]. split.
  { exists l0. destruct G1 as [-> | [q ->]]; [left; exact Hl0 |].
    right. exists q. rewrite Hl0, <- app_assoc. reflexivity. }
  split; [exact H2 |]. split; [| reflexivity].
  assert (Hrev : exists l1, rev (l_coords st1) = l1 ++ [start]).
  { destruct G1 as [-> | [q ->]].
    - exists (rev rest). reflexivity.
    - exists (q :: rev rest). rewrite rev_app_distr. reflexivity. }
  destruct Hrev as [l1 Hl1]. exists l1. split; [exact Hl1 |].
  rewrite Hl1 in G2. destruct G2 as [-> | [q ->]]; [left; reflexivity |].
  right. exists q. rewrite <- app_assoc. reflexivity.
Qed.

(** *** The example: one street, one building *)

Lemma example_bindex_sound : bindex_sound example_env.
Proof.
  intros n line H. cbn in H |- *. apply andb_true_iff in H. destruct H as [Hn Hb].
  apply Nat.eqb_eq in Hn. subst n. rewrite Hb. left; reflexivity.
Qed.

Lemma example_connected p : connected example_env 0 example_network p = Ok false.
Proof. reflexivity. Qed.

Lemma example_through_buildings line :
  through_buildings example_env line = box_meets (bounds line) example_building.
Proof.
  unfold through_buildings. cbn [bindex building_meets example_env].
  destruct (box_meets (bounds line) example_building); reflexivity.
Qed.

(** The probe built on a list that ends with two points far enough apart
    leaves the last of them. *)
Lemma extrapolation_of_last_two l p q tolerance :
  (1 / 1000) ^ 2 < (fst p - fst q) ^ 2 + (snd p - snd q) ^ 2 ->
  fst p - fst q + offset <> 0 ->
  exists b, extrapolation_of (l ++ [p; q]) tolerance = Ok [q; b].
Proof.
  intros Hfar Hden. unfold extrapolation_of, from_end.
  rewrite rev_app_distr. cbn [rev app nth_error Nat.sub bind].
  rewrite Rleb_false by (apply distance_gt; [lra | exact Hfar]).
  pose proof (getExtrapoledLine_ok p q tolerance Hden) as E. cbn zeta in E.
  rewrite E. eexists; reflexivity.
Qed.

Lemma example_extend_end st g a probe :
  network st = [g] ->
  extrapolation_of (l_coords st) 2 = Ok (a :: probe) ->
  extend_end example_env 0 2 2 st = Ok (try_store example_env 0 (3 * fst a - 1, 0) st).
Proof.
  intros Hn Hx. unfold extend_end, extend_line, extend_line_edge.
  rewrite Hx, Hn.
  cbn [bind iloc sindex example_env nth_error drop existsb filter map Nat.eqb negb fst snd
       line_intersection orb].
  rewrite Hx. reflexivity.
Qed.

Ltac decide_reals :=
  unfold box_meets, example_building;
  repeat match goal with
         | |- context [Rmin ?x ?y] =>
             first [rewrite (Rmin_left x y) by lra | rewrite (Rmin_right x y) by lra]
         | |- context [Rmax ?x ?y] =>
             first [rewrite (Rmax_left x y) by lra | rewrite (Rmax_right x y) by lra]
         end;
  repeat match goal with
         | |- context [Rleb ?x ?y] =>
             first [rewrite (Rleb_true x y) by lra | rewrite (Rleb_false x y) by lra]
         end;
  try reflexivity.

Ltac step_extend a probe E :=
  match goal with
  | |- context [extend_end example_env 0 2 2 ?st] =>
      rewrite (example_extend_end st _ a probe eq_refl E)
  end.

(** What the code does on the example: the end is tried first, its point
    (2, 0) is rejected because of the building but stays in the list, so
    that the extension of the start is rejected as well. *)
Lemma example_snap_row :
  snap_row example_env 2 2 0 example_line example_network = Ok example_network.
Proof.
  unfold snap_row, example_line. cbn [bind]. unfold from_end.
  cbn [rev app nth_error Nat.sub bind].
  rewrite !example_connected. cbn [bind].
  destruct (extrapolation_of_last_two [] (0, 0) (1, 0) 2) as [b1 E1];
    [cbn [fst snd]; lra | cbn [fst snd]; unfold offset; lra |].
  cbn [app] in E1.
  step_extend (1, 0) [b1] E1.
  cbn [bind]. unfold try_store at 1. rewrite example_through_buildings.
  cbn [l_coords network app fst].
  replace (box_meets _ example_building) with true
    by (cbn [bounds fold_left point_bounds fst snd]; decide_reals).
  unfold reverse. cbn [l_coords network rev app].
  destruct (extrapolation_of_last_two [(3 * 1 - 1, 0)] (1, 0) (0, 0) 2) as [b2 E2];
    [cbn [fst snd]; lra | cbn [fst snd]; unfold offset; lra |].
  cbn [app] in E2.
  step_extend (0, 0) [b2] E2.
  cbn [bind]. unfold try_store. rewrite example_through_buildings.
  cbn [l_coords network app fst].
  replace (box_meets _ example_building) with true
    by (cbn [bounds fold_left point_bounds fst snd]; decide_reals).
  reflexivity.
Qed.

(** With the start tried first, its point (-1, 0) is stored; the point of
    the end is rejected afterwards. *)
Lemma example_snap_row_start_first :
  snap_row_start_first example_env 2 2 0 example_line example_network
  = Ok [[(1, 0); (0, 0); (-1, 0)]].
Proof.
  unfold snap_row_start_first, example_line.
  unfold reverse at 1. cbn [l_coords network rev app].
  destruct (extrapolation_of_last_two [] (1, 0) (0, 0) 2) as [b1 E1];
    [cbn [fst snd]; lra | cbn [fst snd]; unfold offset; lra |].
  cbn [app] in E1.
  step_extend (0, 0) [b1] E1.
  cbn [bind]. unfold try_store at 1. rewrite example_through_buildings.
  cbn [l_coords network app fst].
  replace (box_meets _ example_building) with false
    by (cbn [bounds fold_left point_bounds fst snd]; decide_reals).
  unfold reverse. cbn [l_coords network rev app example_network set_geometry].
  destruct (extrapolation_of_last_two [(3 * 0 - 1, 0)] (0, 0) (1, 0) 2) as [b2 E2];
    [cbn [fst snd]; lra | cbn [fst snd]; unfold offset; lra |].
  cbn [app] in E2.
  step_extend (1, 0) [b2] E2.
  cbn [bind]. unfold try_store. rewrite example_through_buildings.
  cbn [l_coords network app fst].
  replace (box_meets _ example_building) with true
    by (cbn [bounds fold_left point_bounds fst snd]; decide_reals).
  cbn [network]. replace (3 * 0 - 1) with (-1) by lra. reflexivity.
Qed.

(** C4 (as stated) fails on the example: the table left by the code is
    not the one that the order "start first, end second" leaves. *)
Lemma unconnected_row_not_start_first :
  connected example_env 0 example_network (0, 0) = Ok false /\
  connected example_env 0 example_network (1, 0) = Ok false /\
  snap_row example_env 2 2 0 example_line example_network = Ok [[(0, 0); (1, 0)]] /\
  snap_row_start_first example_env 2 2 0 example_line example_network
    = Ok [[(1, 0); (0, 0); (-1, 0)]] /\
  snap_row example_env 2 2 0 example_line example_network
    <> snap_row_start_first example_env 2 2 0 example_line example_network.
Proof.
  split; [reflexivity |]. split; [reflexivity |].
  split; [exact example_snap_row |]. split; [exact example_snap_row_start_first |].
  rewrite example_snap_row, example_snap_row_start_first. intros H.
  inversion H.
Qed.

(** On the street of the example taken from (1, 0) to (0, 0), no other
    street is met, the boundary of the tessellation gives the point
    (-1, 0), and the extended line, clear of the building, is stored. *)
Lemma example_extend_line_edge :
  extend_line_edge example_env 0 2 (mkState [(1, 0); (0, 0)] example_network)
  = Ok (mkState [(1, 0); (0, 0); (-1, 0)] [[(1, 0); (0, 0); (-1, 0)]]).
Proof.
  unfold extend_line_edge. cbn [l_coords].
  destruct (extrapolation_of_last_two [] (1, 0) (0, 0) 2) as [b1 E1];
    [cbn [fst snd]; lra | cbn [fst snd]; unfold offset; lra |].
  cbn [app] in E1. rewrite E1.
  cbn [bind edge_intersection example_env is_GeometryCollection negb true_points new_point fst].
  unfold try_store. rewrite example_through_buildings.
  cbn [l_coords network app].
  replace (box_meets _ example_building) with false
    by (cbn [bounds fold_left point_bounds fst snd]; decide_reals).
  cbn [example_network set_geometry]. replace (3 * 0 - 1) with (-1) by lra. reflexivity.
Qed.

Lemma example_extension_clear :
  ~ crosses_building example_env [(1, 0); (0, 0); (-1, 0)].
Proof.
  intros [n H]. cbn [building_meets example_env] in H.
  apply andb_true_iff in H. destruct H as [_ H].
  replace (box_meets _ example_building) with false in H
    by (cbn [bounds fold_left point_bounds fst snd]; decide_reals).
  discriminate.
Qed.

Lemma extension_stored_iff_clear_of_buildings_witness :
  let st := mkState [(1, 0); (0, 0)] example_network in
  let st' := mkState [(1, 0); (0, 0); (-1, 0)] [[(1, 0); (0, 0); (-1, 0)]] in
  extend_line_edge example_env 0 2 st = Ok st' /\
  ~ crosses_building example_env (l_coords st') /\
  stored_unless_building example_env 0 st st'.
Proof.
  cbv zeta. split; [exact example_extend_line_edge |].
  split; [exact example_extension_clear |].
  apply (proj2 (extension_stored_iff_clear_of_buildings example_env 0 2
                  (mkState [(1, 0); (0, 0)] example_network)
                  example_bindex_sound (Nat.lt_0_succ 0))).
  - exact example_extend_line_edge.
  - intros H. apply (f_equal l_coords) in H. cbn [l_coords] in H.
    apply (f_equal (@List.length Point)) in H. cbn in H. lia.
Defined.

Lemma unconnected_row_end_then_start_witness :
  let line := [(0, 0); (1, 0)] in
  exists st1 st2,
    extend_end example_env 0 2 2 (mkState line example_network) = Ok st1 /\
    (l_coords st1 = line \/ exists q, l_coords st1 = line ++ [q]) /\
    (exists l0, l_coords st1 = l0 ++ [(1, 0)] \/ exists q, l_coords st1 = l0 ++ [(1, 0); q]) /\
    extend_end example_env 0 2 2 (mkState (rev (l_coords st1)) (network st1)) = Ok st2 /\
    (exists l1, rev (l_coords st1) = l1 ++ [(0, 0)] /\
       (l_coords st2 = l1 ++ [(0, 0)] \/ exists q, l_coords st2 = l1 ++ [(0, 0); q])) /\
    example_network = network st2.
Proof.
  exact (unconnected_row_end_then_start example_env 2 2 0 (0, 0) [(1, 0)]
           example_network (1, 0) example_network
           eq_refl (example_connected (0, 0)) (example_connected (1, 0)) example_snap_row).
Defined.

End SnapFacts.

(** ** Tessellation *)

Module TessellationFacts.
Import ResultFacts Tessellation.
Local Open Scope Q_scope.
Local Open Scope result_scope.

(** *** Group keys *)

Lemma insert_key_In u keys x : In x (insert_key u keys) <-> x = u \/ In x keys.
Proof.
  induction keys as [| k rest IH]; cbn.
  - intuition.
  - destruct (Z.ltb_spec u k); [cbn; intuition |].
    destruct (Z.eqb_spec u k); [subst; cbn; intuition |].
    cbn. rewrite IH. intuition.
Qed.

Lemma increasing_NoDup l : increasing l -> NoDup l.
Proof.
  induction l as [| k rest IH]; cbn; intros H; constructor.
  - intros Hin. destruct H as [H _]. specialize (H k Hin). lia.
  - apply IH, H.
Qed.

Lemma insert_key_increasing u keys : increasing keys -> increasing (insert_key u keys).
Proof.
  induction keys as [| k rest IH]; cbn; intros H.
  - split; [intros x [] | exact I].
  - destruct H as [Hk Hrest].
    destruct (Z.ltb_spec u k).
    + cbn. split; [| split; assumption].
      intros x [<- | Hx]; [assumption | specialize (Hk x Hx); lia].
    + destruct (Z.eqb_spec u k); [cbn; split; assumption |].
      cbn. split; [| apply IH, Hrest].
      intros x Hx. apply insert_key_In in Hx. destruct Hx as [-> | Hx]; [lia | apply Hk, Hx].
Qed.

Section Facts.
Context {Geom : Type} (E : Env Geom).

Local Abbreviation row := (@row Geom).
Local Abbreviation cell := (@cell Geom).

Lemma group_keys_In (t : list row) u : In u (group_keys t) <-> carried t u.
Proof.
  unfold carried. induction t as [| r rest IH]; cbn.
  - split; [intros [] | intros (r & [] & _)].
  - destruct (uID r) as [v |] eqn:Ev.
    + rewrite insert_key_In, IH. split.
      * intros [-> | (r' & Hin & Hu)]; [exists r | exists r']; auto.
      * intros (r' & [<- | Hin] & Hu); [left; congruence | right; exists r'; auto].
    + rewrite IH. split.
      * intros (r' & Hin & Hu); exists r'; auto.
      * intros (r' & [<- | Hin] & Hu); [congruence | exists r'; auto].
Qed.

Lemma group_keys_increasing (t : list row) : increasing (group_keys t).
Proof.
  induction t as [| r rest IH]; cbn; [exact I |].
  destruct (uID r); [apply insert_key_increasing |]; exact IH.
Qed.

Lemma dissolve_uIDs (t : list row) : map cell_uID (dissolve E t) = group_keys t.
Proof. unfold dissolve. rewrite map_map. cbn. apply map_id. Qed.

(** *** The spatial join *)

Lemma dropna_In (objects : list (object (Geom := Geom))) u :
  In u (map fst (dropna objects)) <-> In (Some u) (map fst objects).
Proof.
  unfold dropna. induction objects as [| [[v |] g] rest IH]; cbn.
  - tauto.
  - rewrite IH. split; intros [H | H]; auto; left; congruence.
  - rewrite IH. split; [auto | intros [H | H]; [discriminate | exact H]].
Qed.

Lemma sjoin_left_uID voronoi_polygons objects (r : row) u :
  In r (sjoin_left E voronoi_polygons objects) -> uID r = Some u -> In u (map fst objects).
Proof.
  unfold sjoin_left. rewrite in_flat_map. intros (c & _ & Hr) Hu.
  destruct (filter _ objects) as [| o matches] eqn:Ef.
  - destruct Hr as [<- | []]. discriminate.
  - rewrite <- Ef in Hr. apply in_map_iff in Hr. destruct Hr as (o' & <- & Ho').
    cbn in Hu. inversion Hu; subst u. apply filter_In in Ho'. apply in_map, Ho'.
Qed.

(** *** Choice of an identifier for an unjoined cell *)

Lemma neighbors_ids_carried (t : list row) neighbors : forall ids u,
  neighbors_ids t neighbors = Ok ids -> In u ids -> carried t u.
Proof.
  induction neighbors as [| n rest IH]; cbn; intros ids u H Hin.
  - inversion H; subst. destruct Hin.
  - destruct (nth_error t n) as [r |] eqn:En; [| discriminate].
    apply bind_ok in H. destruct H as (ids' & Hrest & H).
    destruct (uID r) as [v |] eqn:Ev; inversion H; subst; clear H.
    + destruct Hin as [<- | Hin]; [| eapply IH; eauto].
      exists r. split; [eapply nth_error_In; eauto | exact Ev].
    + eapply IH; eauto.
Qed.

Lemma max_from_In {K : Type} (best : K * Q) rest : In (max_from best rest) (best :: rest).
Proof.
  revert best. induction rest as [| it rest IH]; intros best; cbn; [auto |].
  destruct (Qlt_le_dec (snd best) (snd it)).
  - right. apply IH.
  - destruct (IH best) as [H | H]; [left | right; right]; exact H.
Qed.

(** The item chosen by [max]: no item has a larger value, and the items
    before it have a smaller one. *)
Lemma max_from_split {K : Type} (rest : list (K * Q)) : forall best,
  exists pre post,
    best :: rest = pre ++ max_from best rest :: post /\
    (forall x, In x pre -> snd x < snd (max_from best rest)) /\
    (forall x, In x post -> snd x <= snd (max_from best rest)).
Proof.
  induction rest as [| it rest IH]; intros best; cbn [max_from].
  - exists [], []. split; [reflexivity |]. split; intros x [].
  - destruct (Qlt_le_dec (snd best) (snd it)) as [Hlt | Hle].
    + destruct (IH it) as (pre & post & Heq & Hpre & Hpost).
      exists (best :: pre), post. split; [cbn; f_equal; exact Heq |].
      split; [| exact Hpost].
      intros x [<- | Hx]; [| apply Hpre, Hx].
      eapply Qlt_le_trans; [exact Hlt |].
      assert (Hit : In it (pre ++ max_from it rest :: post))
        by (rewrite <- Heq; left; reflexivity).
      apply in_app_or in Hit. destruct Hit as [H | [Hm | H]].
      * apply Qlt_le_weak, Hpre, H.
      * rewrite Hm. apply Qle_refl.
      * apply Hpost, H.
    + destruct (IH best) as (pre & post & Heq & Hpre & Hpost).
      destruct pre as [| b pre'].
      * cbn in Heq. injection Heq as Hb Hr.
        exists [], (it :: post). split; [cbn; rewrite <- Hb, <- Hr; reflexivity |].
        split; [intros x [] |].
        intros x [<- | Hx]; [rewrite <- Hb; exact Hle | apply Hpost, Hx].
      * cbn in Heq. injection Heq as Hb Hr. subst b.
        exists (best :: it :: pre'), post. split; [cbn; rewrite <- Hr; reflexivity |].
        split; [| exact Hpost].
        intros x [<- | [<- | Hx]].
        -- apply Hpre. left; reflexivity.
        -- eapply Qle_lt_trans; [exact Hle | apply Hpre; left; reflexivity].
        -- apply Hpre. right; exact Hx.
Qed.

Lemma max_from_max {K : Type} (best : K * Q) rest x :
  In x (best :: rest) -> snd x <= snd (max_from best rest).
Proof.
  destruct (max_from_split rest best) as (pre & post & Heq & Hpre & Hpost).
  rewrite Heq. intros Hin. apply in_app_or in Hin. destruct Hin as [H | [Hm | H]].
  - apply Qlt_le_weak, Hpre, H.
  - rewrite Hm. apply Qle_refl.
  - apply Hpost, H.
Qed.

(** *** The dictionary [boundaries] *)

Section Boundaries.
Variable f : Z -> Q.

Local Abbreviation ins := (Tessellation.ins f).
Local Abbreviation valued := (Tessellation.valued f).

Lemma ins_known d i : valued d -> In i (map fst d) -> ins d i = d.
Proof.
  unfold ins. induction d as [| [k v] rest IH]; intros Hv Hin; [destruct Hin |].
  cbn. destruct (Z.eqb_spec k i) as [-> | Hne].
  - f_equal. f_equal. symmetry. apply (Hv (i, v)). left; reflexivity.
  - f_equal. apply IH.
    + intros kv Hkv. apply Hv. right; exact Hkv.
    + destruct Hin as [H | H]; [cbn in H; contradiction | exact H].
Qed.

Lemma ins_new d i : ~ In i (map fst d) -> ins d i = d ++ [(i, f i)].
Proof.
  unfold ins. induction d as [| [k v] rest IH]; intros Hn; [reflexivity |].
  cbn. destruct (Z.eqb_spec k i) as [-> | Hne].
  - exfalso. apply Hn. left; reflexivity.
  - f_equal. apply IH. intros H. apply Hn. right; exact H.
Qed.

(** Folding the insertions only appends, keeps the keys distinct, and
    ends with exactly the keys it started with and those inserted. *)
Lemma fold_ins_spec ids : forall d0,
  valued d0 -> NoDup (map fst d0) ->
  exists ext,
    fold_left ins ids d0 = d0 ++ ext /\
    valued (d0 ++ ext) /\
    NoDup (map fst (d0 ++ ext)) /\
    (forall k, In k (map fst (d0 ++ ext)) <-> In k (map fst d0) \/ In k ids).
Proof.
  induction ids as [| i rest IH]; intros d0 Hv Hnd.
  - exists []. rewrite app_nil_r. cbn.
    split; [reflexivity |]. split; [exact Hv |]. split; [exact Hnd |]. tauto.
  - cbn [fold_left].
    destruct (in_dec Z.eq_dec i (map fst d0)) as [Hin | Hout].
    + rewrite (ins_known d0 i Hv Hin).
      destruct (IH d0 Hv Hnd) as (ext & Heq & Hv' & Hnd' & Hk).
      exists ext. split; [exact Heq |]. split; [exact Hv' |]. split; [exact Hnd' |].
      intros k. rewrite Hk. cbn. split; [tauto |].
      intros [H | [<- | H]]; auto.
    + rewrite (ins_new d0 i Hout).
      destruct (IH (d0 ++ [(i, f i)])) as (ext & Heq & Hv' & Hnd' & Hk).
      * intros kv Hkv. apply in_app_or in Hkv. destruct Hkv as [H | [<- | []]];
          [apply Hv, H | reflexivity].
      * rewrite map_app. cbn. apply NoDup_app; [exact Hnd | constructor; [intros [] | constructor] |].
        intros k Hk1 [<- | []]. contradiction.
      * exists ((i, f i) :: ext).
        replace (d0 ++ (i, f i) :: ext) with ((d0 ++ [(i, f i)]) ++ ext)
          by (rewrite <- app_assoc; reflexivity).
        split; [exact Heq |]. split; [exact Hv' |]. split; [exact Hnd' |].
        intros k. rewrite Hk, map_app, in_app_iff. cbn. tauto.
Qed.

(** In a list with distinct keys, a key has one position. *)
Lemma key_position (pre pre' post post' : list (Z * Q)) a a' :
  pre ++ a :: post = pre' ++ a' :: post' ->
  fst a = fst a' ->
  NoDup (map fst (pre ++ a :: post)) ->
  pre = pre'.
Proof.
  revert pre'. induction pre as [| x pre IH]; intros pre' Heq Hk Hnd.
  - destruct pre' as [| y pre']; [reflexivity |].
    cbn in Heq. injection Heq as Hy Hrest. cbn in Hnd.
    apply NoDup_cons_iff in Hnd. destruct Hnd as [Hn _].
    exfalso. apply Hn. rewrite Hrest, map_app, in_app_iff. right. left. symmetry; exact Hk.
  - destruct pre' as [| y pre'].
    + cbn in Heq. injection Heq as Hy Hrest. cbn in Hnd.
      apply NoDup_cons_iff in Hnd. destruct Hnd as [Hn _].
      exfalso. apply Hn. rewrite map_app, in_app_iff. right. left. rewrite Hy. exact Hk.
    + cbn in Heq. injection Heq as Hy Hrest. f_equal; [exact Hy |].
      apply (IH pre' Hrest Hk). cbn in Hnd. apply NoDup_cons_iff in Hnd. apply Hnd.
Qed.

(** The key chosen by [max] among the insertions of [ids]: its value is
    the largest, and it is larger than the value of every identifier met
    before its first occurrence. *)
Lemma max_of_boundaries ids best :
  max_item (fold_left ins ids []) = Ok best ->
  In (fst best) ids /\
  snd best = f (fst best) /\
  (forall i, In i ids -> f i <= f (fst best)) /\
  (forall l1 l2, ids = l1 ++ fst best :: l2 -> ~ In (fst best) l1 ->
     forall i, In i l1 -> f i < f (fst best)).
Proof.
  intros Hmax.
  destruct (fold_ins_spec ids []) as (D & HD & Hv & Hnd & Hk);
    [intros kv [] | constructor |].
  cbn [app] in HD, Hv, Hnd, Hk. rewrite HD in Hmax.
  destruct D as [| b0 rest]; [discriminate |].
  cbn in Hmax. inversion Hmax; subst best; clear Hmax.
  pose proof (max_from_In b0 rest) as Hin.
  set (best := max_from b0 rest) in *.
  assert (Hval : snd best = f (fst best)) by (apply Hv, Hin).
  split; [| split; [exact Hval | split]].
  - assert (H : In (fst best) (map fst (b0 :: rest))) by (apply in_map, Hin).
    apply Hk in H. destruct H as [[] | H]. exact H.
  - intros i Hi.
    assert (H : In i (map fst (b0 :: rest))) by (apply Hk; right; exact Hi).
    apply in_map_iff in H. destruct H as (kv & <- & Hkv).
    rewrite <- Hval, <- (Hv kv Hkv). apply max_from_max, Hkv.
  - intros l1 l2 Hids Hnot i Hi.
    destruct (max_from_split rest b0) as (pre & post & Heq & Hpre & _). fold best in Heq, Hpre.
    destruct (fold_ins_spec l1 []) as (D1 & HD1 & Hv1 & Hnd1 & Hk1);
      [intros kv [] | constructor |].
    cbn [app] in HD1, Hv1, Hnd1, Hk1.
    assert (Hu : ~ In (fst best) (map fst D1)).
    { intros H. apply Hk1 in H. destruct H as [[] | H]. contradiction. }
    destruct (fold_ins_spec l2 (D1 ++ [(fst best, f (fst best))])) as (ext & Hext & _).
    { intros kv Hkv. apply in_app_or in Hkv. destruct Hkv as [H | [<- | []]];
        [apply Hv1, H | reflexivity]. }
    { rewrite map_app. cbn. apply NoDup_app; [exact Hnd1 | constructor; [intros [] | constructor] |].
      intros k Hk' [<- | []]. contradiction. }
    assert (Hwhole : b0 :: rest = D1 ++ (fst best, f (fst best)) :: ext).
    { rewrite <- HD, Hids, fold_left_app. cbn [fold_left].
      rewrite HD1, (ins_new D1 _ Hu), Hext, <- app_assoc. reflexivity. }
    assert (Hsame : pre = D1).
    { apply (key_position pre D1 post ext best (fst best, f (fst best))).
      - rewrite <- Heq. exact Hwhole.
      - reflexivity.
      - rewrite <- Heq. exact Hnd. }
    assert (H : In i (map fst D1)) by (apply Hk1; right; exact Hi).
    apply in_map_iff in H. destruct H as (kv & <- & Hkv).
    rewrite <- Hval, <- (Hv1 kv Hkv). apply Hpre. rewrite Hsame. exact Hkv.
Qed.

End Boundaries.


(** *** Resolution keeps the identifiers among those joined *)

Lemma set_uID_carried (t : list row) idx u v :
  carried (set_uID t idx u) v -> v = u \/ carried t v.
Proof.
  unfold carried, set_uID. intros (r & Hin & Hu).
  apply in_map_iff in Hin. destruct Hin as (r0 & <- & Hin0).
  destruct (Nat.eqb (label r0) idx).
  - cbn in Hu. left. congruence.
  - right. exists r0. auto.
Qed.

Lemma resolve_one_carried (t : list row) r u : resolve_one E t r = Ok u -> carried t u.
Proof.
  unfold resolve_one. intros H.
  apply bind_ok in H. destruct H as (ids & Hids & H).
  apply bind_ok in H. destruct H as (best & Hbest & H).
  inversion H; subst u; clear H.
  eapply neighbors_ids_carried; [exact Hids |].
  apply (max_of_boundaries (shared_length E t (geometry r)) ids best Hbest).
Qed.

Lemma resolve_carried (S : Z -> Prop) unjoined : forall (t t' : list row),
  (forall v, carried t v -> S v) ->
  resolve E unjoined t = Ok t' ->
  forall v, carried t' v -> S v.
Proof.
  induction unjoined as [| r rest IH]; cbn; intros t t' Ht H.
  - inversion H; subst. exact Ht.
  - apply bind_ok in H. destruct H as (u & Hu & H).
    apply (IH (set_uID t (label r) u) t'); [| exact H].
    intros v Hv. destruct (set_uID_carried t (label r) u v Hv) as [-> | Hc].
    + apply Ht. eapply resolve_one_carried, Hu.
    + apply Ht, Hc.
Qed.

(** *** Clipping keeps the identifiers *)

Lemma set_cell_geometry_uIDs (plots : list cell) idx g :
  map cell_uID (set_cell_geometry plots idx g) = map cell_uID plots.
Proof.
  unfold set_cell_geometry. rewrite map_map. apply map_ext.
  intros c. destruct (Z.eqb (cell_uID c) idx); reflexivity.
Qed.

Lemma cutting_uIDs selected : forall (plots plots' : list cell),
  cutting E selected plots = Ok plots' -> map cell_uID plots' = map cell_uID plots.
Proof.
  induction selected as [| c rest IH]; cbn; intros plots plots' H.
  - inversion H; reflexivity.
  - apply bind_ok in H. destruct H as (g & _ & H).
    rewrite (IH _ _ H). apply set_cell_geometry_uIDs.
Qed.

Lemma clip_uIDs (plots plots' : list cell) :
  clip E plots = Ok plots' -> map cell_uID plots' = map cell_uID plots.
Proof.
  unfold clip. intros H. apply bind_ok in H. destruct H as (to_cut & _ & H).
  eapply cutting_uIDs, H.
Qed.

(** C1.  The cells returned carry pairwise distinct identifiers, each of
    them the identifier of a row of [objects], that is of an input
    building; and the identifiers on the cells are exactly those carried
    by the joined and resolved Voronoi polygons: one cell for each
    building that was assigned one. *)
Theorem cells_one_per_assigned_building
  (voronoi_polygons : list (nat * Geom)) (objects : list (object (Geom := Geom)))
  (cells : list cell) :
  tessellation E voronoi_polygons objects = Ok cells ->
  NoDup (map cell_uID cells) /\
  (forall c, In c cells -> In (Some (cell_uID c)) (map fst objects)) /\
  exists voronoi_with_id,
    resolve E (unjoined_of (sjoin_left E voronoi_polygons (dropna objects)))
            (sjoin_left E voronoi_polygons (dropna objects)) = Ok voronoi_with_id /\
    forall u, In u (map cell_uID cells) <-> carried voronoi_with_id u.
Proof.
  unfold tessellation, voronoi_plots_of. intros H.
  apply bind_ok in H. destruct H as (plots & Hplots & Hclip).
  apply bind_ok in Hplots. destruct Hplots as (t & Ht & Hplots).
  inversion Hplots; subst plots; clear Hplots.
  pose proof (clip_uIDs _ _ Hclip) as Hids. rewrite dissolve_uIDs in Hids.
  assert (Hbase : forall v,
             carried (sjoin_left E voronoi_polygons (dropna objects)) v ->
             In v (map fst (dropna objects))).
  { intros v (r & Hr & Hu). eapply sjoin_left_uID; eauto. }
  split; [rewrite Hids; apply increasing_NoDup, group_keys_increasing |].
  split.
  - intros c Hc.
    assert (Hin : In (cell_uID c) (map cell_uID cells)) by (apply in_map, Hc).
    rewrite Hids in Hin. apply group_keys_In in Hin.
    apply dropna_In.
    apply (resolve_carried (fun v => In v (map fst (dropna objects))) _ _ _ Hbase Ht).
    exact Hin.
  - exists t. split; [exact Ht |]. intros u. rewrite Hids. apply group_keys_In.
Qed.

(** *** The cells that are cut *)

Lemma precise_matches_In (plots : list cell) poly possible : forall here n c,
  precise_matches E plots possible poly = Ok here ->
  In n possible -> nth_error plots n = Some c ->
  intersects E (cell_geometry c) poly = true ->
  In c here.
Proof.
  induction possible as [| m rest IH]; cbn; intros here n c H Hn Hc Hi; [destruct Hn |].
  destruct (nth_error plots m) as [c' |] eqn:Em; [| discriminate].
  apply bind_ok in H. destruct H as (more & Hmore & H).
  destruct Hn as [-> | Hn].
  - rewrite Hc in Em. inversion Em; subst c'. rewrite Hi in H.
    inversion H; subst. left; reflexivity.
  - specialize (IH more n c Hmore Hn Hc Hi).
    destruct (intersects E (cell_geometry c') poly); inversion H; subst; [right |]; exact IH.
Qed.

Lemma precise_matches_sub (plots : list cell) poly possible : forall here c,
  precise_matches E plots possible poly = Ok here -> In c here -> In c plots.
Proof.
  induction possible as [| m rest IH]; cbn; intros here c H Hc.
  - inversion H; subst. destruct Hc.
  - destruct (nth_error plots m) as [c' |] eqn:Em; [| discriminate].
    apply bind_ok in H. destruct H as (more & Hmore & H).
    destruct (intersects E (cell_geometry c') poly); inversion H; subst.
    + destruct Hc as [<- | Hc]; [eapply nth_error_In; eauto | eapply IH; eauto].
    + eapply IH; eauto.
Qed.

Lemma to_cut_of_In (plots : list cell) quadrats : forall to_cut poly n c,
  to_cut_of E plots quadrats = Ok to_cut ->
  In poly quadrats ->
  In n (sindex_query E (map cell_geometry plots) poly) ->
  nth_error plots n = Some c ->
  intersects E (cell_geometry c) poly = true ->
  In c to_cut.
Proof.
  induction quadrats as [| q rest IH]; cbn; intros to_cut poly n c H Hp Hn Hc Hi; [destruct Hp |].
  apply bind_ok in H. destruct H as (here & Hhere & H).
  apply bind_ok in H. destruct H as (more & Hmore & H).
  inversion H; subst; clear H. apply in_or_app.
  destruct Hp as [-> | Hp].
  - left. eapply precise_matches_In; eauto.
  - right. eapply IH; eauto.
Qed.

Lemma to_cut_of_sub (plots : list cell) quadrats : forall to_cut c,
  to_cut_of E plots quadrats = Ok to_cut -> In c to_cut -> In c plots.
Proof.
  induction quadrats as [| q rest IH]; cbn; intros to_cut c H Hc.
  - inversion H; subst. destruct Hc.
  - apply bind_ok in H. destruct H as (here & Hhere & H).
    apply bind_ok in H. destruct H as (more & Hmore & H).
    inversion H; subst; clear H. apply in_app_or in Hc. destruct Hc as [Hc | Hc].
    + eapply precise_matches_sub; eauto.
    + eapply IH; eauto.
Qed.

Lemma existsb_eqb_In u seen : existsb (Z.eqb u) seen = true <-> In u seen.
Proof.
  rewrite existsb_exists. split.
  - intros (x & Hx & He). apply Z.eqb_eq in He. subst; exact Hx.
  - intros H. exists u. split; [exact H | apply Z.eqb_refl].
Qed.

Lemma drop_duplicates_spec (rows : list cell) : forall seen,
  (forall c, In c (drop_duplicates seen rows) -> In c rows /\ ~ In (cell_uID c) seen) /\
  NoDup (map cell_uID (drop_duplicates seen rows)) /\
  (forall c, In c rows -> ~ In (cell_uID c) seen ->
     In (cell_uID c) (map cell_uID (drop_duplicates seen rows))).
Proof.
  induction rows as [| c rest IH]; intros seen; cbn.
  - split; [intros c [] |]. split; [constructor | intros c []].
  - destruct (existsb (Z.eqb (cell_uID c)) seen) eqn:Es.
    + apply existsb_eqb_In in Es. destruct (IH seen) as (H1 & H2 & H3).
      split; [intros c' Hc'; destruct (H1 c' Hc'); auto |]. split; [exact H2 |].
      intros c' [<- | Hc'] Hn; [contradiction | apply H3; assumption].
    + assert (Hs : ~ In (cell_uID c) seen).
      { intros H. apply existsb_eqb_In in H. congruence. }
      destruct (IH (cell_uID c :: seen)) as (H1 & H2 & H3).
      split; [| split].
      * intros c' [<- | Hc']; [auto |].
        destruct (H1 c' Hc') as [Ha Hb]. split; [auto |].
        intros H. apply Hb. right; exact H.
      * cbn. constructor; [| exact H2].
        intros H. apply in_map_iff in H. destruct H as (c' & He & Hc').
        destruct (H1 c' Hc') as [_ Hb]. apply Hb. left. symmetry; exact He.
      * intros c' [<- | Hc'] Hn; [left; reflexivity |].
        cbn. destruct (Z.eq_dec (cell_uID c) (cell_uID c')) as [He | Hne]; [left; exact He |].
        right. apply H3; [exact Hc' |]. intros [H | H]; contradiction.
Qed.

Lemma filter_unique (plots : list cell) d :
  NoDup (map cell_uID plots) -> In d plots ->
  filter (fun c => Z.eqb (cell_uID c) (cell_uID d)) plots = [d].
Proof.
  induction plots as [| c rest IH]; cbn; intros Hnd Hin; [destruct Hin |].
  apply NoDup_cons_iff in Hnd. destruct Hnd as [Hn Hnd].
  destruct Hin as [-> | Hin].
  - rewrite Z.eqb_refl. f_equal.
    apply (filter_none _ rest). intros x Hx. apply Z.eqb_neq.
    intros He. apply Hn. rewrite <- He. apply in_map, Hx.
  - destruct (Z.eqb_spec (cell_uID c) (cell_uID d)) as [He | Hne].
    + exfalso. apply Hn. rewrite He. apply in_map, Hin.
    + apply IH; assumption.
Qed.

Lemma selected_is_to_cut (plots dd : list cell) :
  NoDup (map cell_uID plots) -> (forall d, In d dd -> In d plots) ->
  flat_map (fun u => filter (fun c => Z.eqb (cell_uID c) u) plots) (map cell_uID dd) = dd.
Proof.
  intros Hnd. induction dd as [| d rest IH]; intros Hsub; [reflexivity |].
  cbn. rewrite (filter_unique plots d Hnd (Hsub d (or_introl eq_refl))).
  cbn. f_equal. apply IH. intros x Hx. apply Hsub. right; exact Hx.
Qed.

Lemma set_cell_geometry_hit (cur : list cell) c0 g :
  In c0 cur -> In (mkCell (cell_uID c0) g) (set_cell_geometry cur (cell_uID c0) g).
Proof.
  intros H. unfold set_cell_geometry. apply in_map_iff. exists c0.
  rewrite Z.eqb_refl. auto.
Qed.

Lemma set_cell_geometry_miss (cur : list cell) c0 u g :
  In c0 cur -> cell_uID c0 <> u -> In c0 (set_cell_geometry cur u g).
Proof.
  intros H Hne. unfold set_cell_geometry. apply in_map_iff. exists c0.
  destruct (Z.eqb_spec (cell_uID c0) u); [contradiction | auto].
Qed.

(** The loop stores, for every selected cell, the geometry computed by
    [cut] under its identifier, and leaves the other cells alone. *)
Lemma cutting_spec selected : forall (cur plots' : list cell),
  NoDup (map cell_uID selected) ->
  cutting E selected cur = Ok plots' ->
  (forall c, In c selected ->
     exists g', cut E (cell_geometry c) = Ok g' /\
       forall c0, In c0 cur -> cell_uID c0 = cell_uID c ->
         In (mkCell (cell_uID c) g') plots') /\
  (forall c0, In c0 cur -> ~ In (cell_uID c0) (map cell_uID selected) -> In c0 plots').
Proof.
  induction selected as [| c rest IH]; cbn [cutting map]; intros cur plots' Hnd H.
  - inversion H; subst. split; [intros c [] | auto].
  - apply bind_ok in H. destruct H as (g & Hg & H).
    apply NoDup_cons_iff in Hnd. destruct Hnd as [Hn Hnd].
    destruct (IH _ _ Hnd H) as [IH1 IH2]. split.
    + intros c' [<- | Hc'].
      * exists g. split; [exact Hg |]. intros c0 Hc0 He.
        apply IH2; [| exact Hn].
        rewrite <- He. apply set_cell_geometry_hit, Hc0.
      * destruct (IH1 c' Hc') as (g' & Hg' & Hall). exists g'. split; [exact Hg' |].
        intros c0 Hc0 He. apply (Hall c0); [| exact He].
        apply set_cell_geometry_miss; [exact Hc0 |].
        intros Heq. apply Hn. rewrite <- Heq, He. apply in_map, Hc'.
    + intros c0 Hc0 Hout. apply IH2.
      * apply set_cell_geometry_miss; [exact Hc0 |]. intros He. apply Hout. left. symmetry; exact He.
      * intros Hin. apply Hout. right; exact Hin.
Qed.

Lemma In_combine_seq {A : Type} (l : list A) : forall k i a,
  In (i, a) (combine (seq k (List.length l)) l) <->
  (k <= i)%nat /\ nth_error l (i - k) = Some a.
Proof.
  induction l as [| x rest IH]; intros k i a; cbn [List.length seq combine].
  - split; [intros [] | intros [_ H]; destruct (i - k)%nat; discriminate].
  - cbn [In]. rewrite IH. split.
    + intros [H | [Hle H]].
      * inversion H; subst. rewrite Nat.sub_diag. split; [lia | reflexivity].
      * split; [lia |]. replace (i - k)%nat with (S (i - S k)) by lia. exact H.
    + intros [Hle H]. destruct (Nat.eq_dec i k) as [-> | Hne].
      * rewrite Nat.sub_diag in H. cbn in H. left. congruence.
      * right. split; [lia |]. replace (i - k)%nat with (S (i - S k)) in H by lia. exact H.
Qed.

(** What [cut] stores: for a multi-part intersection, one of the parts,
    of the largest area; otherwise the intersection itself. *)
Lemma cut_spec g g' :
  cut E g = Ok g' ->
  match intersection_built_up E g with
  | MultiPolygon parts => In g' parts /\ forall part, In part parts -> area E part <= area E g'
  | Single g0 => g' = g0
  end.
Proof.
  unfold cut. destruct (intersection_built_up E g) as [parts | g0]; [| congruence].
  intros H. apply bind_ok in H. destruct H as (best & Hbest & H).
  destruct (nth_error parts (fst best)) as [part |] eqn:En; inversion H; subst part; clear H.
  split; [eapply nth_error_In; eauto |].
  unfold max_item in Hbest.
  destruct (combine _ _) as [| it rest] eqn:Ec; inversion Hbest; subst best; clear Hbest.
  pose proof (max_from_In it rest) as Hin. rewrite <- Ec in Hin.
  assert (Hlen : List.length parts = List.length (map (area E) parts)) by (symmetry; apply length_map).
  rewrite Hlen in Hin, Ec.
  destruct (max_from it rest) as [i a] eqn:Em. cbn [fst snd] in *.
  apply In_combine_seq in Hin. destruct Hin as [_ Hin]. rewrite Nat.sub_0_r in Hin.
  rewrite nth_error_map, En in Hin. cbn in Hin. inversion Hin; subst a.
  intros part Hpart. apply In_nth_error in Hpart. destruct Hpart as [j Hj].
  assert (Hj' : In (j, area E part) (it :: rest)).
  { rewrite <- Ec. apply In_combine_seq. split; [lia |].
    rewrite Nat.sub_0_r, nth_error_map, Hj. reflexivity. }
  pose proof (max_from_max it rest _ Hj') as Hle. rewrite Em in Hle. exact Hle.
Qed.

(** C7.  Every cell that meets a piece of the quadrat-cut boundary of the
    study area has, among the cells returned, the geometry that is its
    intersection with the study area when that intersection is no
    [MultiPolygon], and otherwise one single part of it, of the largest
    area. *)
Theorem boundary_cells_cut_to_largest_part
  (voronoi_polygons : list (nat * Geom)) (objects : list (object (Geom := Geom)))
  (cells : list cell) :
  sindex_sound E ->
  tessellation E voronoi_polygons objects = Ok cells ->
  exists voronoi_plots,
    voronoi_plots_of E voronoi_polygons objects = Ok voronoi_plots /\
    forall c, In c voronoi_plots ->
      (exists poly, In poly (geometry_cut E) /\ intersects E (cell_geometry c) poly = true) ->
      exists g',
        In (mkCell (cell_uID c) g') cells /\
        match intersection_built_up E (cell_geometry c) with
        | MultiPolygon parts =>
            In g' parts /\ forall part, In part parts -> area E part <= area E g'
        | Single g0 => g' = g0
        end.
Proof.
  intros Hsound H. unfold tessellation in H.
  apply bind_ok in H. destruct H as (plots & Hplots & Hclip).
  exists plots. split; [exact Hplots |].
  assert (Hnd : NoDup (map cell_uID plots)).
  { unfold voronoi_plots_of in Hplots. apply bind_ok in Hplots.
    destruct Hplots as (t & _ & Hp). inversion Hp; subst plots.
    rewrite dissolve_uIDs. apply increasing_NoDup, group_keys_increasing. }
  intros c Hc (poly & Hpoly & Hmeet).
  unfold clip in Hclip. apply bind_ok in Hclip. destruct Hclip as (to_cut & Hto & Hcut).
  destruct (drop_duplicates_spec to_cut []) as (Hd1 & Hd2 & Hd3).
  rewrite selected_is_to_cut in Hcut;
    [| exact Hnd | intros d Hd; eapply to_cut_of_sub; [exact Hto | apply Hd1, Hd]].
  destruct (cutting_spec _ _ _ Hd2 Hcut) as [Hsel _].
  destruct (In_nth_error _ _ Hc) as [n Hn].
  assert (Hin : In c to_cut).
  { eapply to_cut_of_In; eauto. apply (Hsound _ poly n (cell_geometry c)); [| exact Hmeet].
    rewrite nth_error_map, Hn. reflexivity. }
  assert (Hu : In (cell_uID c) (map cell_uID (drop_duplicates [] to_cut))).
  { apply Hd3; [exact Hin | intros []]. }
  apply in_map_iff in Hu. destruct Hu as (d & Hdu & Hd).
  assert (Hdc : d = c).
  { assert (Hdp : In d plots) by (eapply to_cut_of_sub; [exact Hto | apply Hd1, Hd]).
    pose proof (filter_unique plots c Hnd Hc) as Hf.
    assert (Hdf : In d (filter (fun c0 => Z.eqb (cell_uID c0) (cell_uID c)) plots)).
    { apply filter_In. split; [exact Hdp | apply Z.eqb_eq, Hdu]. }
    rewrite Hf in Hdf. destruct Hdf as [<- | []]. reflexivity. }
  subst d. destruct (Hsel c Hd) as (g' & Hg' & Hall).
  exists g'. split; [apply (Hall c Hc eq_refl) | apply cut_spec, Hg'].
Qed.

End Facts.

(** *** The example: three squares in a row *)

Lemma positions_meeting_sound geoms : forall k n g poly,
  nth_error geoms n = Some g -> rect_meets g poly = true ->
  In (k + n)%nat (positions_meeting k geoms poly).
Proof.
  induction geoms as [| g0 rest IH]; intros k n g poly Hn Hm; [destruct n; discriminate |].
  cbn. destruct n as [| n].
  - cbn in Hn. inversion Hn; subst g0. rewrite Hm, Nat.add_0_r. left; reflexivity.
  - cbn in Hn. replace (k + S n)%nat with (S k + n)%nat by lia.
    destruct (rect_meets g0 poly); [right |]; eapply IH; eauto.
Qed.

Lemma rect_env_sound built_up quadrats : sindex_sound (rect_env built_up quadrats).
Proof.
  intros geoms poly n g Hn Hm. apply (positions_meeting_sound geoms 0 n g poly Hn Hm).
Qed.

Example example_join :
  sjoin_left example_env example_polygons (dropna example_objects)
  = [mkRow 0 (0, 0, 10, 10)%Z (Some 2%Z);
     mkRow 1 (20, 0, 30, 10)%Z (Some 1%Z);
     mkRow 2 (10, 0, 20, 10)%Z None].
Proof. reflexivity. Qed.

Example example_tessellation :
  tessellation example_env example_polygons example_objects
  = Ok [mkCell 1%Z (20, 5, 30, 10)%Z; mkCell 2%Z (0, 5, 20, 10)%Z].
Proof. vm_compute. reflexivity. Qed.

Lemma cells_one_per_assigned_building_witness :
  let cells := [mkCell 1%Z (20, 5, 30, 10)%Z; mkCell 2%Z (0, 5, 20, 10)%Z] in
  NoDup (map cell_uID cells) /\
  (forall c, In c cells -> In (Some (cell_uID c)) (map fst example_objects)) /\
  exists voronoi_with_id,
    resolve example_env
      (unjoined_of (sjoin_left example_env example_polygons (dropna example_objects)))
      (sjoin_left example_env example_polygons (dropna example_objects))
    = Ok voronoi_with_id /\
    forall u, In u (map cell_uID cells) <-> carried voronoi_with_id u.
Proof.
  apply (cells_one_per_assigned_building example_env example_polygons example_objects).
  vm_compute. reflexivity.
Defined.



Lemma boundary_cells_cut_to_largest_part_witness :
  let cells := [mkCell 1%Z (20, 5, 30, 10)%Z; mkCell 2%Z (0, 5, 20, 10)%Z] in
  exists voronoi_plots,
    voronoi_plots_of example_env example_polygons example_objects = Ok voronoi_plots /\
    forall c, In c voronoi_plots ->
      (exists poly, In poly (geometry_cut example_env) /\
                    intersects example_env (cell_geometry c) poly = true) ->
      exists g',
        In (mkCell (cell_uID c) g') cells /\
        match intersection_built_up example_env (cell_geometry c) with
        | MultiPolygon parts =>
            In g' parts /\ forall part, In part parts -> area example_env part <= area example_env g'
        | Single g0 => g' = g0
        end.
Proof.
  apply (boundary_cells_cut_to_largest_part example_env example_polygons example_objects).
  - apply rect_env_sound.
  - vm_compute. reflexivity.
Defined.

(** On the example the cell of building 2 is cut in two strips by the
    study area; the upper one, of area 100, is kept, the lower one, of
    area 80, is not. *)
Example example_cut :
  intersection_built_up example_env (0, 0, 20, 10)%Z
    = MultiPolygon [(0, 0, 20, 4)%Z; (0, 5, 20, 10)%Z] /\
  cut example_env (0, 0, 20, 10)%Z = Ok (0, 5, 20, 10)%Z.
Proof. split; vm_compute; reflexivity. Qed.

End TessellationFacts.

(** * Further properties *)

(** ** Nearest street: projection, ties, exactness *)

Module StreetEdgesMore.
Import ResultFacts Plane PlaneFacts StreetEdges StreetEdgesNotions StreetEdgesFacts.
Local Open Scope R_scope.
Local Open Scope result_scope.

Lemma distance_le_of_squares a q x :
  (fst a - fst q) ^ 2 + (snd a - snd q) ^ 2 <= (fst a - fst x) ^ 2 + (snd a - snd x) ^ 2 ->
  distance a q <= distance a x.
Proof. intros H. unfold distance. apply sqrt_le_1_alt, H. Qed.

(** The distance returned by [get_distance] is the least distance from
    [a] to a point of the segment. *)
Theorem get_distance_least (a b c q x : Point) (d : R) :
  b <> c ->
  get_distance a (b, c) = Ok (q, d) ->
  on_segment x b c ->
  d <= distance a x.
Proof.
  intros Hbc Hget (s & Hs & Hx & Hy).
  assert (HL : (fst c - fst b) ^ 2 + (snd c - snd b) ^ 2 <> 0).
  { intros H. apply Hbc, squared_length_zero, H. }
  assert (HLpos : 0 < (fst c - fst b) ^ 2 + (snd c - snd b) ^ 2).
  { pose proof (pow2_ge_0 (fst c - fst b)). pose proof (pow2_ge_0 (snd c - snd b)). lra. }
  pose proof (eq_refl (parameter a b c)) as Ht. unfold parameter at 2 in Ht.
  set (t := parameter a b c) in *.
  set (L2 := (fst c - fst b) ^ 2 + (snd c - snd b) ^ 2) in *.
  assert (HN : (fst a - fst b) * (fst c - fst b) + (snd a - snd b) * (snd c - snd b) = t * L2).
  { rewrite Ht. field. exact HL. }
  clear Ht.
  assert (Hsq : (fst a - fst x) ^ 2 + (snd a - snd x) ^ 2 =
                (fst a - fst b) ^ 2 + (snd a - snd b) ^ 2 - 2 * s * (t * L2) + s ^ 2 * L2).
  { rewrite <- HN, Hx, Hy. unfold L2. ring. }
  destruct (get_distance_cases a b c Hbc) as [[Hc E] | [[Hc E] | [Hc E]]];
    fold t in Hc, E; rewrite E in Hget; inversion Hget; subst q d; clear Hget;
    apply distance_le_of_squares; rewrite Hsq; cbn [fst snd].
  - replace ((fst a - (t * (fst c - fst b) + fst b)) ^ 2 +
             (snd a - (t * (snd c - snd b) + snd b)) ^ 2)
      with ((fst a - fst b) ^ 2 + (snd a - snd b) ^ 2 - 2 * t * (t * L2) + t ^ 2 * L2)
      by (rewrite <- HN; unfold L2; ring).
    assert (0 <= L2 * (s - t) ^ 2) by (apply Rmult_le_pos; [lra | apply pow2_ge_0]).
    nra.
  - assert (0 <= s * (- t) * L2) by (repeat apply Rmult_le_pos; lra).
    assert (0 <= s ^ 2 * L2) by (apply Rmult_le_pos; [apply pow2_ge_0 | lra]).
    nra.
  - replace ((fst a - fst c) ^ 2 + (snd a - snd c) ^ 2)
      with ((fst a - fst b) ^ 2 + (snd a - snd b) ^ 2 - 2 * (t * L2) + L2)
      by (rewrite <- HN; unfold L2; ring).
    assert (0 <= (1 - s) * (2 * t - 1 - s) * L2).
    { repeat apply Rmult_le_pos; lra. }
    nra.
Qed.

(** What the loop over the hits leaves: either nothing was at most the
    starting value, or the segment kept is the last one among those at
    the least distance. *)
Lemma scan_choice p hits : forall d s,
  (forall h, In h hits -> proper h) ->
  exists d' s',
    scan p hits d s = Ok (d', s') /\
    ((d' = d /\ s' = s /\ forall x, In x hits -> d < dist_to p x) \/
     (exists l1 h l2,
        hits = l1 ++ h :: l2 /\ s' = Some h /\ d' = dist_to p h /\
        dist_to p h <= d /\
        (forall x, In x l1 -> dist_to p h <= dist_to p x) /\
        (forall x, In x l2 -> dist_to p h < dist_to p x))).
Proof.
  induction hits as [| h rest IH]; intros d s Hp.
  - exists d, s. split; [reflexivity |]. left. repeat split. intros x [].
  - destruct (get_distance_dist_to p h) as [q Eq]; [apply Hp; left; reflexivity |].
    cbn [scan]. rewrite Eq. cbn [bind].
    assert (Hrest : forall h0, In h0 rest -> proper h0) by (intros; apply Hp; right; assumption).
    destruct (Rge_dec d (dist_to p h)) as [Hge | Hlt].
    + rewrite Rgeb_true by lra.
      destruct (IH (dist_to p h) (Some h) Hrest) as (d' & s' & E & Hcase).
      exists d', s'. split; [exact E |]. right.
      destruct Hcase as [(-> & -> & Hall) | (l1 & h' & l2 & -> & -> & -> & Hle & H1 & H2)].
      * exists [], h, rest. repeat split; try lra; [intros x [] | exact Hall].
      * exists (h :: l1), h', l2. repeat split; try lra; [| exact H2].
        intros x [<- | Hx]; [exact Hle | apply H1, Hx].
    + rewrite Rgeb_false by lra.
      destruct (IH d s Hrest) as (d' & s' & E & Hcase).
      exists d', s'. split; [exact E |].
      destruct Hcase as [(-> & -> & Hall) | (l1 & h' & l2 & -> & -> & -> & Hle & H1 & H2)].
      * left. repeat split. intros x [<- | Hx]; [lra | apply Hall, Hx].
      * right. exists (h :: l1), h', l2. repeat split; try lra; [| exact H2].
        intros x [<- | Hx]; [lra | apply H1, Hx].
Qed.

(** Whatever the order in which the index gives the hits, the loop of
    [get_solution] over them, started with [d = INFTY] and [s = None],
    keeps the last one, in that order, among the hits at the least
    distance: the comparison [d >= new_d] lets a later hit at the same
    distance replace an earlier one. *)
Theorem scan_keeps_last_nearest (p : Point) (hits : list obj) (d : R) (h : obj) :
  (forall x, In x hits -> proper x) ->
  scan p hits INFTY None = Ok (d, Some h) ->
  exists l1 l2,
    hits = l1 ++ h :: l2 /\
    d = dist_to p h /\
    d <= INFTY /\
    (forall x, In x l1 -> dist_to p h <= dist_to p x) /\
    (forall x, In x l2 -> dist_to p h < dist_to p x).
Proof.
  intros Hp Hscan.
  destruct (scan_choice p hits INFTY None Hp) as (d' & s' & Es & Hcase).
  rewrite Es in Hscan. inversion Hscan; subst d' s'; clear Hscan.
  destruct Hcase as [(_ & Habs & _) | (l1 & h' & l2 & Hhits & Hs & Hd & Hle & H1 & H2)];
    [discriminate |].
  inversion Hs; subst h'; clear Hs.
  exists l1, l2. split; [exact Hhits |]. split; [exact Hd |].
  split; [rewrite Hd; exact Hle |]. split; assumption.
Qed.


(** *** Numbering and boxes of the sub-segments *)

Lemma pieces_step lid nid a b c d tl k :
  pieces lid nid ((a, b) :: (c, d) :: tl) k
  = (k, (Rmin a c, Rmin b d, Rmax a c, Rmax b d), mkObj lid ((a, b), (c, d)) nid)
    :: pieces lid nid ((c, d) :: tl) (S k).
Proof. reflexivity. Qed.

Lemma pieces_ids lid nid l : forall k,
  map (fun it : item => fst (fst it)) (pieces lid nid l k) = seq k (List.length l - 1).
Proof.
  induction l as [| [a b] tl IH]; intros k; [reflexivity |].
  destruct tl as [| [c d] tl']; [reflexivity |].
  rewrite pieces_step. cbn [map fst]. rewrite IH. cbn [List.length Nat.sub seq].
  rewrite Nat.sub_0_r. reflexivity.
Qed.

Lemma generate_items_ids lines : forall k,
  map (fun it : item => fst (fst it)) (generate_items lines k)
  = seq k (list_sum (map (fun st : street => (List.length (snd st) - 1)%nat) lines)).
Proof.
  induction lines as [| [[lid nid] l] rest IH]; intros k; [reflexivity |].
  cbn [generate_items map snd].
  rewrite map_app, pieces_ids, IH. unfold list_sum. cbn [fold_right].
  rewrite seq_app. f_equal. f_equal. f_equal.
  rewrite <- (length_map (fun it : item => fst (fst it))), pieces_ids, length_seq.
  reflexivity.
Qed.

(** The items given to the R-tree are numbered 0, 1, 2, ... without gap
    across the streets, and a street of [n] coordinates gives [n - 1] of
    them (none when it has fewer than two). *)
Theorem get_rtree_numbering (lines : list street) :
  map (fun it : item => fst (fst it)) (get_rtree lines)
  = seq 0 (list_sum (map (fun st : street => (List.length (snd st) - 1)%nat) lines)).
Proof. apply generate_items_ids. Qed.










(** *** The dictionary of solutions *)

Lemma dict_set_keys_new d p v :
  ~ In p (map fst d) -> map fst (dict_set d p v) = map fst d ++ [p].
Proof.
  induction d as [| [q w] rest IH]; intros Hn; [reflexivity |].
  cbn. destruct (Point_eqb q p) eqn:E.
  - apply Point_eqb_eq in E. exfalso. apply Hn. left. exact E.
  - cbn. f_equal. apply IH. intros H. apply Hn. right. exact H.
Qed.

Lemma get_solution_loop_keys min_size idx points : forall res0 res,
  NoDup (map fst res0 ++ points) ->
  get_solution_loop min_size idx points res0 = Ok res ->
  map fst res = map fst res0 ++ points.
Proof.
  induction points as [| p rest IH]; intros res0 res Hnd H.
  - inversion H; subst. rewrite app_nil_r. reflexivity.
  - cbn [get_solution_loop] in H. apply bind_ok in H. destruct H as (v & _ & H).
    assert (Hn : ~ In p (map fst res0)).
    { apply NoDup_remove_2 in Hnd. intros Hin. apply Hnd, in_or_app. left; exact Hin. }
    rewrite (IH _ _) with (2 := H); rewrite (dict_set_keys_new res0 p v Hn).
    + rewrite <- app_assoc. reflexivity.
    + rewrite <- app_assoc. exact Hnd.
Qed.

(** When the centroids are pairwise distinct, the dictionary returned has
    one entry per centroid, in the order of the centroids: the row number
    of an entry is the row number of its building, which is what the join
    on [idx] that follows in [street_edges] relies on. *)
Theorem get_solution_keys_in_order
  (min_size : R) (idx : list item) (points : list Point) (res : list (Point * solution)) :
  NoDup points ->
  get_solution min_size idx points = Ok res ->
  map fst res = points.
Proof.
  intros Hnd H. apply (get_solution_loop_keys min_size idx points [] res Hnd H).
Qed.

(** *** The example *)

Lemma get_distance_least_witness : 3 <= distance (5, 3) (2, 0).
Proof.
  apply (get_distance_least (5, 3) (0, 0) (10, 0) (5, 0) (2, 0) 3).
  - intros H. inversion H. lra.
  - exact example_get_distance.
  - exists (1 / 5). cbn [fst snd]. split; [lra |]. split; field.
Defined.

Lemma example_get_distance_B :
  get_distance (5, 3) ((0, 6), (10, 6)) = Ok ((5, 6), 3).
Proof.
  destruct (get_distance_cases (5, 3) (0, 6) (10, 6)) as [[Ht E] | [[Ht E] | [Ht E]]];
    try (unfold parameter in Ht; cbn [fst snd] in Ht).
  - intros H; inversion H; lra.
  - refine (eq_trans E _). unfold parameter; cbn [fst snd].
    f_equal. f_equal; [f_equal; field |].
    unfold distance; cbn [fst snd].
    replace (_ + _) with (3 ^ 2) by field. apply sqrt_pow2; lra.
  - exfalso; lra.
  - exfalso; lra.
Qed.

(** The two streets are at the same distance of the centroid: the one
    that comes last among the hits is kept, whichever it is. *)
Lemma example_scan_tie :
  scan (5, 3) [street_A; street_B] INFTY None = Ok (3, Some street_B) /\
  scan (5, 3) [street_B; street_A] INFTY None = Ok (3, Some street_A).
Proof.
  unfold street_A, street_B. cbn [scan seg].
  change (get_distance (5, 3) (0, 0, (10, 0))) with (get_distance (5, 3) ((0, 0), (10, 0))).
  change (get_distance (5, 3) (0, 6, (10, 6))) with (get_distance (5, 3) ((0, 6), (10, 6))).
  rewrite example_get_distance, example_get_distance_B. cbn [bind].
  rewrite (Rgeb_true INFTY 3) by (unfold INFTY; lra).
  rewrite (Rgeb_true 3 3) by lra. split; reflexivity.
Qed.

Lemma tied_streets_proper : forall x, In x [street_A; street_B] -> proper x.
Proof.
  intros x [<- | [<- | []]]; unfold proper; cbn; intros H; inversion H; lra.
Qed.

Lemma scan_keeps_last_nearest_witness :
  exists l1 l2,
    [street_A; street_B] = l1 ++ street_B :: l2 /\
    3 = dist_to (5, 3) street_B /\
    3 <= INFTY /\
    (forall x, In x l1 -> dist_to (5, 3) street_B <= dist_to (5, 3) x) /\
    (forall x, In x l2 -> dist_to (5, 3) street_B < dist_to (5, 3) x).
Proof.
  apply (scan_keeps_last_nearest (5, 3) [street_A; street_B] 3 street_B).
  - exact tied_streets_proper.
  - exact (proj1 example_scan_tie).
Defined.

Lemma example_no_hit :
  intersection (get_rtree example_streets) (pbox_of 1 (5, 3)) = Ok [].
Proof.
  rewrite intersection_ok by lra. f_equal.
  cbn [get_rtree example_streets generate_items pieces app filter fst snd].
  assert (Hb : box_intersects (Rmin 0 10, Rmin 0 0, Rmax 0 10, Rmax 0 0) (pbox_of 1 (5, 3)) = false).
  { unfold box_intersects, pbox_of. cbn [fst snd].
    rewrite (Rmax_left 0 0) by lra. rewrite (Rleb_false (3 - 1) 0) by lra.
    rewrite !andb_false_r. reflexivity. }
  rewrite Hb. reflexivity.
Qed.





(** A street at the distance [INFTY] exactly is kept. *)
Lemma example_limit_hit :
  solve wide (get_rtree example_streets) limit_point
  = Ok (Assigned "A" ((0, 0), (10, 0)) 1).
Proof.
  assert (Hd : get_distance (5, 1000000000000) ((0, 0), (10, 0))
               = Ok ((5, 0), 1000000000000)).
  { destruct (get_distance_cases (5, 1000000000000) (0, 0) (10, 0))
      as [[Ht E] | [[Ht E] | [Ht E]]];
      try (unfold parameter in Ht; cbn [fst snd] in Ht).
    - intros H; inversion H; lra.
    - refine (eq_trans E _). unfold parameter; cbn [fst snd].
      f_equal. f_equal; [f_equal; field |].
      unfold distance; cbn [fst snd].
      replace (_ + _) with (1000000000000 ^ 2) by field. apply sqrt_pow2; lra.
    - exfalso; lra.
    - exfalso; lra. }
  unfold solve. rewrite intersection_ok by (unfold wide; lra). cbn [bind].
  cbn [get_rtree example_streets generate_items pieces app filter map fst snd].
  assert (Hb : box_intersects (Rmin 0 10, Rmin 0 0, Rmax 0 10, Rmax 0 0)
                 (pbox_of wide limit_point) = true).
  { unfold box_intersects, pbox_of, wide, limit_point; cbn [fst snd].
    rewrite (Rmin_left 0 10), (Rmin_left 0 0), (Rmax_right 0 10), (Rmax_left 0 0) by lra.
    rewrite !Rleb_true by lra. reflexivity. }
  rewrite Hb. unfold limit_point. cbn [map snd scan seg].
  change (get_distance (5, 1000000000000) (0, 0, (10, 0)))
    with (get_distance (5, 1000000000000) ((0, 0), (10, 0))).
  rewrite Hd. cbn [bind].
  rewrite Rgeb_true by (unfold INFTY; lra). reflexivity.
Qed.

Lemma example_get_solution :
  get_solution 5 (get_rtree example_streets) example_points
  = Ok [((5, 3), Assigned "A" ((0, 0), (10, 0)) 1)].
Proof.
  unfold get_solution, example_points. cbn [get_solution_loop].
  rewrite example_solve. reflexivity.
Qed.

Lemma get_solution_keys_in_order_witness :
  map fst [((5, 3), Assigned "A" ((0, 0), (10, 0)) 1)] = example_points.
Proof.
  apply (get_solution_keys_in_order 5 (get_rtree example_streets) example_points).
  - unfold example_points. constructor; [intros [] | constructor].
  - exact example_get_solution.
Defined.

End StreetEdgesMore.

(** ** Snapping: what is touched, what is stored, what aborts *)

Module SnapMore.
Import ResultFacts Plane PlaneFacts Snap SnapNotions ExtrapolationFacts SnapFacts.
Local Open Scope R_scope.
Local Open Scope result_scope.

Lemma distance_sym (p q : Point) : distance p q = distance q p.
Proof. unfold distance. f_equal. ring. Qed.

(** On a list of exactly two coordinates at most 0.001 apart, the slice
    [l_coords[-3:-1]] has one element and the call of [getExtrapoledLine]
    lacks an argument. *)
Lemma extrapolation_of_short p q tolerance :
  distance p q <= 1 / 1000 -> extrapolation_of [p; q] tolerance = Raise TypeError.
Proof.
  intros H. unfold extrapolation_of, from_end. cbn [rev app nth_error Nat.sub bind].
  rewrite Rleb_true by exact H. reflexivity.
Qed.

Lemma extend_end_short E idx ts te p q net :
  distance p q <= 1 / 1000 ->
  extend_end E idx ts te (mkState [p; q] net) = Raise TypeError.
Proof.
  intros H. unfold extend_end, extend_line. cbn [l_coords].
  rewrite (extrapolation_of_short p q ts H). reflexivity.
Qed.

(** A street made of two coordinates at most 0.001 apart, with an end
    that touches no other street, aborts the snapping with [TypeError]. *)
Theorem snap_row_short_line_raises
  (E : Env) (tolerance_street tolerance_edge : R) (idx : nat) (p q : Point)
  (network0 : Network) (first second : bool) :
  distance p q <= 1 / 1000 ->
  connected E idx network0 p = Ok first ->
  connected E idx network0 q = Ok second ->
  first && second = false ->
  snap_row E tolerance_street tolerance_edge idx [p; q] network0 = Raise TypeError.
Proof.
  intros Hd Hf Hs Hb. unfold snap_row, from_end. cbn [rev app nth_error Nat.sub bind].
  rewrite Hf, Hs. cbn [bind].
  assert (Hd' : distance q p <= 1 / 1000) by (rewrite distance_sym; exact Hd).
  destruct first, second; try discriminate.
  - rewrite (extend_end_short E idx _ _ p q network0 Hd). reflexivity.
  - unfold reverse. cbn [l_coords network rev app].
    rewrite (extend_end_short E idx _ _ q p network0 Hd'). reflexivity.
  - rewrite (extend_end_short E idx _ _ p q network0 Hd). reflexivity.
Qed.

Lemma snap_row_short_line_raises_witness :
  snap_row example_env 2 2 0 short_line [short_line] = Raise TypeError.
Proof.
  apply (snap_row_short_line_raises example_env 2 2 0 (0, 0) (1 / 2000, 0)
           [short_line] false false).
  - unfold distance. cbn [fst snd].
    replace ((0 - 1 / 2000) ^ 2 + (0 - 0) ^ 2) with ((1 / 2000) ^ 2) by field.
    rewrite sqrt_pow2 by lra. lra.
  - reflexivity.
  - reflexivity.
  - reflexivity.
Defined.

(** *** The point chosen among the intersections *)

Lemma nearest_from_spec target rest : forall best,
  In (nearest_from target best rest) (best :: rest) /\
  forall x, In x (best :: rest) ->
    distance (nearest_from target best rest) target <= distance x target.
Proof.
  induction rest as [| p rest IH]; intros best; cbn [nearest_from].
  - split; [left; reflexivity |]. intros x [<- | []]. lra.
  - destruct (Rlt_dec (distance p target) (distance best target)) as [Hlt | Hge].
    + rewrite Rltb_true by exact Hlt. destruct (IH p) as [Hin Hmin]. split.
      * right. exact Hin.
      * intros x [<- | Hx]; [| apply Hmin, Hx].
        pose proof (Hmin p (or_introl eq_refl)). lra.
    + rewrite Rltb_false by lra. destruct (IH best) as [Hin Hmin]. split.
      * destruct Hin as [Hin | Hin]; [left | right; right]; exact Hin.
      * intros x [<- | [<- | Hx]].
        -- apply Hmin. left; reflexivity.
        -- pose proof (Hmin best (or_introl eq_refl)). lra.
        -- apply Hmin. right; exact Hx.
Qed.

(** The point appended to a street is one of the intersection points
    collected, and none of them is nearer to the end being extended. *)
Theorem new_point_is_nearest (true_int l_coords : list Point) (last q : Point) :
  from_end l_coords 1 = Ok last ->
  new_point true_int l_coords = Ok q ->
  In q true_int /\ forall x, In x true_int -> distance q last <= distance x last.
Proof.
  intros Hlast H. unfold new_point in H.
  destruct true_int as [| p [| p' rest]]; [discriminate | |].
  - inversion H; subst. split; [left; reflexivity |]. intros x [<- | []]. lra.
  - rewrite Hlast in H. cbn [bind] in H. injection H as <-.
    apply (nearest_from_spec last (p' :: rest) p).
Qed.

Lemma new_point_is_nearest_witness :
  In (2, 0) [(5, 0); (2, 0); (3, 0)] /\
  forall x, In x [(5, 0); (2, 0); (3, 0)] -> distance (2, 0) (1, 0) <= distance x (1, 0).
Proof.
  apply (new_point_is_nearest [(5, 0); (2, 0); (3, 0)] [(0, 0); (1, 0)] (1, 0) (2, 0)).
  - reflexivity.
  - unfold new_point, from_end. cbn [rev app nth_error Nat.sub bind nearest_from].
    assert (H5 : distance (5, 0) (1, 0) = 4).
    { unfold distance; cbn [fst snd]. replace ((5 - 1) ^ 2 + (0 - 0) ^ 2) with (4 ^ 2) by ring.
      apply sqrt_pow2; lra. }
    assert (H2 : distance (2, 0) (1, 0) = 1).
    { unfold distance; cbn [fst snd]. replace ((2 - 1) ^ 2 + (0 - 0) ^ 2) with (1 ^ 2) by ring.
      apply sqrt_pow2; lra. }
    assert (H3 : distance (3, 0) (1, 0) = 2).
    { unfold distance; cbn [fst snd]. replace ((3 - 1) ^ 2 + (0 - 0) ^ 2) with (2 ^ 2) by ring.
      apply sqrt_pow2; lra. }
    rewrite H5, H2, H3. rewrite (Rltb_true 1 4) by lra. rewrite (Rltb_false 2 1) by lra.
    reflexivity.
Defined.

(** *** Which rows change, and how *)

(** What one call of [extend_line], followed by [extend_line_edge] when
    it returned [False], does to the state. *)
Lemma extend_end_cases E idx ts te st st' :
  extend_end E idx ts te st = Ok st' ->
  st' = st \/ exists q, st' = try_store E idx q st.
Proof.
  unfold extend_end. intros H.
  apply bind_ok in H. destruct H as ([r st1] & H1 & H).
  destruct (extend_line_cases _ _ _ _ _ _ H1) as [[-> ->] | [-> [q ->]]].
  - apply extend_line_edge_cases in H. exact H.
  - inversion H; subst. right. exists q. reflexivity.
Qed.

Lemma try_store_network E idx q st :
  network (try_store E idx q st) = network st \/
  network (try_store E idx q st) = set_geometry (network st) idx (l_coords st ++ [q]).
Proof. unfold try_store. destruct (through_buildings _ _); cbn; auto. Qed.

Lemma extend_end_network E idx ts te st st' :
  extend_end E idx ts te st = Ok st' ->
  network st' = network st \/
  exists q, network st' = set_geometry (network st) idx (l_coords st ++ [q]) /\
            l_coords st' = l_coords st ++ [q].
Proof.
  intros H. destruct (extend_end_cases _ _ _ _ _ _ H) as [-> | [q ->]]; [left; reflexivity |].
  destruct (try_store_network E idx q st) as [Hn | Hn]; [left; exact Hn |].
  right. exists q. split; [exact Hn | apply try_store_l_coords].
Qed.

(** Processing a row leaves the number of rows and every other row as
    they were. *)
Lemma snap_row_touches_only_its_row
  (E : Env) (tolerance_street tolerance_edge : R) (idx : nat) (line : LineString)
  (network0 network' : Network) :
  snap_row E tolerance_street tolerance_edge idx line network0 = Ok network' ->
  List.length network' = List.length network0 /\
  forall j, j <> idx -> nth_error network' j = nth_error network0 j.
Proof.
  assert (Hstage : forall st st', extend_end E idx tolerance_street tolerance_edge st = Ok st' ->
            List.length (network st') = List.length (network st) /\
            forall j, j <> idx -> nth_error (network st') j = nth_error (network st) j).
  { intros st st' H. destruct (extend_end_network _ _ _ _ _ _ H) as [-> | (q & -> & _)].
    - split; reflexivity.
    - split; [apply set_geometry_length | intros j Hj; apply set_geometry_other, Hj]. }
  unfold snap_row. intros H.
  apply bind_ok in H. destruct H as (start & _ & H).
  apply bind_ok in H. destruct H as (end_ & _ & H).
  apply bind_ok in H. destruct H as (first & _ & H).
  apply bind_ok in H. destruct H as (second & _ & H).
  destruct first, second.
  - inversion H; subst. split; reflexivity.
  - apply bind_ok in H. destruct H as (st1 & H1 & H). inversion H; subst.
    apply (Hstage _ _ H1).
  - apply bind_ok in H. destruct H as (st1 & H1 & H). inversion H; subst.
    apply (Hstage _ _ H1).
  - apply bind_ok in H. destruct H as (st1 & H1 & H).
    apply bind_ok in H. destruct H as (st2 & H2 & H). inversion H; subst.
    destruct (Hstage _ _ H1) as [L1 O1]. destruct (Hstage _ _ H2) as [L2 O2].
    cbn [network reverse] in *. split; [congruence |].
    intros j Hj. rewrite (O2 j Hj). apply O1, Hj.
Qed.

(** The geometry stored for a row is the old one, or the coordinates of
    the street, all of them, in their order or reversed, with one point
    appended and at most one point in front. *)
Lemma snap_row_stores_an_extension
  (E : Env) (tolerance_street tolerance_edge : R) (idx : nat) (line : LineString)
  (network0 network' : Network) :
  snap_row E tolerance_street tolerance_edge idx line network0 = Ok network' ->
  nth_error network' idx = nth_error network0 idx \/
  exists line', nth_error network' idx = Some line' /\ extension line line'.
Proof.
  unfold snap_row. intros H.
  apply bind_ok in H. destruct H as (start & _ & H).
  apply bind_ok in H. destruct H as (end_ & _ & H).
  apply bind_ok in H. destruct H as (first & _ & H).
  apply bind_ok in H. destruct H as (second & _ & H).
  destruct first, second.
  - inversion H; subst. left; reflexivity.
  - apply bind_ok in H. destruct H as (st1 & H1 & H). inversion H; subst.
    destruct (extend_end_network _ _ _ _ _ _ H1) as [-> | (q & -> & _)]; [left; reflexivity |].
    cbn [network l_coords].
    destruct (set_geometry_same network0 idx (line ++ [q])) as [Hs | Hs]; [left; exact Hs |].
    right. exists (line ++ [q]). split; [exact Hs |].
    exists [], q. split; [cbn; lia | left; reflexivity].
  - apply bind_ok in H. destruct H as (st1 & H1 & H). inversion H; subst.
    destruct (extend_end_network _ _ _ _ _ _ H1) as [-> | (q & -> & _)]; [left; reflexivity |].
    cbn [network l_coords reverse].
    destruct (set_geometry_same network0 idx (rev line ++ [q])) as [Hs | Hs]; [left; exact Hs |].
    right. exists (rev line ++ [q]). split; [exact Hs |].
    exists [], q. split; [cbn; lia | right; reflexivity].
  - apply bind_ok in H. destruct H as (st1 & H1 & H).
    apply bind_ok in H. destruct H as (st2 & H2 & H). inversion H; subst.
    pose proof (extend_end_grows _ _ _ _ _ _ H1) as G1. cbn [l_coords] in G1.
    destruct (extend_end_network _ _ _ _ _ _ H2) as [-> | (q2 & -> & _)];
      cbn [network l_coords reverse].
    + destruct (extend_end_network _ _ _ _ _ _ H1) as [-> | (q & -> & _)]; [left; reflexivity |].
      cbn [network l_coords].
      destruct (set_geometry_same network0 idx (line ++ [q])) as [Hs | Hs]; [left; exact Hs |].
      right. exists (line ++ [q]). split; [exact Hs |].
      exists [], q. split; [cbn; lia | left; reflexivity].
    + destruct (set_geometry_same (network st1) idx (rev (l_coords st1) ++ [q2])) as [Hs | Hs].
      * rewrite Hs.
        destruct (extend_end_network _ _ _ _ _ _ H1) as [-> | (q & -> & _)]; [left; reflexivity |].
        cbn [network l_coords].
        destruct (set_geometry_same network0 idx (line ++ [q])) as [Hs' | Hs']; [left; exact Hs' |].
        right. exists (line ++ [q]). split; [exact Hs' |].
        exists [], q. split; [cbn; lia | left; reflexivity].
      * right. exists (rev (l_coords st1) ++ [q2]). split; [exact Hs |].
        destruct G1 as [-> | [q1 ->]].
        -- exists [], q2. split; [cbn; lia | right; reflexivity].
        -- exists [q1], q2. split; [cbn; lia |]. right.
           rewrite rev_app_distr. reflexivity.
Qed.

Lemma snap_rows_spec E ts te rows : forall (cur net' : Network),
  NoDup (map fst rows) ->
  snap_rows E ts te rows cur = Ok net' ->
  List.length net' = List.length cur /\
  (forall j, ~ In j (map fst rows) -> nth_error net' j = nth_error cur j) /\
  (forall idx line, In (idx, line) rows ->
     nth_error net' idx = nth_error cur idx \/
     exists line', nth_error net' idx = Some line' /\ extension line line').
Proof.
  induction rows as [| [idx line] rest IH]; intros cur net' Hnd H.
  - inversion H; subst. split; [reflexivity |]. split; [reflexivity | intros ? ? []].
  - cbn [snap_rows] in H. apply bind_ok in H. destruct H as (net1 & H1 & H).
    cbn [map fst] in Hnd. apply NoDup_cons_iff in Hnd. destruct Hnd as [Hn Hnd].
    destruct (IH _ _ Hnd H) as (L & O & P).
    destruct (snap_row_touches_only_its_row _ _ _ _ _ _ _ H1) as [L1 O1].
    split; [congruence |]. split.
    + intros j Hj. cbn [map fst] in Hj.
      rewrite (O j) by (intros Hx; apply Hj; right; exact Hx).
      apply O1. intros ->. apply Hj. left; reflexivity.
    + intros i l [Heq | Hin].
      * inversion Heq; subst i l. rewrite (O idx Hn).
        apply (snap_row_stores_an_extension _ _ _ _ _ _ _ H1).
      * destruct (P i l Hin) as [Hsame | Hext]; [| right; exact Hext].
        left. rewrite Hsame. apply O1. intros ->. apply Hn.
        apply (in_map fst) in Hin. exact Hin.
Qed.

Lemma In_combine_seq_nth {A : Type} (l : list A) : forall k i a,
  nth_error l i = Some a -> In ((k + i)%nat, a) (combine (seq k (List.length l)) l).
Proof.
  induction l as [| x rest IH]; intros k [| i] a H; try discriminate.
  - cbn in H. inversion H; subst. rewrite Nat.add_0_r. left; reflexivity.
  - cbn in H. cbn [List.length seq combine]. right.
    replace (k + S i)%nat with (S k + i)%nat by lia. apply IH, H.
Qed.

Lemma combine_seq_keys {A : Type} (l : list A) k :
  map fst (combine (seq k (List.length l)) l) = seq k (List.length l).
Proof.
  revert k. induction l as [| x rest IH]; intros k; [reflexivity |].
  cbn. f_equal. apply IH.
Qed.

(** The network returned has the rows of the network given, one for one:
    every street is kept as it was or replaced by an extension of
    itself. *)
Theorem snap_street_network_edge_keeps_streets
  (E : Env) (network0 network' : Network) (tolerance_street tolerance_edge : R) :
  snap_street_network_edge E network0 tolerance_street tolerance_edge = Ok network' ->
  List.length network' = List.length network0 /\
  forall idx line, nth_error network0 idx = Some line ->
    nth_error network' idx = Some line \/
    exists line', nth_error network' idx = Some line' /\ extension line line'.
Proof.
  unfold snap_street_network_edge. intros H.
  destruct (snap_rows_spec E _ _ _ _ _ (eq_ind_r (@NoDup nat) (seq_NoDup _ _)
                                          (combine_seq_keys network0 0)) H) as (L & _ & P).
  split; [exact L |]. intros idx line Hn.
  destruct (P idx line (In_combine_seq_nth network0 0 idx line Hn)) as [Hs | Hx].
  - left. rewrite Hs. exact Hn.
  - right. exact Hx.
Qed.

(** On the street of the example taken from (1, 0) to (0, 0), the end
    (0, 0) is extended first, to (-1, 0), and stored; the point (2, 0)
    for the start is then rejected because of the building. *)
Lemma example_snap_row_reversed :
  snap_row example_env 2 2 0 reversed_line [reversed_line]
  = Ok [[(1, 0); (0, 0); (-1, 0)]].
Proof.
  unfold snap_row, reversed_line. cbn [bind]. unfold from_end.
  cbn [rev app nth_error Nat.sub bind].
  change (connected example_env 0 [[(1, 0); (0, 0)]] (1, 0)) with (Ok (A := bool) false).
  change (connected example_env 0 [[(1, 0); (0, 0)]] (0, 0)) with (Ok (A := bool) false).
  cbn [bind].
  destruct (extrapolation_of_last_two [] (1, 0) (0, 0) 2) as [b1 E1];
    [cbn [fst snd]; lra | cbn [fst snd]; unfold offset; lra |].
  cbn [app] in E1.
  step_extend (0, 0) [b1] E1.
  cbn [bind]. unfold try_store at 1. rewrite example_through_buildings.
  cbn [l_coords network app fst].
  replace (box_meets _ example_building) with false
    by (cbn [bounds fold_left point_bounds fst snd]; decide_reals).
  unfold reverse. cbn [l_coords network rev app set_geometry].
  destruct (extrapolation_of_last_two [(3 * 0 - 1, 0)] (0, 0) (1, 0) 2) as [b2 E2];
    [cbn [fst snd]; lra | cbn [fst snd]; unfold offset; lra |].
  cbn [app] in E2.
  step_extend (1, 0) [b2] E2.
  cbn [bind]. unfold try_store. rewrite example_through_buildings.
  cbn [l_coords network app fst].
  replace (box_meets _ example_building) with true
    by (cbn [bounds fold_left point_bounds fst snd]; decide_reals).
  cbn [network]. replace (3 * 0 - 1) with (-1) by lra. reflexivity.
Qed.

Lemma snap_street_network_edge_keeps_streets_witness :
  let network' := [[(1, 0); (0, 0); (-1, 0)]] in
  List.length network' = List.length [reversed_line] /\
  forall idx line, nth_error [reversed_line] idx = Some line ->
    nth_error network' idx = Some line \/
    exists line', nth_error network' idx = Some line' /\ extension line line'.
Proof.
  apply (snap_street_network_edge_keeps_streets example_env [reversed_line]
           [[(1, 0); (0, 0); (-1, 0)]] 2 2).
  unfold snap_street_network_edge. cbn [List.length seq combine snap_rows].
  rewrite example_snap_row_reversed. reflexivity.
Defined.

Lemma snap_row_touches_only_its_row_witness :
  let network' := [[(1, 0); (0, 0); (-1, 0)]] in
  List.length network' = List.length [reversed_line] /\
  forall j, j <> 0%nat -> nth_error network' j = nth_error [reversed_line] j.
Proof.
  exact (snap_row_touches_only_its_row example_env 2 2 0 reversed_line
           [reversed_line] [[(1, 0); (0, 0); (-1, 0)]] example_snap_row_reversed).
Defined.

Lemma snap_row_stores_an_extension_witness :
  let network' := [[(1, 0); (0, 0); (-1, 0)]] in
  nth_error network' 0 = nth_error [reversed_line] 0 \/
  exists line', nth_error network' 0 = Some line' /\ extension reversed_line line'.
Proof.
  exact (snap_row_stores_an_extension example_env 2 2 0 reversed_line
           [reversed_line] [[(1, 0); (0, 0); (-1, 0)]] example_snap_row_reversed).
Defined.

(** *** A rejected end blocks the start *)

(** In a row with two free ends, when a point was found for the end and
    the extended line was rejected because of a building, nothing is
    stored for the start either: the rejected point is still in the
    coordinate list, and the line tried for the start goes through the
    same building. *)
Theorem rejected_end_blocks_start
  (E : Env) (tolerance_street tolerance_edge : R) (idx : nat)
  (start : Point) (rest : list Point) (network0 : Network) (end_ : Point)
  (network' : Network) (st1 : State) :
  bindex_sound E ->
  meets_persists E ->
  from_end (start :: rest) 1 = Ok end_ ->
  connected E idx network0 start = Ok false ->
  connected E idx network0 end_ = Ok false ->
  extend_end E idx tolerance_street tolerance_edge (mkState (start :: rest) network0) = Ok st1 ->
  l_coords st1 <> start :: rest ->
  crosses_building E (l_coords st1) ->
  snap_row E tolerance_street tolerance_edge idx (start :: rest) network0 = Ok network' ->
  network' = network0.
Proof.
  intros Hs Hp Hend Hf Hse H1 Hgrew Hcross Hrow.
  unfold snap_row in Hrow. cbn [bind] in Hrow.
  rewrite Hend in Hrow. cbn [bind] in Hrow. rewrite Hf, Hse in Hrow. cbn [bind] in Hrow.
  rewrite H1 in Hrow. cbn [bind] in Hrow.
  apply bind_ok in Hrow. destruct Hrow as (st2 & H2 & Hrow). inversion Hrow; subst network'.
  assert (Hn1 : network st1 = network0).
  { destruct (extend_end_cases _ _ _ _ _ _ H1) as [-> | [q ->]]; [reflexivity |].
    destruct (try_store_extended E idx q (mkState (start :: rest) network0) Hs)
      as (q' & _ & Hkeep & _).
    apply Hkeep, Hcross. }
  destruct (extend_end_cases _ _ _ _ _ _ H2) as [-> | [q2 ->]]; [exact Hn1 |].
  destruct (try_store_extended E idx q2 (reverse st1) Hs) as (q' & Hl & Hkeep & _).
  rewrite Hkeep; [exact Hn1 |].
  rewrite try_store_l_coords. cbn [reverse l_coords].
  destruct Hcross as [n Hn]. exists n. apply Hp, Hn.
Qed.

(** The box of a line string holds its points and touches one of them on
    each side. *)
Lemma fold_bounds_spec rest : forall x0 y0 x1 y1 a0 b0 a1 b1,
  fold_left (fun '(x0, y0, x1, y1) q =>
               (Rmin x0 (fst q), Rmin y0 (snd q), Rmax x1 (fst q), Rmax y1 (snd q)))
            rest (x0, y0, x1, y1) = (a0, b0, a1, b1) ->
  (a0 <= x0 /\ b0 <= y0 /\ x1 <= a1 /\ y1 <= b1) /\
  (forall p, In p rest -> a0 <= fst p <= a1 /\ b0 <= snd p <= b1) /\
  (a0 = x0 \/ exists p, In p rest /\ a0 = fst p) /\
  (b0 = y0 \/ exists p, In p rest /\ b0 = snd p) /\
  (a1 = x1 \/ exists p, In p rest /\ a1 = fst p) /\
  (b1 = y1 \/ exists p, In p rest /\ b1 = snd p).
Proof.
  induction rest as [| q rest IH]; intros x0 y0 x1 y1 a0 b0 a1 b1 H.
  - cbn in H. inversion H; subst. split; [lra |]. split; [intros p [] |].
    repeat split; left; reflexivity.
  - cbn [fold_left] in H. destruct (IH _ _ _ _ _ _ _ _ H) as (Hb & Hin & Hx0 & Hy0 & Hx1 & Hy1).
    pose proof (Rmin_l x0 (fst q)). pose proof (Rmin_r x0 (fst q)).
    pose proof (Rmin_l y0 (snd q)). pose proof (Rmin_r y0 (snd q)).
    pose proof (Rmax_l x1 (fst q)). pose proof (Rmax_r x1 (fst q)).
    pose proof (Rmax_l y1 (snd q)). pose proof (Rmax_r y1 (snd q)).
    split; [lra |]. split; [intros p [<- | Hp]; [lra | apply Hin, Hp] |].
    repeat split.
    + destruct Hx0 as [-> | (p & Hp & ->)]; [| right; exists p; split; [right |]; auto].
      unfold Rmin. destruct (Rle_dec x0 (fst q)); [left; reflexivity |].
      right. exists q. split; [left |]; reflexivity.
    + destruct Hy0 as [-> | (p & Hp & ->)]; [| right; exists p; split; [right |]; auto].
      unfold Rmin. destruct (Rle_dec y0 (snd q)); [left; reflexivity |].
      right. exists q. split; [left |]; reflexivity.
    + destruct Hx1 as [-> | (p & Hp & ->)]; [| right; exists p; split; [right |]; auto].
      unfold Rmax. destruct (Rle_dec x1 (fst q)); [| left; reflexivity].
      right. exists q. split; [left |]; reflexivity.
    + destruct Hy1 as [-> | (p & Hp & ->)]; [| right; exists p; split; [right |]; auto].
      unfold Rmax. destruct (Rle_dec y1 (snd q)); [| left; reflexivity].
      right. exists q. split; [left |]; reflexivity.
Qed.

Lemma bounds_spec l a0 b0 a1 b1 :
  l <> [] -> bounds l = (a0, b0, a1, b1) ->
  (forall p, In p l -> a0 <= fst p <= a1 /\ b0 <= snd p <= b1) /\
  (exists p, In p l /\ a0 = fst p) /\ (exists p, In p l /\ b0 = snd p) /\
  (exists p, In p l /\ a1 = fst p) /\ (exists p, In p l /\ b1 = snd p).
Proof.
  destruct l as [| p0 rest]; [contradiction |]. intros _ H.
  unfold bounds, point_bounds in H.
  destruct (fold_bounds_spec rest _ _ _ _ _ _ _ _ H) as (Hb & Hin & Hx0 & Hy0 & Hx1 & Hy1).
  split; [intros p [<- | Hp]; [lra | apply Hin, Hp] |].
  repeat split.
  - destruct Hx0 as [-> | (p & Hp & ->)]; [exists p0 | exists p]; split; auto; [left | right]; auto.
  - destruct Hy0 as [-> | (p & Hp & ->)]; [exists p0 | exists p]; split; auto; [left | right]; auto.
  - destruct Hx1 as [-> | (p & Hp & ->)]; [exists p0 | exists p]; split; auto; [left | right]; auto.
  - destruct Hy1 as [-> | (p & Hp & ->)]; [exists p0 | exists p]; split; auto; [left | right]; auto.
Qed.

(** A box that meets another still meets it when the line grows. *)
Lemma box_meets_grows l l' box :
  l <> [] -> (forall p, In p l -> In p l') ->
  box_meets (bounds l) box = true -> box_meets (bounds l') box = true.
Proof.
  intros Hne Hsub.
  assert (Hne' : l' <> []).
  { destruct l as [| p rest]; [contradiction |]. intros ->. apply (Hsub p). left; reflexivity. }
  destruct (bounds l) as [[[a0 b0] a1] b1] eqn:Eb.
  destruct (bounds l') as [[[c0 d0] c1] d1] eqn:Eb'.
  destruct (bounds_spec l _ _ _ _ Hne Eb) as (_ & (p1 & H1 & E1) & (p2 & H2 & E2) & (p3 & H3 & E3) & (p4 & H4 & E4)).
  destruct (bounds_spec l' _ _ _ _ Hne' Eb') as (Hin' & _).
  destruct box as [[[x0 y0] x1] y1]. unfold box_meets.
  rewrite !andb_true_iff, !Rleb_le.
  pose proof (Hin' p1 (Hsub p1 H1)). pose proof (Hin' p2 (Hsub p2 H2)).
  pose proof (Hin' p3 (Hsub p3 H3)). pose proof (Hin' p4 (Hsub p4 H4)).
  lra.
Qed.

Lemma example_meets_persists : meets_persists example_env.
Proof.
  intros n l q H. cbn [building_meets example_env] in H |- *.
  apply andb_true_iff in H. destruct H as [Hn Hb]. rewrite Hn. cbn [andb].
  destruct l as [| p rest].
  - exfalso. cbn [bounds] in Hb. unfold box_meets, example_building in Hb.
    rewrite (Rleb_false (3 / 2) 0) in Hb by lra. rewrite !andb_false_r in Hb.
    cbn in Hb. discriminate.
  - apply (box_meets_grows (p :: rest)); [discriminate | | exact Hb].
    intros x Hx. apply in_or_app. left. apply -> in_rev. exact Hx.
Qed.

Lemma rejected_end_blocks_start_witness :
  snap_row example_env 2 2 0 example_line example_network = Ok example_network /\
  example_network = example_network.
Proof.
  split; [exact example_snap_row |].
  destruct (extrapolation_of_last_two [] (0, 0) (1, 0) 2) as [b1 E1];
    [cbn [fst snd]; lra | cbn [fst snd]; unfold offset; lra |].
  cbn [app] in E1.
  apply (rejected_end_blocks_start example_env 2 2 0 (0, 0) [(1, 0)] example_network (1, 0)
           example_network
           (try_store example_env 0 (3 * fst (1, 0) - 1, 0) (mkState example_line example_network))).
  - exact example_bindex_sound.
  - exact example_meets_persists.
  - reflexivity.
  - reflexivity.
  - reflexivity.
  - apply (example_extend_end (mkState example_line example_network) example_line (1, 0) [b1]
             eq_refl E1).
  - rewrite try_store_l_coords. cbn [l_coords]. unfold example_line. discriminate.
  - rewrite try_store_l_coords. cbn [l_coords]. exists 0%nat.
    cbn [building_meets example_env Nat.eqb andb]. unfold example_line. cbn [app fst].
    cbn [bounds fold_left point_bounds fst snd]. decide_reals.
  - exact example_snap_row.
Defined.

End SnapMore.

(** ** Extrapolation on floats: when the divisor is zero *)

Module ExtrapolationFloatFacts.
Import ResultFacts Floats Float64.
Local Open Scope float_scope.
Local Open Scope result_scope.

(** On floats, [getExtrapoledLine] raises [ZeroDivisionError] exactly
    when its divisor [math.fabs(p1[0] - p2[0] + 0.000001)], as the floats
    give it, is zero. *)
Theorem getExtrapoledLine_divides_by_zero_iff
  (M : Math) (p1 p2 : Point) (tolerance : float) :
  getExtrapoledLine M p1 p2 tolerance = Raise ZeroDivisionError
  <-> is_zero (divisor p1 p2) = true.
Proof.
  unfold getExtrapoledLine, angle, fdiv, is_zero, zero. split.
  - intros H. destruct (divisor p1 p2 =? 0); [reflexivity |]. exfalso.
    cbn [bind] in H. unfold mcos, msin in H.
    destruct (is_infinity (atan M _)) in H;
      repeat (destruct (_ && _) in H; cbn [bind] in H); discriminate.
  - intros ->. repeat destruct (_ && _); reflexivity.
Qed.

(** With [p2] at 0.000001 to the right of the origin [p1], the sum is
    zero and the function raises. *)
Example getExtrapoledLine_float_cancels (M : Math) (tolerance : float) :
  divisor (0, 0) (offset, 0) = 0 /\
  getExtrapoledLine M (0, 0) (offset, 0) tolerance = Raise ZeroDivisionError.
Proof.
  split; [vm_compute; reflexivity |].
  unfold getExtrapoledLine, angle, fdiv.
  replace (divisor (0, 0) (offset, 0) =? 0) with true by (vm_compute; reflexivity).
  cbn [bind]. repeat destruct (_ && _); reflexivity.
Qed.

(** With [p1 = (1, 0)] and [p2 = (1.000001, 0)] the exact sum is zero,
    the sum of the floats is about 8.2e-17: the function does not divide
    by zero. *)
Example getExtrapoledLine_float_near (M : Math) (tolerance : float) :
  divisor (1, 0) (one_and_offset, 0) = 0x1.7b634p-54 /\
  getExtrapoledLine M (1, 0) (one_and_offset, 0) tolerance <> Raise ZeroDivisionError.
Proof.
  split; [vm_compute; reflexivity |].
  unfold getExtrapoledLine, angle, fdiv.
  replace (divisor (1, 0) (one_and_offset, 0) =? 0) with false by (vm_compute; reflexivity).
  cbn [bind]. unfold mcos, msin.
  destruct (is_infinity (atan M _));
    repeat (destruct (_ && _); cbn [bind]); discriminate.
Qed.

End ExtrapolationFloatFacts.

(** ** Tessellation: resolution and clipping *)

Module TessellationMore.
Import ResultFacts Tessellation TessellationFacts.
Local Open Scope Q_scope.
Local Open Scope result_scope.

Section More.
Context {Geom : Type} (E : Env Geom).

Local Abbreviation row := (@row Geom).
Local Abbreviation cell := (@cell Geom).

Lemma set_uID_labels (t : list row) idx u : map label (set_uID t idx u) = map label t.
Proof.
  unfold set_uID. rewrite map_map. apply map_ext. intros r.
  destruct (Nat.eqb (label r) idx); reflexivity.
Qed.

Lemma set_uID_geometry (t : list row) idx u : map geometry (set_uID t idx u) = map geometry t.
Proof.
  unfold set_uID. rewrite map_map. apply map_ext. intros r.
  destruct (Nat.eqb (label r) idx); reflexivity.
Qed.

Lemma resolve_frame unjoined : forall (t t' : list row),
  resolve E unjoined t = Ok t' ->
  map label t' = map label t /\ map geometry t' = map geometry t.
Proof.
  induction unjoined as [| r rest IH]; cbn; intros t t' H.
  - inversion H; subst. split; reflexivity.
  - apply bind_ok in H. destruct H as (u & _ & H).
    destruct (IH _ _ H) as [Hl Hg].
    rewrite Hl, Hg, set_uID_labels, set_uID_geometry. split; reflexivity.
Qed.

Lemma resolve_fills unjoined : forall (t t' : list row),
  resolve E unjoined t = Ok t' ->
  (forall r, In r t -> uID r = None -> In (label r) (map label unjoined)) ->
  forall r', In r' t' -> uID r' <> None.
Proof.
  induction unjoined as [| r0 rest IH]; cbn [resolve]; intros t t' H Hcov r' Hr'.
  - inversion H; subst. intros Hn. destruct (Hcov r' Hr' Hn).
  - apply bind_ok in H. destruct H as (u & _ & H).
    apply (IH _ _ H); [| exact Hr'].
    intros r Hr Hn. unfold set_uID in Hr. apply in_map_iff in Hr.
    destruct Hr as (r1 & Hr1 & Hin1).
    destruct (Nat.eqb_spec (label r1) (label r0)) as [He | Hne].
    + subst r. discriminate.
    + subst r1. destruct (Hcov r Hin1 Hn) as [Habs | Hin]; [congruence | exact Hin].
Qed.

(** When the resolution of the unjoined cells returns, every row of the
    table carries an identifier; the rows, their labels and their
    geometries are those of the spatial join. *)
Theorem resolve_leaves_no_unjoined (t t' : list row) :
  resolve E (unjoined_of t) t = Ok t' ->
  (forall r', In r' t' -> uID r' <> None) /\
  map label t' = map label t /\
  map geometry t' = map geometry t.
Proof.
  intros H. split; [| apply (resolve_frame _ _ _ H)].
  apply (resolve_fills _ _ _ H). intros r Hr Hn.
  apply in_map. unfold unjoined_of. apply filter_In. split; [exact Hr |]. rewrite Hn. reflexivity.
Qed.

Lemma resolve_keeps_other_labels unjoined : forall (t t' : list row) i r,
  resolve E unjoined t = Ok t' ->
  nth_error t i = Some r ->
  ~ In (label r) (map label unjoined) ->
  nth_error t' i = Some r.
Proof.
  induction unjoined as [| r0 rest IH]; cbn [resolve]; intros t t' i r H Hn Hout.
  - inversion H; subst. exact Hn.
  - apply bind_ok in H. destruct H as (u & _ & H).
    apply (IH _ _ i r H).
    + unfold set_uID. rewrite nth_error_map, Hn. cbn.
      destruct (Nat.eqb_spec (label r) (label r0)) as [He | Hne]; [| reflexivity].
      exfalso. apply Hout. left. symmetry. exact He.
    + intros Hin. apply Hout. right. exact Hin.
Qed.

Lemma same_label_same_polygon (voronoi_polygons : list (nat * Geom)) c1 c2 :
  NoDup (map fst voronoi_polygons) ->
  In c1 voronoi_polygons -> In c2 voronoi_polygons -> fst c1 = fst c2 -> c1 = c2.
Proof.
  induction voronoi_polygons as [| c rest IH]; intros Hnd H1 H2 He; [destruct H1 |].
  cbn in Hnd. apply NoDup_cons_iff in Hnd. destruct Hnd as [Hn Hnd].
  destruct H1 as [<- | H1], H2 as [<- | H2].
  - reflexivity.
  - exfalso. apply Hn. rewrite He. apply in_map, H2.
  - exfalso. apply Hn. rewrite <- He. apply in_map, H1.
  - apply IH; assumption.
Qed.

Lemma sjoin_left_row_origin voronoi_polygons objects (r : row) :
  In r (sjoin_left E voronoi_polygons objects) ->
  exists c, In c voronoi_polygons /\ label r = fst c /\
    (uID r = None <-> filter (fun o => intersects E (snd c) (snd o)) objects = []).
Proof.
  unfold sjoin_left. rewrite in_flat_map. intros (c & Hc & Hr). exists c. split; [exact Hc |].
  destruct (filter _ objects) as [| o matches] eqn:Ef.
  - destruct Hr as [<- | []]. cbn. split; [reflexivity |]. split; reflexivity.
  - rewrite <- Ef in Hr. apply in_map_iff in Hr. destruct Hr as (o' & <- & _). cbn.
    split; [reflexivity |]. split; discriminate.
Qed.

(** With distinct labels on the Voronoi polygons, the resolution never
    touches a row that the spatial join gave an identifier: it stays at
    its place with the same identifier. *)
Theorem resolve_keeps_joined_rows
  (voronoi_polygons : list (nat * Geom)) (objects : list (Z * Geom)) (t' : list row)
  (i : nat) (r : row) (u : Z) :
  NoDup (map fst voronoi_polygons) ->
  resolve E (unjoined_of (sjoin_left E voronoi_polygons objects))
            (sjoin_left E voronoi_polygons objects) = Ok t' ->
  nth_error (sjoin_left E voronoi_polygons objects) i = Some r ->
  uID r = Some u ->
  nth_error t' i = Some r.
Proof.
  intros Hnd H Hn Hu. apply (resolve_keeps_other_labels _ _ _ i r H Hn).
  intros Hin. apply in_map_iff in Hin. destruct Hin as (r2 & Hl & Hr2).
  unfold unjoined_of in Hr2. apply filter_In in Hr2. destruct Hr2 as [Hr2 Hnone].
  destruct (uID r2) eqn:Eu2; [discriminate |].
  destruct (sjoin_left_row_origin _ _ r (nth_error_In _ _ Hn)) as (c1 & Hc1 & Hl1 & Hi1).
  destruct (sjoin_left_row_origin _ _ r2 Hr2) as (c2 & Hc2 & Hl2 & Hi2).
  assert (Hc : c1 = c2).
  { apply (same_label_same_polygon voronoi_polygons); auto. congruence. }
  subst c2. apply Hi2 in Eu2. apply Hi1 in Eu2. congruence.
Qed.

(** An unjoined cell none of whose neighbours in the index carries an
    identifier leaves [boundaries] empty, and [max] raises [ValueError]:
    this is the only way the choice of an identifier fails once the
    neighbours have been read. *)
Theorem resolve_one_raises_iff_no_identified_neighbour
  (t : list row) (r : row) (ids : list Z) :
  neighbors_ids_of E t r = Ok ids ->
  ((exists e, resolve_one E t r = Raise e) <-> ids = []) /\
  (ids = [] -> resolve_one E t r = Raise ValueError).
Proof.
  unfold neighbors_ids_of, resolve_one. intros H. rewrite H. cbn [bind].
  destruct ids as [| i rest].
  - cbn. split; [split; [reflexivity | intros _; exists ValueError; reflexivity] | reflexivity].
  - split; [| discriminate]. split; [| discriminate].
    intros [e He]. exfalso.
    destruct (fold_ins_spec (shared_length E t (geometry r)) (i :: rest) [])
      as (D & HD & _ & _ & Hk); [intros kv [] | constructor |].
    cbn [app] in HD, Hk. unfold boundaries_of in He.
    change (fold_left _ (i :: rest) [])
      with (fold_left (ins (shared_length E t (geometry r))) (i :: rest) []) in He.
    rewrite HD in He. destruct D as [| b0 D'].
    + assert (Hin : In i (map fst (@nil (Z * Q)))) by (apply Hk; right; left; reflexivity).
      destruct Hin.
    + cbn in He. discriminate.
Qed.

(** The cells are returned in increasing order of their identifiers. *)
Theorem tessellation_sorted_by_identifier
  (voronoi_polygons : list (nat * Geom)) (objects : list (object (Geom := Geom)))
  (cells : list cell) :
  tessellation E voronoi_polygons objects = Ok cells ->
  increasing (map cell_uID cells).
Proof.
  unfold tessellation, voronoi_plots_of. intros H.
  apply bind_ok in H. destruct H as (plots & Hplots & Hclip).
  apply bind_ok in Hplots. destruct Hplots as (t & _ & Hplots).
  inversion Hplots; subst plots.
  rewrite (clip_uIDs E _ _ Hclip), dissolve_uIDs. apply group_keys_increasing.
Qed.

Lemma precise_matches_meet (plots : list cell) poly possible : forall here c,
  precise_matches E plots possible poly = Ok here -> In c here ->
  intersects E (cell_geometry c) poly = true.
Proof.
  induction possible as [| m rest IH]; cbn; intros here c H Hc.
  - inversion H; subst. destruct Hc.
  - destruct (nth_error plots m) as [c' |] eqn:Em; [| discriminate].
    apply bind_ok in H. destruct H as (more & Hmore & H).
    destruct (intersects E (cell_geometry c') poly) eqn:Ei; inversion H; subst.
    + destruct Hc as [<- | Hc]; [exact Ei | eapply IH; eauto].
    + eapply IH; eauto.
Qed.

Lemma to_cut_of_meet (plots : list cell) quadrats : forall to_cut c,
  to_cut_of E plots quadrats = Ok to_cut -> In c to_cut ->
  exists poly, In poly quadrats /\ intersects E (cell_geometry c) poly = true.
Proof.
  induction quadrats as [| q rest IH]; cbn; intros to_cut c H Hc.
  - inversion H; subst. destruct Hc.
  - apply bind_ok in H. destruct H as (here & Hhere & H).
    apply bind_ok in H. destruct H as (more & Hmore & H).
    inversion H; subst; clear H. apply in_app_or in Hc. destruct Hc as [Hc | Hc].
    + exists q. split; [left; reflexivity | eapply precise_matches_meet; eauto].
    + destruct (IH _ _ Hmore Hc) as (poly & Hp & Hi). exists poly. split; [right |]; assumption.
Qed.

(** Clipping leaves alone every cell that meets no piece of the
    quadrat-cut boundary: it is returned with the geometry that the
    dissolve gave it. *)
Theorem cells_off_the_boundary_are_kept
  (voronoi_polygons : list (nat * Geom)) (objects : list (object (Geom := Geom)))
  (cells : list cell) :
  tessellation E voronoi_polygons objects = Ok cells ->
  exists voronoi_plots,
    voronoi_plots_of E voronoi_polygons objects = Ok voronoi_plots /\
    forall c, In c voronoi_plots ->
      (forall poly, In poly (geometry_cut E) -> intersects E (cell_geometry c) poly = false) ->
      In c cells.
Proof.
  intros H. unfold tessellation in H.
  apply bind_ok in H. destruct H as (plots & Hplots & Hclip).
  exists plots. split; [exact Hplots |].
  assert (Hnd : NoDup (map cell_uID plots)).
  { unfold voronoi_plots_of in Hplots. apply bind_ok in Hplots.
    destruct Hplots as (t & _ & Hp). inversion Hp; subst plots.
    rewrite dissolve_uIDs. apply increasing_NoDup, group_keys_increasing. }
  intros c Hc Hoff.
  unfold clip in Hclip. apply bind_ok in Hclip. destruct Hclip as (to_cut & Hto & Hcut).
  destruct (drop_duplicates_spec to_cut []) as (Hd1 & Hd2 & _).
  rewrite selected_is_to_cut in Hcut;
    [| exact Hnd | intros d Hd; eapply to_cut_of_sub; [exact Hto | apply Hd1, Hd]].
  destruct (cutting_spec E _ _ _ Hd2 Hcut) as [_ Hrest].
  apply Hrest; [exact Hc |].
  intros Hin. apply in_map_iff in Hin. destruct Hin as (d & Hdu & Hd).
  destruct (Hd1 d Hd) as [Hdto _].
  assert (Hdp : In d plots) by (eapply to_cut_of_sub; eauto).
  assert (Hdc : d = c).
  { pose proof (filter_unique plots c Hnd Hc) as Hf.
    assert (Hdf : In d (filter (fun c0 => Z.eqb (cell_uID c0) (cell_uID c)) plots)).
    { apply filter_In. split; [exact Hdp | apply Z.eqb_eq, Hdu]. }
    rewrite Hf in Hdf. destruct Hdf as [<- | []]. reflexivity. }
  subst d. destruct (to_cut_of_meet _ _ _ _ Hto Hdto) as (poly & Hp & Hi).
  rewrite (Hoff poly Hp) in Hi. discriminate.
Qed.

End More.

(** *** The examples *)

Import TessellationNotions.

Lemma example_polygons_labels : NoDup (map fst example_polygons).
Proof.
  cbn. repeat constructor; cbn; intuition discriminate.
Qed.

Lemma resolve_leaves_no_unjoined_witness :
  let t' := [mkRow 0 (0, 0, 10, 10)%Z (Some 2%Z);
             mkRow 1 (20, 0, 30, 10)%Z (Some 1%Z);
             mkRow 2 (10, 0, 20, 10)%Z (Some 2%Z)] in
  (forall r', In r' t' -> uID r' <> None) /\
  map label t' = map label (sjoin_left example_env example_polygons (dropna example_objects)) /\
  map geometry t'
  = map geometry (sjoin_left example_env example_polygons (dropna example_objects)).
Proof.
  apply (resolve_leaves_no_unjoined example_env
           (sjoin_left example_env example_polygons (dropna example_objects))).
  vm_compute. reflexivity.
Defined.

Lemma resolve_keeps_joined_rows_witness :
  nth_error [mkRow 0 (0, 0, 10, 10)%Z (Some 2%Z);
             mkRow 1 (20, 0, 30, 10)%Z (Some 1%Z);
             mkRow 2 (10, 0, 20, 10)%Z (Some 2%Z)] 1
  = Some (mkRow 1 (20, 0, 30, 10)%Z (Some 1%Z)).
Proof.
  apply (resolve_keeps_joined_rows example_env example_polygons (dropna example_objects)
           _ 1 _ 1%Z example_polygons_labels).
  - vm_compute. reflexivity.
  - reflexivity.
  - reflexivity.
Defined.

(** The second square of the isolated instance has no neighbour at all:
    the choice of an identifier, and with it the tessellation, raises. *)
Example isolated_tessellation :
  tessellation example_env isolated_polygons isolated_objects = Raise ValueError.
Proof. vm_compute. reflexivity. Qed.

Lemma resolve_one_raises_iff_no_identified_neighbour_witness :
  let t := sjoin_left example_env isolated_polygons (dropna isolated_objects) in
  let r := mkRow 1 (50, 0, 60, 10)%Z None in
  ((exists e, resolve_one example_env t r = Raise e) <-> @nil Z = []) /\
  (@nil Z = [] -> resolve_one example_env t r = Raise ValueError).
Proof.
  apply (resolve_one_raises_iff_no_identified_neighbour example_env
           (sjoin_left example_env isolated_polygons (dropna isolated_objects))
           (mkRow 1 (50, 0, 60, 10)%Z None) []).
  vm_compute. reflexivity.
Defined.

Lemma tessellation_sorted_by_identifier_witness :
  increasing (map cell_uID [mkCell 1%Z (20, 5, 30, 10)%Z; mkCell 2%Z (0, 5, 20, 10)%Z]).
Proof.
  apply (tessellation_sorted_by_identifier example_env example_polygons example_objects).
  vm_compute. reflexivity.
Defined.

(** With the boundary cut in a piece at the left only, the cell of the
    building 1, at the right, meets no piece and is returned whole; the
    cell of the building 2 is cut. *)
Example example_corner_tessellation :
  voronoi_plots_of corner_env example_polygons example_objects
  = Ok [mkCell 1%Z (20, 0, 30, 10)%Z; mkCell 2%Z (0, 0, 20, 10)%Z] /\
  tessellation corner_env example_polygons example_objects
  = Ok [mkCell 1%Z (20, 0, 30, 10)%Z; mkCell 2%Z (0, 5, 20, 10)%Z].
Proof. split; vm_compute; reflexivity. Qed.

Lemma cells_off_the_boundary_are_kept_witness :
  let kept := mkCell 1%Z (20, 0, 30, 10)%Z in
  exists voronoi_plots,
    voronoi_plots_of corner_env example_polygons example_objects = Ok voronoi_plots /\
    In kept voronoi_plots /\
    (forall poly, In poly (geometry_cut corner_env) ->
       intersects corner_env (cell_geometry kept) poly = false) /\
    In kept [mkCell 1%Z (20, 0, 30, 10)%Z; mkCell 2%Z (0, 5, 20, 10)%Z].
Proof.
  cbv zeta.
  destruct (cells_off_the_boundary_are_kept corner_env example_polygons example_objects _
              (proj2 example_corner_tessellation)) as (vp & E & Hkeep).
  assert (Hin : In (mkCell 1%Z (20, 0, 30, 10)%Z) vp).
  { rewrite (proj1 example_corner_tessellation) in E. inversion E. left; reflexivity. }
  assert (Hoff : forall poly, In poly (geometry_cut corner_env) ->
            intersects corner_env (cell_geometry (mkCell 1%Z (20, 0, 30, 10)%Z)) poly = false).
  { intros poly [<- | []]. reflexivity. }
  exists vp. split; [exact E |]. split; [exact Hin |]. split; [exact Hoff |].
  apply Hkeep; assumption.
Defined.

End TessellationMore.

(** ** Numbering of rows and splitting of multi-part rows *)

Module FramesFacts.
Import ResultFacts Frames.
Local Open Scope result_scope.

Lemma set_id_miss {A : Type} (rows : list (nat * A * option Z)) idx id :
  (forall r, In r rows -> fst (fst r) <> idx) -> set_id rows idx id = rows.
Proof.
  intros H. unfold set_id. rewrite <- (map_id rows) at 2. apply map_ext_in.
  intros r Hr. destruct (Nat.eqb_spec (fst (fst r)) idx) as [He | _]; [| reflexivity].
  destruct (H r Hr He).
Qed.

Lemma set_id_app {A : Type} (l1 l2 : list (nat * A * option Z)) idx id :
  set_id (l1 ++ l2) idx id = set_id l1 idx id ++ set_id l2 idx id.
Proof. apply map_app. Qed.

Lemma set_id_hit {A : Type} (r : nat * A) o (l : list (nat * A * option Z)) id :
  set_id ((r, o) :: l) (fst r) id = (r, Some id) :: set_id l (fst r) id.
Proof. unfold set_id. cbn [map fst]. rewrite Nat.eqb_refl. reflexivity. Qed.

Lemma unique_id_loop_spec {A : Type} (todo : list (nat * A)) : forall id done,
  NoDup (map fst todo) ->
  (forall r, In r done -> ~ In (fst (fst r)) (map fst todo)) ->
  unique_id_loop (map fst todo) id (done ++ map (fun r => (r, @None Z)) todo)
  = done ++ map (fun p => (snd p, Some (fst p))) (number_rows id todo).
Proof.
  induction todo as [| r rest IH]; intros id done Hnd Hdone; [reflexivity |].
  cbn [map unique_id_loop number_rows fst snd].
  cbn [map] in Hnd. apply NoDup_cons_iff in Hnd. destruct Hnd as [Hn Hnd].
  rewrite set_id_app, set_id_hit.
  rewrite (set_id_miss done).
  2:{ intros x Hx He. apply (Hdone x Hx). left. symmetry. exact He. }
  rewrite (set_id_miss (map _ rest)).
  2:{ intros x Hx He. apply in_map_iff in Hx. destruct Hx as (x0 & <- & Hx0).
      cbn in He. apply Hn. rewrite <- He. apply in_map, Hx0. }
  specialize (IH (id + 1)%Z (done ++ [(r, Some id)]) Hnd).
  rewrite <- !app_assoc in IH. cbn [app] in IH. apply IH.
  intros x Hx Hin. apply in_app_or in Hx. destruct Hx as [Hx | [<- | []]].
  - apply (Hdone x Hx). right. exact Hin.
  - cbn in Hin. contradiction.
Qed.

Lemma number_rows_ids_from {A : Type} (rows : list A) : forall id x,
  In x (map fst (number_rows id rows)) -> (id <= x)%Z.
Proof.
  induction rows as [| r rest IH]; intros id x Hin; [destruct Hin |].
  cbn in Hin. destruct Hin as [<- | Hin]; [lia |]. specialize (IH _ _ Hin). lia.
Qed.

Lemma number_rows_ids_distinct {A : Type} (rows : list A) : forall id,
  NoDup (map fst (number_rows id rows)).
Proof.
  induction rows as [| r rest IH]; intros id; cbn; constructor; [| apply IH].
  intros Hin. apply number_rows_ids_from in Hin. lia.
Qed.

Lemma number_rows_nth {A : Type} (rows : list A) : forall id i r,
  nth_error rows i = Some r ->
  nth_error (number_rows id rows) i = Some ((id + Z.of_nat i)%Z, r).
Proof.
  induction rows as [| r0 rest IH]; intros id [| i] r H; try discriminate.
  - cbn in H |- *. inversion H; subst. do 2 f_equal. lia.
  - cbn [nth_error number_rows] in H |- *. rewrite (IH _ _ _ H). do 2 f_equal. lia.
Qed.

Lemma number_rows_content {A : Type} (rows : list A) : forall id,
  map snd (number_rows id rows) = rows.
Proof.
  induction rows as [| r rest IH]; intros id; cbn; [reflexivity |]. f_equal. apply IH.
Qed.

Lemma NoDup_map_Some {B : Type} (l : list B) : NoDup l -> NoDup (map (@Some B) l).
Proof.
  induction 1 as [| x l Hx Hnd IH]; cbn; constructor; [| exact IH].
  intros Hin. apply in_map_iff in Hin. destruct Hin as (y & Hy & Hin).
  inversion Hy; subst. contradiction.
Qed.

Lemma unique_id_returns {A : Type} columns (objects : list (nat * A)) clear keep out :
  unique_id columns objects clear keep = Ok out ->
  out = unique_id_loop (map fst objects) 1 (map (fun r => (r, @None Z)) objects).
Proof.
  unfold unique_id.
  replace (map (fun r : nat * A * option Z => fst (fst r)) (map (fun r => (r, @None Z)) objects))
    with (map fst objects) by (rewrite map_map; apply map_ext; reflexivity).
  destruct clear; [destruct keep as [k |] |].
  - destruct (existsb _ _); [| discriminate].
    destruct (_ <? _)%nat; [discriminate | congruence].
  - destruct (_ <? _)%nat; [discriminate | congruence].
  - congruence.
Qed.

(** On a frame whose index labels are pairwise distinct, [unique_id]
    gives the rows the identifiers 1, 2, 3, ... in their order; the
    identifiers are pairwise distinct. *)
Theorem unique_id_numbers_in_order {A : Type}
  (columns : list string) (objects : list (nat * A)) (clear : bool) (keep : option string)
  (out : list (nat * A * option Z)) :
  NoDup (map fst objects) ->
  unique_id columns objects clear keep = Ok out ->
  (forall i r, nth_error objects i = Some r ->
     nth_error out i = Some (r, Some (1 + Z.of_nat i)%Z)) /\
  NoDup (map snd out).
Proof.
  intros Hnd H. apply unique_id_returns in H.
  pose proof (unique_id_loop_spec objects 1 [] Hnd (fun r (Hr : In r []) => False_ind _ Hr)) as E.
  cbn [app] in E. rewrite E in H. subst out. split.
  - intros i r Hn. rewrite nth_error_map, (number_rows_nth objects 1 i r Hn). reflexivity.
  - rewrite map_map. cbn [snd].
    rewrite <- (map_map fst (@Some Z)).
    apply NoDup_map_Some, number_rows_ids_distinct.
Qed.

Lemma unique_id_numbers_in_order_witness :
  let out := [(0%nat, "a"%string, Some 1%Z); (1%nat, "b"%string, Some 2%Z);
              (2%nat, "c"%string, Some 3%Z)] in
  (forall i r, nth_error example_frame i = Some r ->
     nth_error out i = Some (r, Some (1 + Z.of_nat i)%Z)) /\
  NoDup (map snd out).
Proof.
  apply (unique_id_numbers_in_order ["geometry"; "uID"]%string example_frame false None).
  - cbn. repeat constructor; cbn; intuition discriminate.
  - reflexivity.
Defined.

Lemma unique_id_loop_same_label {A : Type} (labels : list nat) : forall id (objects : list (nat * A * option Z)),
  (forall r1 r2, In r1 objects -> In r2 objects -> fst (fst r1) = fst (fst r2) -> snd r1 = snd r2) ->
  forall r1 r2, In r1 (unique_id_loop labels id objects) ->
                In r2 (unique_id_loop labels id objects) ->
                fst (fst r1) = fst (fst r2) -> snd r1 = snd r2.
Proof.
  induction labels as [| idx rest IH]; intros id objects Hinv; [exact Hinv |].
  cbn [unique_id_loop]. apply IH.
  intros r1 r2 H1 H2 He. unfold set_id in H1, H2.
  apply in_map_iff in H1. destruct H1 as (x1 & <- & Hx1).
  apply in_map_iff in H2. destruct H2 as (x2 & <- & Hx2).
  destruct (Nat.eqb_spec (fst (fst x1)) idx) as [E1 | E1];
    destruct (Nat.eqb_spec (fst (fst x2)) idx) as [E2 | E2]; cbn [fst snd] in *.
  - reflexivity.
  - congruence.
  - congruence.
  - apply Hinv; assumption.
Qed.

(** Whatever the labels, two rows with the same index label leave
    [unique_id] with the same identifier: the assignment through
    [objects.loc[idx, ...]] writes every row that carries the label. *)
Theorem unique_id_same_label_same_identifier {A : Type}
  (columns : list string) (objects : list (nat * A)) (clear : bool) (keep : option string)
  (out : list (nat * A * option Z)) (r1 r2 : nat * A * option Z) :
  unique_id columns objects clear keep = Ok out ->
  In r1 out -> In r2 out -> fst (fst r1) = fst (fst r2) -> snd r1 = snd r2.
Proof.
  intros H. apply unique_id_returns in H. subst out.
  apply unique_id_loop_same_label.
  intros x1 x2 H1 H2 _. apply in_map_iff in H1, H2.
  destruct H1 as (? & <- & _), H2 as (? & <- & _). reflexivity.
Qed.

Lemma unique_id_same_label_same_identifier_witness :
  snd (0%nat, "a"%string, Some 2%Z) = snd (0%nat, "b"%string, Some 2%Z).
Proof.
  apply (unique_id_same_label_same_identifier ["geometry"; "uID"]%string
           example_frame_repeated false None
           [(0%nat, "a"%string, Some 2%Z); (0%nat, "b"%string, Some 2%Z);
            (2%nat, "c"%string, Some 3%Z)]).
  - reflexivity.
  - left. reflexivity.
  - right. left. reflexivity.
  - reflexivity.
Defined.

Lemma multi_rows_In {A Geom : Type} (gpdf : list (A * shape Geom)) : forall more a g,
  multi_rows gpdf = Ok more ->
  (In (a, g) more <-> exists parts, In (a, MultiPolygon parts) gpdf /\ In g parts).
Proof.
  induction gpdf as [| [a0 sh] rest IH]; intros more a g H.
  - cbn in H. inversion H; subst. split; [intros [] | intros (parts & [] & _)].
  - cbn [multi_rows] in H. destruct sh as [g0 | parts0 | g0].
    + rewrite (IH _ a g H). split.
      * intros (parts & Hin & Hg). exists parts. split; [right |]; assumption.
      * intros (parts & [Heq | Hin] & Hg); [discriminate | exists parts; auto].
    + destruct parts0 as [| p0 parts0]; [discriminate |].
      apply bind_ok in H. destruct H as (more' & Hmore & H). inversion H; subst more; clear H.
      split.
      * intros Hin.
        apply (in_app_or (map (fun g0 => (a0, g0)) (p0 :: parts0)) more') in Hin.
        destruct Hin as [Hin | Hin].
        -- apply in_map_iff in Hin. destruct Hin as (g' & Heq & Hg').
           inversion Heq; subst. exists (p0 :: parts0). split; [left; reflexivity | exact Hg'].
        -- apply (IH _ a g Hmore) in Hin. destruct Hin as (parts & Hin & Hg).
           exists parts. split; [right |]; assumption.
      * intros (parts & [Heq | Hin] & Hg);
          apply (in_or_app (map (fun g0 => (a0, g0)) (p0 :: parts0)) more').
        -- inversion Heq; subst. left. apply in_map_iff. exists g. split; [reflexivity | exact Hg].
        -- right. apply (IH _ a g Hmore). exists parts. auto.
    + rewrite (IH _ a g H). split.
      * intros (parts & Hin & Hg). exists parts. split; [right |]; assumption.
      * intros (parts & [Heq | Hin] & Hg); [discriminate | exists parts; auto].
Qed.

(** The rows returned by [multi2single] are the single polygons of the
    frame and the parts of its multi-part rows, each with the other
    columns of the row it comes from; a row whose geometry is of another
    type gives nothing. *)
Theorem multi2single_rows {A Geom : Type}
  (gpdf : list (A * shape Geom)) (out : list (A * Geom)) (a : A) (g : Geom) :
  multi2single gpdf = Ok out ->
  (In (a, g) out <->
   In (a, Polygon g) gpdf \/ exists parts, In (a, MultiPolygon parts) gpdf /\ In g parts).
Proof.
  unfold multi2single. intros H. apply bind_ok in H. destruct H as (more & Hmore & H).
  inversion H; subst out; clear H.
  rewrite in_app_iff, (multi_rows_In gpdf more a g Hmore), in_flat_map.
  split; (intros [H | H]; [left | right; exact H]).
  - destruct H as ([a' sh] & Hin & Hr). destruct sh; cbn in Hr; try destruct Hr as [Hr | []];
      try contradiction. inversion Hr; subst. exact Hin.
  - exists (a, Polygon g). split; [exact H | left; reflexivity].
Qed.

Lemma multi2single_rows_witness :
  In ("b"%string, 2%Z) [("a"%string, 1%Z); ("b"%string, 2%Z); ("b"%string, 3%Z)] <->
  In ("b"%string, Polygon 2%Z)
     [("a"%string, Polygon 1%Z); ("b"%string, MultiPolygon [2%Z; 3%Z]); ("c"%string, OtherShape 4%Z)]
  \/ exists parts,
       In ("b"%string, MultiPolygon parts)
          [("a"%string, Polygon 1%Z); ("b"%string, MultiPolygon [2%Z; 3%Z]);
           ("c"%string, OtherShape 4%Z)] /\ In 2%Z parts.
Proof.
  apply (multi2single_rows
           [("a"%string, Polygon 1%Z); ("b"%string, MultiPolygon [2%Z; 3%Z]);
            ("c"%string, OtherShape 4%Z)]).
  reflexivity.
Defined.

End FramesFacts.

(** ** Blocks *)

Module BlocksFacts.
Import ResultFacts Frames FramesFacts Blocks.
Local Open Scope result_scope.

Section Facts.
Context {Geom : Type} (E : Env Geom).

Local Abbreviation feature := (@feature Geom).

Lemma In_merge (frame : list feature) (ids : list (Z * Z)) f k :
  In (f, k) (merge frame ids) <-> In f frame /\ In (fst f, k) ids.
Proof.
  unfold merge. rewrite in_flat_map. split.
  - intros (f0 & Hf0 & Hin). apply in_flat_map in Hin. destruct Hin as (p & Hp & Hin).
    destruct (Z.eqb_spec (fst p) (fst f0)) as [He | _]; [| destruct Hin].
    destruct Hin as [Heq | []]. inversion Heq; subst.
    split; [exact Hf0 |]. rewrite <- He. destruct p; exact Hp.
  - intros [Hf Hid]. exists f. split; [exact Hf |].
    apply in_flat_map. exists (fst f, k). split; [exact Hid |].
    cbn [fst snd]. rewrite Z.eqb_refl. left; reflexivity.
Qed.

Lemma In_sjoin_ids (buildings_c : list feature) (blks : list (Z * Geom)) u k :
  In (u, k) (sjoin_ids E buildings_c blks) <->
  exists g gb, In (u, g) buildings_c /\ In (k, gb) blks /\ intersects E g gb = true.
Proof.
  unfold sjoin_ids. rewrite in_flat_map. split.
  - intros ([u0 g] & Hb & Hin). apply in_flat_map in Hin. destruct Hin as ([k0 gb] & Hk & Hin).
    cbn [fst snd] in Hin. destruct (intersects E g gb) eqn:Ei; [| destruct Hin].
    destruct Hin as [Heq | []]. inversion Heq; subst. exists g, gb. auto.
  - intros (g & gb & Hb & Hk & Hi). exists (u, g). split; [exact Hb |].
    apply in_flat_map. exists (k, gb). split; [exact Hk |].
    cbn [fst snd]. rewrite Hi. left; reflexivity.
Qed.

(** What [blocks] returns, in terms of the blocks it saves. *)
Lemma blocks_returns (cells : list feature) streets (buildings : list feature) sv :
  blocks E cells streets buildings = Ok sv ->
  exists (parts : list Geom) (cells_temp : list (feature * Z)),
    let buildings_c := map (fun b : feature => (fst b, centroid E (snd b))) buildings in
    let bl := sjoin_ids E buildings_c (saved_blocks sv) in
    parts <> [] /\
    saved_blocks sv = map (fun b => (fst b, buffer_block E (snd b))) (number_rows 1 parts) /\
    saved_buildings sv = merge buildings bl /\
    saved_cells sv = merge (map fst cells_temp) bl /\
    (forall c, In c (map fst cells_temp) -> In c cells).
Proof.
  unfold blocks. intros H.
  apply bind_ok in H. destruct H as (single & _ & H).
  apply bind_ok in H. destruct H as (parts & _ & H).
  destruct parts as [| part0 parts]; [discriminate |].
  inversion H; subst sv; clear H. cbn [saved_blocks saved_buildings saved_cells].
  eexists (map (fun b : unit * Geom => exterior_polygon E (snd b)) (part0 :: parts)), _.
  split; [discriminate |].
  split; [reflexivity |]. split; [reflexivity |]. split; [reflexivity |].
  intros c Hc. apply in_map_iff in Hc. destruct Hc as ([c0 k] & <- & Hin).
  apply In_merge in Hin. apply Hin.
Qed.

(** When [blocks] returns, it saves at least one block; the blocks saved
    are numbered 1, 2, 3, ... in their order, and no two have the same
    identifier. *)
Theorem blocks_numbered_in_order
  (cells : list feature) (streets : list Geom) (buildings : list feature) (sv : saved) :
  blocks E cells streets buildings = Ok sv ->
  saved_blocks sv <> [] /\
  NoDup (map fst (saved_blocks sv)) /\
  forall i blk, nth_error (saved_blocks sv) i = Some blk -> fst blk = (1 + Z.of_nat i)%Z.
Proof.
  intros H. destruct (blocks_returns _ _ _ _ H) as (parts & ct & Hne & Hb & _).
  cbn zeta in Hb. rewrite Hb. split; [| split].
  - destruct parts; [contradiction | discriminate].
  - rewrite map_map. cbn [fst]. apply number_rows_ids_distinct.
  - intros i blk Hn. rewrite nth_error_map in Hn.
    destruct (nth_error (number_rows 1 parts) i) as [[k g] |] eqn:En; [| discriminate].
    cbn in Hn. inversion Hn; subst blk. cbn [fst].
    assert (Hg : nth_error parts i = Some g).
    { rewrite <- (number_rows_content parts 1), nth_error_map, En. reflexivity. }
    rewrite (number_rows_nth parts 1 i g Hg) in En. inversion En. reflexivity.
Qed.

(** A building is saved with a block identifier exactly when some
    building with its [unique_id] has its centroid on the saved block of
    that identifier: a building whose centroid lies on no block is left
    out, one whose centroid lies on several is saved once for each. *)
Theorem blocks_saves_buildings_on_a_block
  (cells : list feature) (streets : list Geom) (buildings : list feature) (sv : saved)
  (b : feature) (bID : Z) :
  blocks E cells streets buildings = Ok sv ->
  (In (b, bID) (saved_buildings sv) <->
   In b buildings /\
   exists b' g, In b' buildings /\ fst b' = fst b /\
                In (bID, g) (saved_blocks sv) /\
                intersects E (centroid E (snd b')) g = true).
Proof.
  intros H. destruct (blocks_returns _ _ _ _ H) as (parts & ct & _ & _ & Hbu & _).
  cbn zeta in Hbu.
  rewrite Hbu, In_merge, In_sjoin_ids. split.
  - intros [Hb (g & gb & Hc & Hk & Hi)]. split; [exact Hb |].
    apply in_map_iff in Hc. destruct Hc as (b' & Heq & Hb'). inversion Heq; subst.
    exists b', gb. auto.
  - intros [Hb (b' & g & Hb' & He & Hk & Hi)]. split; [exact Hb |].
    exists (centroid E (snd b')), g. split; [| split; assumption].
    apply in_map_iff. exists b'. split; [rewrite He; reflexivity | exact Hb'].
Qed.

(** Every cell saved is a cell given, its block identifier is that of a
    saved block, and every building with the [unique_id] of the cell is
    saved with that same block identifier. *)
Theorem blocks_cells_agree_with_buildings
  (cells : list feature) (streets : list Geom) (buildings : list feature) (sv : saved)
  (c : feature) (bID : Z) :
  blocks E cells streets buildings = Ok sv ->
  In (c, bID) (saved_cells sv) ->
  In c cells /\
  (exists g, In (bID, g) (saved_blocks sv)) /\
  forall b, In b buildings -> fst b = fst c -> In (b, bID) (saved_buildings sv).
Proof.
  intros H Hin.
  destruct (blocks_returns _ _ _ _ H) as (parts & ct & _ & _ & Hbu & Hce & Hsub).
  cbn zeta in Hbu, Hce. rewrite Hce in Hin. apply In_merge in Hin. destruct Hin as [Hc Hid].
  split; [apply Hsub, Hc |]. split.
  - apply In_sjoin_ids in Hid. destruct Hid as (g & gb & _ & Hk & _). exists gb. exact Hk.
  - intros b Hb He. rewrite Hbu. apply In_merge. split; [exact Hb |]. rewrite He. exact Hid.
Qed.

Lemma sjoin_ids_none (buildings_c : list feature) (blks : list (Z * Geom)) :
  (forall b blk, In b buildings_c -> In blk blks -> intersects E (snd b) (snd blk) = false) ->
  sjoin_ids E buildings_c blks = [].
Proof.
  intros H. destruct (sjoin_ids E buildings_c blks) as [| [u k] rest] eqn:Es; [reflexivity |].
  assert (Hin : In (u, k) (sjoin_ids E buildings_c blks)) by (rewrite Es; left; reflexivity).
  apply In_sjoin_ids in Hin. destruct Hin as (g & gb & Hb & Hk & Hi).
  pose proof (H (u, g) (k, gb) Hb Hk) as Hf. cbn [snd] in Hf. congruence.
Qed.

Lemma merge_no_ids (frame : list feature) : merge frame [] = [].
Proof. induction frame as [| f rest IH]; [reflexivity | exact IH]. Qed.

(** When the street blocks are formed and no building has its centroid
    on one of them, no cell receives a block, no block is made, and
    [blocks] aborts with [KeyError]: nothing is saved. *)
Theorem blocks_raises_without_a_building_on_a_block
  (cells : list feature) (streets : list Geom) (buildings : list feature)
  (blocks_single : list (Z * Geom)) :
  street_blocks E cells streets = Ok blocks_single ->
  (forall b blk, In b buildings -> In blk blocks_single ->
     intersects E (centroid E (snd b)) (snd blk) = false) ->
  blocks E cells streets buildings = Raise KeyError.
Proof.
  intros Hs Hno. unfold blocks. rewrite Hs. cbn [bind].
  rewrite sjoin_ids_none.
  - rewrite merge_no_ids. reflexivity.
  - intros b blk Hb Hblk. apply in_map_iff in Hb. destruct Hb as (b0 & <- & Hb0).
    cbn [snd]. apply Hno; assumption.
Qed.

End Facts.

(** *** The example: two cells, a street between them, three buildings *)

Example example_blocks :
  blocks split_env example_cells example_streets example_buildings
  = Ok (mkSaved [((1, (4, 4, 6, 6)), 1); ((2, (14, 4, 16, 6)), 2)]%Z
                [((1, (0, 0, 10, 10)), 1); ((2, (10, 0, 20, 10)), 2)]%Z
                [(1, (0, 0, 10, 10)); (2, (10, 0, 20, 10))]%Z).
Proof. vm_compute. reflexivity. Qed.

Example example_street_blocks :
  street_blocks split_env example_cells example_streets
  = Ok [(1, (0, 0, 10, 10)); (2, (10, 0, 20, 10))]%Z.
Proof. vm_compute. reflexivity. Qed.

Lemma blocks_numbered_in_order_witness :
  let saved := [(1, (0, 0, 10, 10)); (2, (10, 0, 20, 10))]%Z in
  saved <> [] /\
  NoDup (map fst saved) /\
  forall i blk, nth_error saved i = Some blk -> fst blk = (1 + Z.of_nat i)%Z.
Proof.
  exact (blocks_numbered_in_order split_env example_cells example_streets example_buildings
           _ example_blocks).
Defined.

Lemma blocks_saves_buildings_on_a_block_witness :
  (In ((2, (14, 4, 16, 6)), 2)%Z [((1, (4, 4, 6, 6)), 1); ((2, (14, 4, 16, 6)), 2)]%Z <->
   In (2, (14, 4, 16, 6))%Z example_buildings /\
   exists b' g, In b' example_buildings /\ fst b' = 2%Z /\
                In (2%Z, g) [(1, (0, 0, 10, 10)); (2, (10, 0, 20, 10))]%Z /\
                intersects split_env (centroid split_env (snd b')) g = true) /\
  (forall bID,
     ~ (exists b' g, In b' example_buildings /\ fst b' = 3%Z /\
                     In (bID, g) [(1, (0, 0, 10, 10)); (2, (10, 0, 20, 10))]%Z /\
                     intersects split_env (centroid split_env (snd b')) g = true) ->
     ~ In ((3, (50, 50, 52, 52)), bID)%Z
          [((1, (4, 4, 6, 6)), 1); ((2, (14, 4, 16, 6)), 2)]%Z).
Proof.
  split.
  - exact (blocks_saves_buildings_on_a_block split_env example_cells example_streets
             example_buildings _ (2, (14, 4, 16, 6))%Z 2%Z example_blocks).
  - intros bID Hno Hin.
    apply (blocks_saves_buildings_on_a_block split_env example_cells example_streets
             example_buildings _ (3, (50, 50, 52, 52))%Z bID example_blocks) in Hin.
    apply Hno, Hin.
Defined.

Lemma blocks_cells_agree_with_buildings_witness :
  In (2, (10, 0, 20, 10))%Z example_cells /\
  (exists g, In (2%Z, g) [(1, (0, 0, 10, 10)); (2, (10, 0, 20, 10))]%Z) /\
  forall b, In b example_buildings -> fst b = 2%Z ->
    In (b, 2%Z) [((1, (4, 4, 6, 6)), 1); ((2, (14, 4, 16, 6)), 2)]%Z.
Proof.
  apply (blocks_cells_agree_with_buildings split_env example_cells example_streets
           example_buildings _ (2, (10, 0, 20, 10))%Z 2%Z example_blocks).
  right. left. reflexivity.
Defined.

Lemma blocks_raises_without_a_building_on_a_block_witness :
  blocks split_env example_cells example_streets far_buildings = Raise KeyError.
Proof.
  apply (blocks_raises_without_a_building_on_a_block split_env example_cells example_streets
           far_buildings _ example_street_blocks).
  intros b blk [<- | []] [<- | [<- | []]]; reflexivity.
Defined.

End BlocksFacts.
